(** * VocaSync for Astro: the synchronization core

    A shallow embedding of the polling loop and the address helpers of
    [src/api/client.ts], of the audio map of [src/core/audio-map.ts], of
    the per-item driver, the run over the items and the configuration check
    of [src/sync/orchestrator.ts], of the word matcher, the two caches, the
    text-node visitor and the test of the ancestors of
    [src/rehype/audio-words.ts], and of the parser of the command line,
    followed by the properties the specification states about them and by
    further properties of the code.

    Conventions.  A JavaScript value that may be [undefined] or [null] is an
    [option]; a function that may throw returns a [Completion]; a remote
    service is a script, a function from the rank of the request to what the
    service answers; the clock is a script of its readings; module-level
    mutable state (the two caches) is passed explicitly; an object used as a
    map is given with its own properties and its prototype. *)

From Stdlib Require Import QArith.
From stdpp Require Import gmap strings list fin_maps pretty sorting.
From Equations Require Import Equations.

Local Open Scope string_scope.
Local Open Scope list_scope.
Local Open Scope nat_scope.

(** ** JavaScript completions *)

(** The two classes of exception the code throws: [VocaSyncAPIError]
    (client.ts) and the plain [Error]. *)
Inductive JsError : Type :=
| VocaSyncAPIError (message : string) (statusCode : Z) (responseBody : option string)
| Error (message : string).

Definition errorMessage (e : JsError) : string :=
  match e with
  | VocaSyncAPIError m _ _ => m
  | Error m => m
  end.

Inductive Completion (A : Type) : Type :=
| Return (a : A)
| Throw (e : JsError).
Arguments Return {A} a.
Arguments Throw {A} e.

(** [s || d] for a string that may be [undefined]: the empty string is falsy. *)
Definition orElse (s : option string) (d : string) : string :=
  match s with
  | Some v => if decide (v = "") then d else v
  | None => d
  end.

(** Whether an optional value is there (not [undefined], not [null]). *)
Definition isSome {A : Type} (o : option A) : bool :=
  match o with Some _ => true | None => false end.

(** [s || undefined]. *)
Definition orUndefined (s : option string) : option string :=
  match s with
  | Some v => if decide (v = "") then None else Some v
  | None => None
  end.

(** ** Types of [src/types/index.ts] *)

Inductive JobStatus : Type := pending | processing | completed | failed.

Global Instance JobStatus_eq_dec : EqDecision JobStatus.
Proof. solve_decision. Defined.

Inductive ArtifactType : Type := artifact_alignment | artifact_synthesis.

Global Instance ArtifactType_eq_dec : EqDecision ArtifactType.
Proof. solve_decision. Defined.

(** The fields of [ArtifactResponse] that the client reads. *)
Record ArtifactResponse : Type := {
  artifactType : ArtifactType;
  synthesisFileKey : option string
}.

Record LinkedAlignmentStatus : Type := {
  la_projectUuid : string;
  la_status : JobStatus;
  la_error : option string
}.

(** The fields of [ProjectResponse] that the client reads. *)
Record ProjectResponse : Type := {
  pr_projectUuid : string;
  pr_name : option string;
  pr_projectType : ArtifactType;
  pr_status : JobStatus;
  pr_audioFileDurationSeconds : option Q;
  pr_error : option string;
  pr_artifacts : list ArtifactResponse;
  pr_linkedAlignment : option LinkedAlignmentStatus
}.

Record SynthesisJob : Type := {
  sj_status : JobStatus;
  sj_audioUrl : option string;
  sj_duration : option Q;
  sj_error : option string
}.

Record AlignmentJob : Type := {
  aj_status : JobStatus;
  aj_alignmentUrl : option string;
  aj_error : option string
}.

Record ProjectStatus : Type := {
  ps_uuid : string;
  ps_name : string;
  ps_status : JobStatus;
  synthesisJob : option SynthesisJob;
  alignmentJob : option AlignmentJob
}.

(** The text of a document is a JavaScript string read the way a regular
    expression with the [u] flag reads it, code point by code point.  An
    index into a text counts code points where the code counts UTF-16 code
    units; both number the same cuts of the text, since the pattern matches
    whole code points. *)
Abbreviation codepoint := N (only parsing).
Abbreviation ustring := (list N) (only parsing).

Record AlignedWord : Type := {
  aw_word : ustring;
  aw_start : Q;
  aw_end : Q
}.

Record AlignmentData : Type := {
  ad_words : list AlignedWord;
  ad_duration : Q
}.

Record AudioArtifact : Type := {
  aa_projectUuid : string;
  aa_contentHash : string;
  aa_duration : Q;
  aa_audioUrl : string;
  aa_alignmentUrl : string;
  aa_publishableKey : option string;
  aa_createdAt : string;
  aa_updatedAt : string
}.

Inductive SyncStatus : Type := st_unchanged | st_new | st_updated | st_error.

Global Instance SyncStatus_eq_dec : EqDecision SyncStatus.
Proof. solve_decision. Defined.

Record SyncResult : Type := {
  sr_slug : string;
  sr_status : SyncStatus;
  sr_projectUuid : option string;
  sr_error : option string
}.

(** ** [src/api/client.ts] *)

Module Client.

(** [getProjectStatus], after the request has answered with [project]. *)
Definition getProjectStatus (projectUuid : string) (project : ProjectResponse)
  : ProjectStatus :=
  let synthesisArtifact :=
    List.find (fun a => bool_decide (artifactType a = artifact_synthesis))
              (pr_artifacts project) in
  let synthesisJob :=
    if isSome synthesisArtifact
       || bool_decide (pr_projectType project = artifact_synthesis)
    then Some {| sj_status := pr_status project;
                 sj_duration :=
                   match pr_audioFileDurationSeconds project with
                   | Some d => if Qeq_bool d 0 then None else Some d
                   | None => None
                   end;
                 sj_error := orUndefined (pr_error project);
                 sj_audioUrl :=
                   match synthesisArtifact with
                   | Some a =>
                       match orUndefined (synthesisFileKey a) with
                       | Some _ => Some ("/stream/" +:+ projectUuid +:+ "/synthesis")
                       | None => None
                       end
                   | None => None
                   end |}
    else None in
  let alignmentJob :=
    match pr_linkedAlignment project with
    | Some la =>
        Some {| aj_status := la_status la;
                aj_error := orUndefined (la_error la);
                aj_alignmentUrl :=
                  if bool_decide (la_status la = completed)
                  then Some ("/stream/" +:+ projectUuid +:+ "/alignment")
                  else None |}
    | None => None
    end in
  {| ps_uuid := pr_projectUuid project;
     ps_name := orElse (pr_name project) "";
     ps_status := pr_status project;
     synthesisJob := synthesisJob;
     alignmentJob := alignmentJob |}.

(** What one call of [getProjectStatus] gives the loop: a status, or the
    exception of a failed request. *)
Definition PollResult : Type := Completion ProjectStatus.

(** The remote job as the loop sees it: the answer to the poll of each
    attempt. *)
Definition Poller : Type := nat -> PollResult.

(** A remote that answers the request of each attempt with a
    [ProjectResponse], or fails it. *)
Definition pollerOf (projectUuid : string)
    (remote : nat -> Completion ProjectResponse) : Poller :=
  fun attempt =>
    match remote attempt with
    | Return project => Return (getProjectStatus projectUuid project)
    | Throw e => Throw e
    end.

(** The options of [pollUntilComplete]; [onProgress] only says whether an
    observer was given, its calls are recorded in the trace (an observer
    that throws is not modelled). *)
Record PollOptions : Type := {
  maxAttempts : option nat;
  intervalMs : option nat;
  onProgress : bool
}.

Definition noOptions : PollOptions :=
  {| maxAttempts := None; intervalMs := None; onProgress := false |}.

(** The destructuring defaults [{ maxAttempts = 120, intervalMs = 5000 }]. *)
Definition maxAttemptsOf (o : PollOptions) : nat := default 120 (maxAttempts o).
Definition intervalMsOf (o : PollOptions) : nat := default 5000 (intervalMs o).

(** The effects of the loop, in order. *)
Inductive Event : Type :=
| EvPoll (attempt : nat)
| EvProgress (status : ProjectStatus)
| EvSleep (ms : nat).

Definition isPoll (e : Event) : bool :=
  match e with EvPoll _ => true | _ => false end.

Definition isSleep (e : Event) : bool :=
  match e with EvSleep _ => true | _ => false end.

Definition pollCount (tr : list Event) : nat := length (filter isPoll tr).

Definition synthStatusIs (status : ProjectStatus) (s : JobStatus) : bool :=
  match synthesisJob status with
  | Some j => bool_decide (sj_status j = s)
  | None => false
  end.

Definition alignStatusIs (status : ProjectStatus) (s : JobStatus) : bool :=
  match alignmentJob status with
  | Some j => bool_decide (aj_status j = s)
  | None => false
  end.

Definition synthComplete (status : ProjectStatus) : bool :=
  synthStatusIs status completed || synthStatusIs status failed.

Definition alignComplete (status : ProjectStatus) : bool :=
  alignStatusIs status completed || alignStatusIs status failed.

Definition shouldWaitForAlignment (status : ProjectStatus) : bool :=
  synthComplete status && negb (isSome (alignmentJob status)).

(** How the body of the [for] loop leaves one iteration. *)
Inductive Tick : Type :=
| TickReturn (status : ProjectStatus)
| TickThrow (e : JsError)
| TickSleep.

(** The body of the loop from the line after [onProgress?.(status)] to the
    line before [await sleep(intervalMs)]. *)
Definition tick (attempt : nat) (status : ProjectStatus) : Tick :=
  if synthComplete status && alignComplete status then
    if synthStatusIs status failed then
      TickThrow (VocaSyncAPIError
        ("Synthesis failed: " +:+
           orElse (sj ← synthesisJob status; sj_error sj) "Unknown error")
        500 None)
    else if alignStatusIs status failed then
      TickThrow (VocaSyncAPIError
        ("Alignment failed: " +:+
           orElse (aj ← alignmentJob status; aj_error aj) "Unknown error")
        500 None)
    else TickReturn status
  else if shouldWaitForAlignment status && bool_decide (5 < attempt) then
    TickReturn status
  else TickSleep.

Definition pollingTimeout : JsError :=
  VocaSyncAPIError "Polling timeout - job did not complete in time" 408 None.

(** The [for] loop, with [remaining = maxAttempts - attempt] iterations left
    and [tr] the effects so far. *)
Fixpoint pollLoop (poll : Poller) (interval : nat) (observer : bool)
    (remaining attempt : nat) (tr : list Event)
  : Completion ProjectStatus * list Event :=
  match remaining with
  | 0 => (Throw pollingTimeout, tr)
  | S remaining' =>
      match poll attempt with
      | Throw e => (Throw e, tr ++ [EvPoll attempt])
      | Return status =>
          let tr1 := tr ++ EvPoll attempt ::
                       (if observer then [EvProgress status] else []) in
          match tick attempt status with
          | TickReturn s => (Return s, tr1)
          | TickThrow e => (Throw e, tr1)
          | TickSleep =>
              pollLoop poll interval observer remaining' (S attempt)
                       (tr1 ++ [EvSleep interval])
          end
      end
  end.

Definition pollUntilComplete (poll : Poller) (options : PollOptions)
  : Completion ProjectStatus * list Event :=
  pollLoop poll (intervalMsOf options) (onProgress options)
           (maxAttemptsOf options) 0 [].

(** Attempt [j] is polled without an exception and ends in the sleep: no
    [return] and no [throw] at that attempt. *)
Definition sleeps (poll : Poller) (j : nat) : bool :=
  match poll j with
  | Return status => match tick j status with TickSleep => true | _ => false end
  | Throw _ => false
  end.

(** Every attempt before [k] ends in the sleep. *)
Definition sleepsBefore (poll : Poller) (k : nat) : bool :=
  forallb (sleeps poll) (seq 0 k).

(** The effects of an attempt that ends in the sleep. *)
Definition sleepEvents (poll : Poller) (interval : nat) (observer : bool)
    (j : nat) : list Event :=
  EvPoll j ::
    match poll j with
    | Return status => if observer then [EvProgress status] else []
    | Throw _ => []
    end ++ [EvSleep interval].

(** The loop ends at attempt [k] by its second [return], the one taken when
    the synthesis is over and no alignment job is there. *)
Definition endsWithoutAlignment (poll : Poller) (options : PollOptions)
    (k : nat) (status : ProjectStatus) : Prop :=
  k < maxAttemptsOf options ∧ sleepsBefore poll k = true ∧
  poll k = Return status ∧ shouldWaitForAlignment status = true ∧ 5 < k.

(** The first attempt, below [bound], whose poll sees the synthesis over. *)
Definition firstSynthComplete (poll : Poller) (bound : nat) : option nat :=
  List.find (fun j => match poll j with
                      | Return status => synthComplete status
                      | Throw _ => false
                      end)
            (seq 0 bound).

(** The polls made after the one that first saw the synthesis over. *)
Definition additionalPolls (poll : Poller) (tr : list Event) : option nat :=
  j ← firstSynthComplete poll (pollCount tr); Some (pollCount tr - S j).

(** [getStreamingUrls], with the default base address. *)
Record StreamingUrls : Type := {
  synthesisUrl : string;
  alignmentUrl : string;
  srtUrl : string;
  vttUrl : string
}.

Definition getStreamingUrls (projectUuid : string) : StreamingUrls :=
  let baseUrl := "https://vocasync.io/api/v1" in
  {| synthesisUrl := baseUrl +:+ "/stream/" +:+ projectUuid +:+ "/synthesis";
     alignmentUrl := baseUrl +:+ "/stream/" +:+ projectUuid +:+ "/alignment";
     srtUrl := baseUrl +:+ "/stream/" +:+ projectUuid +:+ "/subtitles.srt";
     vttUrl := baseUrl +:+ "/stream/" +:+ projectUuid +:+ "/subtitles.vtt" |}.

(** The statuses handed to the observer, in order. *)
Definition progressStatuses (tr : list Event) : list ProjectStatus :=
  flat_map (fun e => match e with EvProgress status => [status] | _ => [] end) tr.

(** The attempts polled, in order. *)
Definition polledAttempts (tr : list Event) : list nat :=
  flat_map (fun e => match e with EvPoll attempt => [attempt] | _ => [] end) tr.

(** The statuses that the polls of the attempts [a], ..., [a + n - 1]
    answered. *)
Definition answered (poll : Poller) (a n : nat) : list ProjectStatus :=
  flat_map (fun j => match poll j with Return status => [status] | Throw _ => [] end)
           (seq a n).

(** The last iteration of a loop that ends before its attempts run out: the
    attempt [j], whose poll throws or whose status makes the body return or
    throw, after the effects [tr]. *)
Definition stopAt (poll : Poller) (observer : bool) (j : nat)
    (tr : list Event) : Completion ProjectStatus * list Event :=
  match poll j with
  | Throw e => (Throw e, tr ++ [EvPoll j])
  | Return status =>
      let tr1 := tr ++ EvPoll j ::
                   (if observer then [EvProgress status] else []) in
      match tick j status with
      | TickReturn s => (Return s, tr1)
      | TickThrow e => (Throw e, tr1)
      | TickSleep => (Throw pollingTimeout, tr1)
      end
  end.


(** What [fetch] gives: a response that is [ok] with its parsed body, or one
    that is not, with its status; a failure to connect is a [Throw]. *)
Inductive Response (A : Type) : Type :=
| ResponseOk (body : A)
| ResponseNotOk (status : Z).
Arguments ResponseOk {A} body.
Arguments ResponseNotOk {A} status.

(** The address that [getAlignment] requests. *)
Definition alignmentAddress (baseUrl alignmentUrl : string) : string :=
  if String.prefix "http" alignmentUrl then alignmentUrl
  else baseUrl +:+ alignmentUrl.

Definition getAlignment (baseUrl : string)
    (fetch : string -> Completion (Response AlignmentData))
    (alignmentUrl : string) : Completion AlignmentData :=
  match fetch (alignmentAddress baseUrl alignmentUrl) with
  | Throw e => Throw e
  | Return (ResponseNotOk status) =>
      Throw (VocaSyncAPIError ("Failed to fetch alignment: " +:+ pretty status)
                              status None)
  | Return (ResponseOk data) => Return data
  end.

Record Validation : Type := {
  valid : bool;
  balance : option Q
}.

(** [validateApiKey], given what [request("GET", "/account")] completes
    with: the balance of the account, or the exception of the request. *)
Definition validateApiKey (account : Completion (option Q))
  : Completion Validation :=
  match account with
  | Return b => Return {| valid := true; balance := b |}
  | Throw (VocaSyncAPIError m statusCode body) =>
      if bool_decide (statusCode = 401%Z)
      then Return {| valid := false; balance := None |}
      else Throw (VocaSyncAPIError m statusCode body)
  | Throw e => Throw e
  end.

End Client.

(** ** [src/core/hash-manager.ts] and [src/core/audio-map.ts] *)

Module Core.

(** [hasChanged]: strict inequality of an optional old hash and a new one. *)
Definition hasChanged (oldHash : option string) (newHash : string) : bool :=
  negb (bool_decide (oldHash = Some newHash)).

(** *** The [entries] object

    [entries] is a plain JavaScript object used as a map from slugs to
    artifacts.  A read [entries[slug]] that finds no own property goes on
    along the prototype chain, and an assignment to the name [__proto__]
    reaches the accessor of [Object.prototype], which replaces the prototype
    of [entries] instead of storing a property.  ([Object.prototype] itself
    is taken as the engine provides it.) *)

(** A value held by a property of an artifact. *)
Inductive Primitive : Type :=
| PrimString (s : string)
| PrimNumber (q : Q).

(** The own properties of an artifact, by name. *)
Definition artifactField (a : AudioArtifact) (name : string) : option Primitive :=
  if bool_decide (name = "projectUuid") then Some (PrimString (aa_projectUuid a))
  else if bool_decide (name = "contentHash") then Some (PrimString (aa_contentHash a))
  else if bool_decide (name = "duration") then Some (PrimNumber (aa_duration a))
  else if bool_decide (name = "audioUrl") then Some (PrimString (aa_audioUrl a))
  else if bool_decide (name = "alignmentUrl") then Some (PrimString (aa_alignmentUrl a))
  else if bool_decide (name = "publishableKey") then PrimString <$> aa_publishableKey a
  else if bool_decide (name = "createdAt") then Some (PrimString (aa_createdAt a))
  else if bool_decide (name = "updatedAt") then Some (PrimString (aa_updatedAt a))
  else None.

(** The members of [Object.prototype] that hold a function; the one member
    left, [__proto__], is an accessor. *)
Definition objectPrototypeMembers : list string :=
  ["constructor"; "__defineGetter__"; "__defineSetter__"; "hasOwnProperty";
   "__lookupGetter__"; "__lookupSetter__"; "isPrototypeOf";
   "propertyIsEnumerable"; "toString"; "valueOf"; "toLocaleString"].

(** The object: its own properties, and its prototype, which is
    [Object.prototype] ([None]) or an artifact put there by an assignment
    to [__proto__]; the prototype of an artifact is [Object.prototype]. *)
Record Entries : Type := {
  own : gmap string AudioArtifact;
  proto : option AudioArtifact
}.

Global Instance Entries_empty : Empty Entries := {| own := ∅; proto := None |}.

Record AudioMap : Type := {
  am_version : nat;
  am_updatedAt : string;
  am_entries : Entries
}.

(** What [entries[slug]] evaluates to when it is not [undefined]: an
    artifact (an own property, or the prototype read through [__proto__]),
    the value of a property of the artifact that is the prototype, or a
    member of [Object.prototype] (a function, or [Object.prototype] itself
    read through [__proto__]). *)
Inductive Found : Type :=
| FoundArtifact (a : AudioArtifact)
| FoundPrimitive (v : Primitive)
| FoundBuiltin.

(** [getAudioEntry]: the read [audioMap.entries[slug]]. *)
Definition getAudioEntry (audioMap : AudioMap) (slug : string) : option Found :=
  match own (am_entries audioMap) !! slug with
  | Some artifact => Some (FoundArtifact artifact)
  | None =>
      match p ← proto (am_entries audioMap); artifactField p slug with
      | Some v => Some (FoundPrimitive v)
      | None =>
          if bool_decide (slug = "__proto__") then
            Some (match proto (am_entries audioMap) with
                  | Some p => FoundArtifact p
                  | None => FoundBuiltin
                  end)
          else if bool_decide (slug ∈ objectPrototypeMembers) then Some FoundBuiltin
          else None
      end
  end.

(** The truth value of what a read gave: objects and functions are truthy,
    the empty string and zero are not. *)
Definition isTruthy (entry : option Found) : bool :=
  match entry with
  | Some (FoundArtifact _) | Some FoundBuiltin => true
  | Some (FoundPrimitive (PrimString s)) => negb (bool_decide (s = ""))
  | Some (FoundPrimitive (PrimNumber q)) => negb (Qnum q =? 0)%Z
  | None => false
  end.

(** [entry?.contentHash] and [entry?.createdAt]: only an artifact has
    them. *)
Definition contentHashOf (entry : option Found) : option string :=
  match entry with
  | Some (FoundArtifact a) => Some (aa_contentHash a)
  | _ => None
  end.

Definition createdAtOf (entry : option Found) : option string :=
  match entry with
  | Some (FoundArtifact a) => Some (aa_createdAt a)
  | _ => None
  end.

(** [setAudioEntry]: the assignment [audioMap.entries[slug] = artifact].  It
    writes an own property, except for the name [__proto__] when [entries]
    has no own property of that name (an object read from a file can have
    one): then the artifact becomes the prototype. *)
Definition setAudioEntry (audioMap : AudioMap) (slug : string)
    (artifact : AudioArtifact) : AudioMap :=
  {| am_version := am_version audioMap;
     am_updatedAt := am_updatedAt audioMap;
     am_entries :=
       if bool_decide (slug = "__proto__")
          && negb (isSome (own (am_entries audioMap) !! slug))
       then {| own := own (am_entries audioMap); proto := Some artifact |}
       else {| own := <[slug := artifact]> (own (am_entries audioMap));
               proto := proto (am_entries audioMap) |} |}.

(** The audio map as [JSON.stringify] writes it and [JSON.parse] reads it
    back: the own properties of [entries], under [Object.prototype]. *)
Definition stored (audioMap : AudioMap) : AudioMap :=
  {| am_version := am_version audioMap;
     am_updatedAt := am_updatedAt audioMap;
     am_entries := {| own := own (am_entries audioMap); proto := None |} |}.

End Core.

(** ** [src/sync/orchestrator.ts] *)

Module Orchestrator.
Import Core.

Record ContentItem : Type := {
  ci_slug : string;
  ci_content : string;
  ci_filePath : string
}.

Record SpeechDocument : Type := {
  sd_slug : string;
  sd_text : string;
  sd_hash : string;
  sd_source : string
}.

Inductive Quality : Type := sd | hd.

(** The fields of [VocaSyncConfig] that [processItem] reads. *)
Record VocaSyncConfig : Type := {
  cfg_voice : string;
  cfg_quality : Quality;
  cfg_language : string
}.

Record SynthesisParams : Type := {
  sp_name : string;
  sp_text : string;
  sp_voice : string;
  sp_quality : Quality;
  sp_language : string
}.

Record SynthesisResponse : Type := {
  projectUuid : string;
  estimatedCost : Q
}.

Inductive Level : Type := info | success | warn | error.

(** What [processItem] and [sync] await from outside: the speech builder,
    the three operations of the client that reach the remote service, and
    the clock.  [clock n] is what the [new Date().toISOString()] of rank [n]
    among those of [processItem] reads, counted from the call on; [now] is
    what the one of [saveAudioMap] reads. *)
Record World : Type := {
  buildSpeechDocument : ContentItem -> Completion SpeechDocument;
  synthesize : SynthesisParams -> Completion SynthesisResponse;
  remoteStatus : string -> Client.Poller;
  getAlignment : string -> Completion AlignmentData;
  clock : nat -> string;
  now : string
}.

(** The world after [k] readings of the clock. *)
Definition later (k : nat) (world : World) : World :=
  {| buildSpeechDocument := buildSpeechDocument world;
     synthesize := synthesize world;
     remoteStatus := remoteStatus world;
     getAlignment := getAlignment world;
     clock := fun n => clock world (k + n);
     now := now world |}.

Definition statusName (s : JobStatus) : string :=
  match s with
  | pending => "pending"
  | processing => "processing"
  | completed => "completed"
  | failed => "failed"
  end.

Definition syncStatusName (s : SyncStatus) : string :=
  match s with
  | st_unchanged => "unchanged"
  | st_new => "new"
  | st_updated => "updated"
  | st_error => "error"
  end.

(** The [onProgress] callback that [processItem] hands to the polling loop. *)
Definition pollProgress (status : ProjectStatus) : string * Level :=
  let synthStatus :=
    match synthesisJob status with Some j => statusName (sj_status j) | None => "pending" end in
  let alignStatus :=
    match alignmentJob status with Some j => statusName (aj_status j) | None => "pending" end in
  ("   synth: " +:+ synthStatus +:+ ", align: " +:+ alignStatus, info).

(** The options [processItem] gives to [pollUntilComplete]: the observer
    only, so both defaults apply. *)
Definition pollOptions : Client.PollOptions :=
  {| Client.maxAttempts := None; Client.intervalMs := None;
     Client.onProgress := true |}.

Definition progressOf (tr : list Client.Event) : list (string * Level) :=
  flat_map (fun e => match e with
                     | Client.EvProgress status => [pollProgress status]
                     | _ => []
                     end) tr.

Section ProcessItem.
Variable world : World.
Variable item : ContentItem.
Variable config : VocaSyncConfig.
Variable audioMap : AudioMap.
Variables force dryRun : bool.

Definition plainResult (status : SyncStatus) : SyncResult :=
  {| sr_slug := ci_slug item; sr_status := status;
     sr_projectUuid := None; sr_error := None |}.

(** The [try] block: its completion, the audio map after it, the progress
    messages it sent and the number of times it read the clock. *)
Definition processItemTry
  : Completion SyncResult * AudioMap * (list (string * Level) * nat) :=
  match buildSpeechDocument world item with
  | Throw e => (Throw e, audioMap, ([], 0))
  | Return speechDoc =>
    let existingEntry := getAudioEntry audioMap (ci_slug item) in
    let contentChanged :=
      hasChanged (contentHashOf existingEntry) (sd_hash speechDoc) in
    if negb force && negb contentChanged && isTruthy existingEntry then
      (Return (plainResult st_unchanged), audioMap,
       ([("⏭ " +:+ ci_slug item +:+ " - unchanged", info)], 0))
    else
      let status := if isTruthy existingEntry then st_updated else st_new in
      let log1 :=
        [("📤 " +:+ ci_slug item +:+ " - " +:+ syncStatusName status
            +:+ ", submitting...", info)] in
      if dryRun then
        (Return (plainResult status), audioMap,
         (log1 ++ [("🔍 " +:+ ci_slug item +:+ " - would " +:+ syncStatusName status
                      +:+ " (dry run)", info)], 0))
      else
        match synthesize world
                {| sp_name := "astro-" +:+ ci_slug item;
                   sp_text := sd_text speechDoc;
                   sp_voice := cfg_voice config;
                   sp_quality := cfg_quality config;
                   sp_language := cfg_language config |} with
        | Throw e => (Throw e, audioMap, (log1, 0))
        | Return response =>
          let log2 := log1 ++
            [("⏳ " +:+ ci_slug item +:+ " - processing (" +:+ projectUuid response
                +:+ ")...", info)] in
          let polled :=
            Client.pollUntilComplete
              (remoteStatus world (projectUuid response))
              pollOptions in
          let log3 := log2 ++ progressOf polled.2 in
          match polled.1 with
          | Throw e => (Throw e, audioMap, (log3, 0))
          | Return finalStatus =>
            match aj ← alignmentJob finalStatus; orUndefined (aj_alignmentUrl aj) with
            | None => (Throw (Error "No alignment URL returned"), audioMap, (log3, 0))
            | Some url =>
              match getAlignment world url with
              | Throw e => (Throw e, audioMap, (log3, 0))
              | Return alignmentData =>
                let streamingUrls := Client.getStreamingUrls (projectUuid response) in
                let kept := orUndefined (createdAtOf existingEntry) in
                let reads := if isSome kept then 0 else 1 in
                let artifact :=
                  {| aa_projectUuid := projectUuid response;
                     aa_contentHash := sd_hash speechDoc;
                     aa_duration := ad_duration alignmentData;
                     aa_audioUrl := Client.synthesisUrl streamingUrls;
                     aa_alignmentUrl := Client.alignmentUrl streamingUrls;
                     aa_publishableKey := None;
                     aa_createdAt := default (clock world 0) kept;
                     aa_updatedAt := clock world reads |} in
                (Return {| sr_slug := ci_slug item; sr_status := status;
                           sr_projectUuid := Some (projectUuid response);
                           sr_error := None |},
                 setAudioEntry audioMap (ci_slug item) artifact,
                 (log3 ++ [("✅ " +:+ ci_slug item +:+ " - "
                              +:+ syncStatusName status +:+ " complete", success)],
                  S reads))
              end
            end
          end
        end
  end.

(** [processItem]: the [try] block and its [catch]. *)
Definition processItem : SyncResult * AudioMap * (list (string * Level) * nat) :=
  match processItemTry with
  | (Return result, audioMap', did) => (result, audioMap', did)
  | (Throw e, audioMap', (log, reads)) =>
      ({| sr_slug := ci_slug item; sr_status := st_error;
          sr_projectUuid := None; sr_error := Some (errorMessage e) |},
       audioMap',
       (log ++ [("❌ " +:+ ci_slug item +:+ " - error: " +:+ errorMessage e, error)],
        reads))
  end.

(** The item reaches the polling loop: the speech document is built, the
    item is neither skipped as unchanged nor a dry run, and the synthesis is
    accepted under the identifier [uuid]. *)
Definition reachesPolling (uuid : string) : Prop :=
  ∃ speechDoc response,
    buildSpeechDocument world item = Return speechDoc ∧
    (negb force
       && negb (hasChanged (contentHashOf (getAudioEntry audioMap (ci_slug item)))
                           (sd_hash speechDoc))
       && isTruthy (getAudioEntry audioMap (ci_slug item))) = false ∧
    dryRun = false ∧
    synthesize world
      {| sp_name := "astro-" +:+ ci_slug item;
         sp_text := sd_text speechDoc;
         sp_voice := cfg_voice config;
         sp_quality := cfg_quality config;
         sp_language := cfg_language config |} = Return response ∧
    projectUuid response = uuid.

End ProcessItem.

(** *** [sync] *)

Record SyncOptions : Type := {
  only : option string;
  force : bool;
  dryRun : bool
}.

Record SyncSummary : Type := {
  total : nat;
  unchanged : nat;
  synced : nat;
  errors : nat;
  results : list SyncResult
}.

(** What [sync] awaits besides the world of the items: the audio map read
    from its file, the content of the collection, and the outcome of the
    [mkdir] and [writeFile] of [saveAudioMap]. *)
Record Files : Type := {
  loadAudioMap : string -> Completion AudioMap;
  loadContent : Completion (list ContentItem);
  writeAudioMap : string -> AudioMap -> Completion unit
}.

(** The fields of the configuration that [sync] reads itself. *)
Record SyncConfig : Type := {
  audioMapPath : string;
  collectionName : string
}.

(** The state of the loop over the items: the results and the counters, the
    audio map that every call of [processItem] shares, the messages, and the
    number of readings of the clock so far. *)
Record SyncState : Type := {
  ss_results : list SyncResult;
  ss_unchanged : nat;
  ss_synced : nat;
  ss_errors : nat;
  ss_audioMap : AudioMap;
  ss_log : list (string * Level);
  ss_clockReads : nat
}.

Definition syncStep (world : World) (config : VocaSyncConfig)
    (force dryRun : bool) (st : SyncState) (item : ContentItem) : SyncState :=
  let processed :=
    processItem (later (ss_clockReads st) world) item config (ss_audioMap st)
                force dryRun in
  let result := processed.1.1 in
  {| ss_results := ss_results st ++ [result];
     ss_unchanged :=
       if bool_decide (sr_status result = st_unchanged)
       then S (ss_unchanged st) else ss_unchanged st;
     ss_synced :=
       if bool_decide (sr_status result = st_unchanged) then ss_synced st
       else if bool_decide (sr_status result = st_error) then ss_synced st
       else S (ss_synced st);
     ss_errors :=
       if bool_decide (sr_status result = st_unchanged) then ss_errors st
       else if bool_decide (sr_status result = st_error) then S (ss_errors st)
       else ss_errors st;
     ss_audioMap := processed.1.2;
     ss_log := ss_log st ++ processed.2.1;
     ss_clockReads := ss_clockReads st + processed.2.2 |}.

Definition syncLoop (world : World) (config : VocaSyncConfig)
    (force dryRun : bool) (items : list ContentItem) (st : SyncState)
  : SyncState :=
  fold_left (syncStep world config force dryRun) items st.

(** What a run of [sync] leaves: its completion, the audio map that the
    file holds afterwards if one was written, and the messages. *)
Record SyncRun : Type := {
  run_completion : Completion SyncSummary;
  run_written : option AudioMap;
  run_log : list (string * Level)
}.

(** [saveAudioMap]: the map gets the time of the save, then goes to the
    file as [JSON.stringify] writes it.  The completion holds what the file
    then holds. *)
Definition saveAudioMap (files : Files) (time : string) (filePath : string)
    (audioMap : AudioMap) : Completion AudioMap :=
  let stamped := {| am_version := am_version audioMap;
                    am_updatedAt := time;
                    am_entries := am_entries audioMap |} in
  match writeAudioMap files filePath (stored stamped) with
  | Return _ => Return (stored stamped)
  | Throw e => Throw e
  end.

Definition sync (world : World) (files : Files) (config : VocaSyncConfig)
    (syncConfig : SyncConfig) (options : SyncOptions) : SyncRun :=
  let log0 := [("Loading audio map...", info)] in
  match loadAudioMap files (audioMapPath syncConfig) with
  | Throw e => {| run_completion := Throw e; run_written := None; run_log := log0 |}
  | Return audioMap =>
    let log1 := log0 ++
      [("Loading content from " +:+ collectionName syncConfig +:+ "...", info)] in
    match loadContent files with
    | Throw e => {| run_completion := Throw e; run_written := None; run_log := log1 |}
    | Return loaded =>
      let selected :=
        match orUndefined (only options) with
        | Some slug => List.filter (fun item => bool_decide (ci_slug item = slug)) loaded
        | None => loaded
        end in
      if isSome (orUndefined (only options)) && bool_decide (length selected = 0) then
        {| run_completion :=
             Throw (Error ("No content found with slug: "
                             +:+ default "" (only options)));
           run_written := None; run_log := log1 |}
      else
        let log2 := log1 ++
          [("Found " +:+ pretty (length selected) +:+ " content items", info)] in
        let st := syncLoop world config (force options) (dryRun options) selected
                    {| ss_results := []; ss_unchanged := 0; ss_synced := 0;
                       ss_errors := 0; ss_audioMap := audioMap; ss_log := log2;
                       ss_clockReads := 0 |} in
        let summary :=
          {| total := length selected; unchanged := ss_unchanged st;
             synced := ss_synced st; errors := ss_errors st;
             results := ss_results st |} in
        if negb (dryRun options) && bool_decide (0 < ss_synced st) then
          let log3 := ss_log st ++ [("Saving audio map...", info)] in
          match saveAudioMap files (now world) (audioMapPath syncConfig)
                             (ss_audioMap st) with
          | Throw e =>
              {| run_completion := Throw e; run_written := None; run_log := log3 |}
          | Return written =>
              {| run_completion := Return summary; run_written := Some written;
                 run_log := log3 |}
          end
        else
          {| run_completion := Return summary; run_written := None;
             run_log := ss_log st |}
    end
  end.

(** The items that [sync] goes through: all that were loaded, or the ones
    with the slug of a non-empty [only]. *)
Definition selectedItems (options : SyncOptions) (loaded : list ContentItem)
  : list ContentItem :=
  match only options with
  | Some slug =>
      if bool_decide (slug = "") then loaded
      else List.filter (fun item => bool_decide (ci_slug item = slug)) loaded
  | None => loaded
  end.

Definition hasStatus (status : SyncStatus) (result : SyncResult) : bool :=
  bool_decide (sr_status result = status).

(** A result that [sync] counts as synced: neither unchanged nor an error. *)
Definition isSynced (result : SyncResult) : bool :=
  negb (hasStatus st_unchanged result) && negb (hasStatus st_error result).

(** The audio map holds, for the item, an own entry with the hash of the
    speech document that the world builds for it. *)
Definition upToDate (world : World) (audioMap : AudioMap) (item : ContentItem)
  : Prop :=
  ∃ entry speechDoc,
    own (am_entries audioMap) !! ci_slug item = Some entry
    ∧ buildSpeechDocument world item = Return speechDoc
    ∧ aa_contentHash entry = sd_hash speechDoc.

(** *** [checkConfig] *)

Record ConfigCheck : Type := {
  cc_valid : bool;
  cc_message : string;
  cc_balance : option Q
}.

(** [checkConfig], given what the request of the account and the loading of
    the content complete with; [toFixed2] is [Number.prototype.toFixed(2)]. *)
Definition checkConfig (toFixed2 : Q -> string)
    (account : Completion (option Q))
    (content : Completion (list ContentItem)) : ConfigCheck :=
  let attempt : Completion ConfigCheck :=
    match Client.validateApiKey account with
    | Throw e => Throw e
    | Return validation =>
        if negb (Client.valid validation) then
          Return {| cc_valid := false;
                    cc_message := "Invalid API key. Check your VOCASYNC_API_KEY environment variable.";
                    cc_balance := None |}
        else
          match content with
          | Throw e => Throw e
          | Return items =>
              Return {| cc_valid := true;
                        cc_message :=
                          "Configuration valid. Found " +:+ pretty (length items)
                            +:+ " content items. Balance: $"
                            +:+ default "?" (toFixed2 <$> Client.balance validation)
                            +:+ ".";
                        cc_balance := Client.balance validation |}
          end
    end in
  match attempt with
  | Return check => check
  | Throw e => {| cc_valid := false;
                  cc_message := "Configuration error: " +:+ errorMessage e;
                  cc_balance := None |}
  end.

End Orchestrator.

(** ** [src/rehype/audio-words.ts] *)

Module Rehype.

Local Set Warnings "-register-all".

(** *** The tree (hast) *)

(** A value of the [className] property: hast allows a string, a number or a
    boolean, alone or in an array. *)
Inductive PropValue : Type :=
| PString (s : string)
| PNumber (n : Z)
| PBoolean (b : bool).

Inductive ClassName : Type :=
| ClassSingle (v : PropValue)
| ClassArray (vs : list PropValue).

(** The properties the plugin reads or writes. *)
Record Properties : Type := {
  className : option ClassName;
  dataWordIndex : option nat;
  dataStart : option string;
  dataEnd : option string
}.

Inductive Node : Type :=
| Text (value : ustring)
| Element (tagName : string) (properties : option Properties) (children : list Node).

(** An entry of the [ancestors] array of [visitParents]: the root, which has
    neither tag nor properties, or an element. *)
Inductive Ancestor : Type :=
| ARoot
| AElement (tagName : string) (properties : option Properties).

(** *** [isInNonTextualElement] *)

Definition nonTextualTags : gset string :=
  {[ "code"; "pre"; "script"; "style"; "svg"; "math" ]}.

Definition nonTextualClasses : gset string :=
  {[ "katex"; "katex-mathml"; "katex-html"; "mjx-container" ]}.

Definition truthy (v : PropValue) : bool :=
  match v with
  | PString s => negb (bool_decide (s = ""))
  | PNumber n => negb (bool_decide (n = 0%Z))
  | PBoolean b => b
  end.

(** [typeof cls === "string" && nonTextualClasses.has(cls)]. *)
Definition isNonTextualClass (cls : PropValue) : bool :=
  match cls with
  | PString s => bool_decide (s ∈ nonTextualClasses)
  | _ => false
  end.

(** The two tests of the loop body on one ancestor. *)
Definition isNonTextual (ancestor : Ancestor) : bool :=
  match ancestor with
  | ARoot => false
  | AElement tagName properties =>
      bool_decide (tagName ∈ nonTextualTags)
      || match properties ≫= className with
         | Some (ClassArray classes) => existsb isNonTextualClass classes
         | Some (ClassSingle v) =>
             truthy v && existsb isNonTextualClass [v]
         | None => false
         end
  end.

(** The class list of an ancestor: the values of its [className], whether
    the property holds one value or an array of them. *)
Definition classList (properties : option Properties) : list PropValue :=
  match properties ≫= className with
  | Some (ClassArray classes) => classes
  | Some (ClassSingle v) => [v]
  | None => []
  end.

Fixpoint isInNonTextualElement (ancestors : list Ancestor) : bool :=
  match ancestors with
  | [] => false
  | ancestor :: rest =>
      if isNonTextual ancestor then true else isInNonTextualElement rest
  end.

(** *** The alignment cache and [fetchAlignmentSync] *)

(** What [JSON.parse] yields, as far as the code tells: a value whose
    [words] member is an array, or anything else. *)
Inductive Json : Type :=
| JsonWords (words : list AlignedWord)
| JsonOther.

(** One run of [curl]: [execSync] throws, or gives an output that
    [JSON.parse] rejects ([None]) or parses. *)
Inductive CurlResult : Type :=
| ExecThrows
| ExecOutput (parsed : option Json).

(** The remote end: what the [n]-th run of [curl] of the process answers for
    an address. *)
Definition Remote : Type := nat -> string -> CurlResult.

(** The module-level [alignmentCache], and the addresses fetched so far. *)
Record CacheState : Type := {
  alignmentCache : gmap string (list AlignedWord);
  fetched : list string
}.

Definition fetchAlignmentSync (remote : Remote) (alignmentUrl slug : string)
    (st : CacheState) : option (list AlignedWord) * CacheState :=
  match alignmentCache st !! slug with
  | Some words => (Some words, st)
  | None =>
      let st1 := {| alignmentCache := alignmentCache st;
                    fetched := fetched st ++ [alignmentUrl] |} in
      match remote (length (fetched st)) alignmentUrl with
      | ExecOutput (Some (JsonWords words)) =>
          (Some words,
           {| alignmentCache := <[slug := words]> (alignmentCache st);
              fetched := fetched st1 |})
      | _ => (None, st1)
      end
  end.

(** A run of the process: the requests [(alignmentUrl, slug)] made one after
    the other, and the state they leave. *)
Definition runRequests (remote : Remote) (requests : list (string * string))
    (st : CacheState) : CacheState :=
  fold_left (fun st request => (fetchAlignmentSync remote request.1 request.2 st).2)
            requests st.

Definition emptyCache : CacheState := {| alignmentCache := ∅; fetched := [] |}.

(** *** The audio map cache and [loadAudioMapSync] *)

(** One [readFileSync] followed by [JSON.parse]: one of the two throws, or
    the file parses to an audio map (or to [null]). *)
Inductive ReadResult : Type :=
| ReadThrows
| ReadValue (parsed : option Core.AudioMap).

(** The files: what the [n]-th read of the process finds at a path. *)
Definition Disk : Type := nat -> string -> ReadResult.

(** The module-level [audioMapCache] and [audioMapCachePath], and the paths
    read so far. *)
Record MapCache : Type := {
  audioMapCache : option Core.AudioMap;
  audioMapCachePath : option string;
  reads : list string
}.

Definition noMapCache : MapCache :=
  {| audioMapCache := None; audioMapCachePath := None; reads := [] |}.

Definition loadAudioMapSync (disk : Disk) (audioMapPath : string)
    (st : MapCache) : option Core.AudioMap * MapCache :=
  if isSome (audioMapCache st)
     && bool_decide (audioMapCachePath st = Some audioMapPath)
  then (audioMapCache st, st)
  else
    match disk (length (reads st)) audioMapPath with
    | ReadValue parsed =>
        (parsed, {| audioMapCache := parsed;
                    audioMapCachePath := Some audioMapPath;
                    reads := reads st ++ [audioMapPath] |})
    | ReadThrows =>
        (None, {| audioMapCache := audioMapCache st;
                  audioMapCachePath := audioMapCachePath st;
                  reads := reads st ++ [audioMapPath] |})
    end.

(** The loads of the given paths, one after the other. *)
Definition runLoads (disk : Disk) (paths : list string) (st : MapCache)
  : MapCache :=
  fold_left (fun st path => (loadAudioMapSync disk path st).2) paths st.

(** *** Shapes of node lists *)

Definition isTextNode (n : Node) : bool :=
  match n with Text _ => true | Element _ _ _ => false end.

(** Whether two text nodes stand side by side. *)
Fixpoint adjacentTexts (ns : list Node) : bool :=
  match ns with
  | [] => false
  | n :: rest =>
      match n, rest with
      | Text _, Text _ :: _ => true
      | _, _ => adjacentTexts rest
      end
  end.

(** The [data-word-index] of an element that has one. *)
Definition wordIndexOf (n : Node) : option nat :=
  match n with
  | Element _ (Some properties) _ => dataWordIndex properties
  | _ => None
  end.

(** The elements of a list of nodes, in order. *)
Definition elementsOf (ns : list Node) : list Node :=
  List.filter (fun n => negb (isTextNode n)) ns.

(** *** The matcher *)

Section Matcher.

(** The tables of the JavaScript engine: the Unicode categories [\p{L}] and
    [\p{N}], [String.prototype.toLowerCase], the characters that
    [String.prototype.trim] removes, and [Number.prototype.toFixed(3)]. *)
Variable isLetter : codepoint -> bool.
Variable isNumber : codepoint -> bool.
Variable toLowerCase : ustring -> ustring.
Variable isWhiteSpace : codepoint -> bool.
Variable toFixed3 : Q -> string.

Definition apostrophe : codepoint := 39%N.

(** A member of the class [[\p{L}\p{N}']] of [wordPattern]. *)
Definition isWordChar (c : codepoint) : bool :=
  isLetter c || isNumber c || bool_decide (c = apostrophe).

Definition isLetterOrNumber (c : codepoint) : bool := isLetter c || isNumber c.

Fixpoint trimStart (s : ustring) : ustring :=
  match s with
  | c :: s' => if isWhiteSpace c then trimStart s' else s
  | [] => []
  end.

Definition trim (s : ustring) : ustring := rev (trimStart (rev (trimStart s))).

Definition normalizeWord (word : ustring) : ustring :=
  trim (List.filter isLetterOrNumber (toLowerCase word)).

(** [text.slice(from, to)] for [from <= to]. *)
Definition slice (text : ustring) (from to : nat) : ustring :=
  take (to - from) (drop from text).

(** The offset of the first word character. *)
Fixpoint wordStart (s : ustring) : option nat :=
  match s with
  | [] => None
  | c :: s' => if isWordChar c then Some 0 else S <$> wordStart s'
  end.

(** The longest prefix of word characters. *)
Fixpoint wordRun (s : ustring) : ustring :=
  match s with
  | [] => []
  | c :: s' => if isWordChar c then c :: wordRun s' else []
  end.

(** [wordPattern.exec(text)] with [wordPattern.lastIndex = lastIndex]: the
    index and the text of the next match. *)
Definition exec (text : ustring) (lastIndex : nat) : option (nat * ustring) :=
  match wordStart (drop lastIndex text) with
  | Some k => Some (lastIndex + k, wordRun (drop (lastIndex + k) text))
  | None => None
  end.

Definition maxLookahead : nat := 10.

(** The [for] loop of the search, with [i] its variable and
    [remaining = Math.min(wordIndex + maxLookahead, words.length) - i].
    The loop stays below [words.length], so that [words[i]] is always
    there. *)
Fixpoint search (words : list AlignedWord) (normalizedWord : ustring)
    (remaining i : nat) : option (nat * AlignedWord) :=
  match remaining with
  | 0 => None
  | S remaining' =>
      match words !! i with
      | Some candidate =>
          if decide (normalizeWord (aw_word candidate) = normalizedWord)
          then Some (i, candidate)
          else search words normalizedWord remaining' (S i)
      | None => None
      end
  end.

Definition findMatch (words : list AlignedWord) (wordIndex : nat)
    (normalizedWord : ustring) : option (nat * AlignedWord) :=
  search words normalizedWord
         (Nat.min (wordIndex + maxLookahead) (length words) - wordIndex)
         wordIndex.

Definition wordSpan (classPrefix : string) (matchedIndex : nat)
    (matchedAligned : AlignedWord) (word : ustring) : Node :=
  Element "span"
    (Some {| className := Some (ClassArray [PString (classPrefix +:+ "-word")]);
             dataWordIndex := Some matchedIndex;
             dataStart := Some (toFixed3 (aw_start matchedAligned));
             dataEnd := Some (toFixed3 (aw_end matchedAligned)) |})
    [Text word].

(** The part of the loop body that handles the token [word]: the node pushed
    and the value of [wordIndex] afterwards. *)
Definition matchWord (words : list AlignedWord) (classPrefix : string)
    (wordIndex : nat) (word : ustring) : Node * nat :=
  match findMatch words wordIndex (normalizeWord word) with
  | Some (matchedIndex, matchedAligned) =>
      (wordSpan classPrefix matchedIndex matchedAligned word, matchedIndex + 1)
  | None => (Text word, wordIndex)
  end.

(** The state of the [while] loop. *)
Record LoopState : Type := {
  ls_nodes : list Node;
  ls_wordIndex : nat;
  ls_lastEnd : nat
}.

(** The state the loop starts from. *)
Definition loopStart (startIndex : nat) : LoopState :=
  {| ls_nodes := []; ls_wordIndex := startIndex; ls_lastEnd := 0 |}.

(** One iteration, for the match [word] found at [start]. *)
Definition loopBody (text : ustring) (words : list AlignedWord)
    (classPrefix : string) (st : LoopState) (start : nat) (word : ustring)
  : LoopState :=
  let before :=
    if bool_decide (ls_lastEnd st < start)
    then [Text (slice text (ls_lastEnd st) start)] else [] in
  let pushed := matchWord words classPrefix (ls_wordIndex st) word in
  {| ls_nodes := ls_nodes st ++ before ++ [pushed.1];
     ls_wordIndex := pushed.2;
     ls_lastEnd := start + length word |}.

(** Termination of the [while] loop: a match is not empty and ends within
    the text, so that [lastEnd] grows and stays at most [text.length]. *)

Lemma wordStart_Some s k :
  wordStart s = Some k → ∃ c, s !! k = Some c ∧ isWordChar c = true.
Proof.
  revert k. induction s as [|c s IH]; intros k; simpl; [done|].
  destruct (isWordChar c) eqn:Hc.
  - intros [= <-]. eauto.
  - destruct (wordStart s) as [k'|]; simpl; [|done].
    intros [= <-]. simpl. eauto.
Qed.

Lemma wordRun_prefix s : ∃ r, s = wordRun s ++ r.
Proof.
  induction s as [|c s [r IH]]; simpl; [by exists []|].
  destruct (isWordChar c).
  - exists r. simpl. by rewrite <- IH.
  - by eexists.
Qed.

Lemma wordRun_length s : length (wordRun s) ≤ length s.
Proof.
  destruct (wordRun_prefix s) as [r Hr]. rewrite Hr at 2.
  rewrite length_app. lia.
Qed.

(** A match lies at or after [lastIndex], is not empty and ends within the
    text. *)
Lemma exec_bounds text lastIndex start word :
  exec text lastIndex = Some (start, word) →
  lastIndex ≤ start ∧ 0 < length word ∧ start + length word ≤ length text
  ∧ word = wordRun (drop start text).
Proof.
  unfold exec. destruct (wordStart (drop lastIndex text)) as [k|] eqn:Hk; [|done].
  intros [= <- <-].
  destruct (wordStart_Some _ _ Hk) as (c & Hc & Hw).
  rewrite lookup_drop in Hc.
  assert (Hlt : lastIndex + k < length text) by (by eapply lookup_lt_Some).
  split; [lia|]. split; [|split; [|done]].
  - rewrite (drop_S _ c _ Hc). simpl. rewrite Hw. simpl. lia.
  - pose proof (wordRun_length (drop (lastIndex + k) text)) as Hl.
    rewrite length_drop in Hl. lia.
Qed.

(** The value of an expression together with the equation that says so, for
    the loop to keep what the pattern matched. *)
Definition inspect {A : Type} (x : A) : { y : A | x = y } := exist _ x eq_refl.

(** The [while] loop: as long as the pattern matches from [lastEnd] on, run
    the body.  After a match the pattern's [lastIndex] is the end of the
    match, which is the value [lastEnd] then has. *)
Equations? tokenLoop (text : ustring) (words : list AlignedWord)
    (classPrefix : string) (st : LoopState) : LoopState
    by wf (length text - ls_lastEnd st) lt :=
  tokenLoop text words classPrefix st with inspect (exec text (ls_lastEnd st)) := {
    | exist _ None _ => st
    | exist _ (Some (start, word)) Hexec =>
        tokenLoop text words classPrefix
                  (loopBody text words classPrefix st start word) }.
Proof.
  apply exec_bounds in Hexec. simpl. lia.
Qed.

(** The merge of adjacent text nodes: one step of the second loop. *)
Definition mergeStep (merged : list Node) (node : Node) : list Node :=
  match node, last merged with
  | Text value, Some (Text lastValue) =>
      removelast merged ++ [Text (lastValue ++ value)]
  | _, _ => merged ++ [node]
  end.

Definition mergeNodes (nodes : list Node) : list Node :=
  fold_left mergeStep nodes [].

Record Processed : Type := {
  nodes : list Node;
  nextWordIndex : nat
}.

Definition processTextNode (text : ustring) (words : list AlignedWord)
    (startIndex : nat) (classPrefix : string) : Processed :=
  let st := tokenLoop text words classPrefix
              {| ls_nodes := []; ls_wordIndex := startIndex; ls_lastEnd := 0 |} in
  let rest :=
    if bool_decide (ls_lastEnd st < length text)
    then [Text (drop (ls_lastEnd st) text)] else [] in
  {| nodes := mergeNodes (ls_nodes st ++ rest);
     nextWordIndex := ls_wordIndex st |}.

(** A node is the span of the entry [i] of the track for some token of the
    same normalization. *)
Definition isSpanAt (words : list AlignedWord) (classPrefix : string)
    (n : Node) (i : nat) : Prop :=
  ∃ entry token,
    n = wordSpan classPrefix i entry token
    ∧ words !! i = Some entry
    ∧ normalizeWord (aw_word entry) = normalizeWord token.

(** What the loop keeps about the spans it has pushed: each is the span of
    an entry at or after the start and before the cursor, and their indices
    grow. *)
Definition spansOrdered (words : list AlignedWord) (classPrefix : string)
    (startIndex cursor : nat) (spans : list Node) : Prop :=
  Forall (fun n => ∃ i, isSpanAt words classPrefix n i
                        ∧ startIndex ≤ i < cursor ∧ i < length words) spans
  ∧ StronglySorted lt (omap wordIndexOf spans).

(** *** The visitor of [rehypeAudioWords]

    The callback that the plugin hands to [visitParents], called on a text
    node of value [value] under [ancestors], when the shared [wordIndex] has
    the given value.  [parentChildren] is the [children] array of the last
    ancestor and [nodeIndex] what [parentChildren.indexOf(node)] gives
    ([None] for [-1]).  The result is the array after the call and the value
    of [wordIndex] after it; the array comes back as it was when the callback
    returns before the [splice]. *)
Definition visitor (words : list AlignedWord) (classPrefix : string)
    (wordIndex : nat) (ancestors : list Ancestor) (parentChildren : list Node)
    (nodeIndex : option nat) (value : ustring) : list Node * nat :=
  if isInNonTextualElement ancestors then (parentChildren, wordIndex)
  else
    let result := processTextNode value words wordIndex classPrefix in
    if bool_decide (length (nodes result) = 0)
       || bool_decide (length (nodes result) = 1)
    then (parentChildren, wordIndex)
    else
      match nodeIndex with
      | Some i =>
          (take i parentChildren ++ nodes result ++ drop (S i) parentChildren,
           nextWordIndex result)
      | None => (parentChildren, nextWordIndex result)
      end.

(** The matcher called on one text after the other, each call starting at
    the cursor the call before returned: the cursors returned, in order. *)
Fixpoint threadCursor (words : list AlignedWord) (classPrefix : string)
    (cursor : nat) (texts : list ustring) : list nat :=
  match texts with
  | [] => []
  | text :: rest =>
      let next := nextWordIndex (processTextNode text words cursor classPrefix) in
      next :: threadCursor words classPrefix next rest
  end.

(** The [text] fields of a node: the value of a text node, the values of the
    text children of an element. *)
Fixpoint nodeText (n : Node) : ustring :=
  match n with
  | Text value => value
  | Element _ _ children => concat (map nodeText children)
  end.

Definition textOf (ns : list Node) : ustring := concat (map nodeText ns).

End Matcher.

End Rehype.

(** ** The command line

    The parser of the arguments of the [vocasync] command, from the file of
    the command-line entry point. *)

Module Cli.

(** The value of an option: the argument that follows the flag, or [true]. *)
Inductive OptionValue : Type :=
| OptString (s : string)
| OptTrue.

(** What [parseArgs] returns; [options] holds the own properties of the
    object. *)
Record Parsed : Type := {
  command : string;
  options : gmap string OptionValue;
  positional : list string
}.

(** [arg.startsWith("--")]. *)
Definition isFlag (arg : string) : bool := String.prefix "--" arg.

(** [arg.slice(2)]. *)
Definition flagKey (arg : string) : string :=
  String.substring 2 (String.length arg - 2) arg.

(** [options[key] = value] on an object literal: the key [__proto__] names
    the prototype, and a string or a boolean assigned to it is dropped. *)
Definition setOption (key : string) (value : OptionValue)
    (options : gmap string OptionValue) : gmap string OptionValue :=
  if bool_decide (key = "__proto__") then options else <[key := value]> options.

(** The [for] loop over [args]; the case that takes the argument after a
    flag as its value is the one that skips it ([i++]). *)
Fixpoint parseLoop (args : list string) (st : Parsed) : Parsed :=
  match args with
  | [] => st
  | arg :: rest =>
      if isFlag arg then
        match rest with
        | nextArg :: rest' =>
            if negb (bool_decide (nextArg = "")) && negb (isFlag nextArg) then
              parseLoop rest'
                {| command := command st;
                   options := setOption (flagKey arg) (OptString nextArg) (options st);
                   positional := positional st |}
            else
              parseLoop rest
                {| command := command st;
                   options := setOption (flagKey arg) OptTrue (options st);
                   positional := positional st |}
        | [] =>
            parseLoop rest
              {| command := command st;
                 options := setOption (flagKey arg) OptTrue (options st);
                 positional := positional st |}
        end
      else if bool_decide (command st = "") then
        parseLoop rest
          {| command := arg; options := options st; positional := positional st |}
      else
        parseLoop rest
          {| command := command st; options := options st;
             positional := positional st ++ [arg] |}
  end.

Definition parseArgs (args : list string) : Parsed :=
  parseLoop args {| command := ""; options := ∅; positional := [] |}.

(** An option as it is written on the command line. *)
Definition writeOption (option : string * OptionValue) : list string :=
  match option.2 with
  | OptString value => ["--" +:+ option.1; value]
  | OptTrue => ["--" +:+ option.1]
  end.

(** The options as [parseArgs] stores them, the later ones over the earlier
    ones of the same name. *)
Definition storeOptions (written : list (string * OptionValue))
  : gmap string OptionValue :=
  fold_left (fun options option => setOption option.1 option.2 options) written ∅.

(** The value that the last option of the given name was written with. *)
Definition lastWritten (key : string) (written : list (string * OptionValue))
  : option OptionValue :=
  snd <$> last (List.filter (fun option => bool_decide (option.1 = key)) written).

(** A value that can follow a flag: not empty, and not itself a flag. *)
Definition isValue (value : OptionValue) : bool :=
  match value with
  | OptString s => negb (bool_decide (s = "")) && negb (isFlag s)
  | OptTrue => true
  end.

End Cli.

(** ** An engine for ASCII text

    A concrete choice of the engine's tables, enough to run the matcher on
    ASCII documents: letters [A-Z] and [a-z], digits [0-9], lower-casing of
    [A-Z], blank, tab and line ends as white space, and [toFixed(3)].  A
    number is given by the rational that its decimal notation denotes;
    [JSON.parse] makes of it the nearest double, ties to the even
    significand, and [toFixed(3)] rounds that double to the nearest
    thousandth, ties away from zero (numbers in the range of the normal
    doubles and below [10^21], from where on [toFixed] writes an
    exponent). *)

Module AsciiEngine.

Fixpoint codes (s : string) : ustring :=
  match s with
  | EmptyString => []
  | String a s' => Ascii.N_of_ascii a :: codes s'
  end.

Definition isLetter (c : codepoint) : bool :=
  ((65 <=? c) && (c <=? 90) || (97 <=? c) && (c <=? 122))%N.

Definition isNumber (c : codepoint) : bool := ((48 <=? c) && (c <=? 57))%N.

Definition lowerChar (c : codepoint) : codepoint :=
  if ((65 <=? c) && (c <=? 90))%N then (c + 32)%N else c.

Definition toLowerCase (s : ustring) : ustring := map lowerChar s.

Definition isWhiteSpace (c : codepoint) : bool :=
  bool_decide (c ∈ [9; 10; 11; 12; 13; 32]%N).

Definition pad3 (s : string) : string :=
  match String.length s with
  | 0 => "000" +:+ s
  | 1 => "00" +:+ s
  | 2 => "0" +:+ s
  | _ => s
  end.

(** [n / d] rounded to the nearest integer, ties to the even one. *)
Definition roundHalfEven (n d : Z) : Z :=
  (let q := n / d in
   let r := n mod d in
   if 2 * r <? d then q
   else if d <? 2 * r then q + 1
   else if Z.even q then q else q + 1)%Z.

(** The fraction [a / (d * 2^e)]. *)
Definition scaled (a d e : Z) : Z * Z :=
  (if 0 <=? e then (a, d * 2 ^ e) else (a * 2 ^ (- e), d))%Z.

(** The double nearest to a rational, as a significand of 53 bits with its
    sign and an exponent of two. *)
Definition toDouble (q : Q) : Z * Z :=
  (let a := Z.abs (Qnum q) in
   let d := Z.pos (Qden q) in
   if a =? 0 then (0, 0)
   else
     let e0 := Z.log2 a - Z.log2 d - 52 in
     let f := (scaled a d e0).1 / (scaled a d e0).2 in
     let e := if f <? 2 ^ 52 then e0 - 1
              else if 2 ^ 53 <=? f then e0 + 1 else e0 in
     (Z.sgn (Qnum q) * roundHalfEven (scaled a d e).1 (scaled a d e).2, e))%Z.

Definition toFixed3 (q : Q) : string :=
  let double := toDouble q in
  let magnitude := scaled (Z.abs double.1) 1 (- double.2)%Z in
  let thousandths :=
    ((2 * 1000 * magnitude.1 + magnitude.2) / (2 * magnitude.2))%Z in
  (if (double.1 <? 0)%Z then "-" else "")
    +:+ pretty (thousandths / 1000)%Z +:+ "."
    +:+ pad3 (pretty (thousandths mod 1000)%Z).

Definition normalizeWord : ustring -> ustring :=
  Rehype.normalizeWord isLetter isNumber toLowerCase isWhiteSpace.

Definition findMatch :=
  Rehype.findMatch isLetter isNumber toLowerCase isWhiteSpace.

Definition matchWord :=
  Rehype.matchWord isLetter isNumber toLowerCase isWhiteSpace toFixed3.

Definition processTextNode :=
  Rehype.processTextNode isLetter isNumber toLowerCase isWhiteSpace toFixed3.

Definition visitor :=
  Rehype.visitor isLetter isNumber toLowerCase isWhiteSpace toFixed3.

Definition threadCursor :=
  Rehype.threadCursor isLetter isNumber toLowerCase isWhiteSpace toFixed3.

Definition wordSpan := Rehype.wordSpan toFixed3.

Definition aligned (w : string) (s e : Q) : AlignedWord :=
  {| aw_word := codes w; aw_start := s; aw_end := e |}.

(** The track of the specification's example. *)
Definition theCatSat : list AlignedWord :=
  [aligned "the" 0 (2 # 10); aligned "cat" (2 # 10) (5 # 10);
   aligned "sat" (5 # 10) (9 # 10)].

(** A track whose entry "cat" is at index 10. *)
Definition catAtTen : list AlignedWord :=
  map (fun w => aligned w 0 1)
      ["one"; "two"; "three"; "four"; "five"; "six"; "seven"; "eight";
       "nine"; "ten"; "cat"; "twelve"].

End AsciiEngine.

(** ** Scripted remote ends

    Pollers, items and alignment servers with a fixed behaviour, on which
    the functions above can be run. *)

Module Scripts.
Import Client.

(** A status whose synthesis job has the given state and error and whose
    alignment job, when there is one, has the given state and error. *)
Definition view (synth : JobStatus) (synthError : option string)
    (align : option (JobStatus * option string)) : ProjectStatus :=
  {| ps_uuid := "p-1"; ps_name := "astro-post"; ps_status := synth;
     synthesisJob := Some {| sj_status := synth; sj_audioUrl := None;
                             sj_duration := None; sj_error := synthError |};
     alignmentJob :=
       (λ a, {| aj_status := a.1; aj_alignmentUrl := None; aj_error := a.2 |})
         <$> align |}.

(** The synthesis is over at the first poll and no alignment job ever shows. *)
Definition neverLinked : Poller :=
  fun _ => Return (view completed None None).

(** The synthesis runs during the first six polls and is over at the
    seventh; no alignment job ever shows. *)
Definition lateCompletion : Poller :=
  fun attempt =>
    Return (if attempt <? 6 then view processing None None
            else view completed None None).

(** Both jobs run for ever. *)
Definition neverDone : Poller :=
  fun _ => Return (view processing None (Some (pending, None))).

(** Both jobs have failed at the third poll. *)
Definition bothFail : Poller :=
  fun attempt =>
    Return (if attempt <? 2 then view processing None None
            else view failed (Some "voice not found")
                      (Some (failed, Some "no audio to align"))).

(** The synthesis is over at the second poll and the alignment at the
    fourth. *)
Definition alignsLater : Poller :=
  fun attempt =>
    Return (if attempt <? 1 then view processing None None
            else if attempt <? 3 then view completed None (Some (processing, None))
            else view completed None (Some (completed, None))).

(** The connection drops at the third poll. *)
Definition dropsConnection : Poller :=
  fun attempt =>
    if attempt <? 2 then Return (view processing None None)
    else Throw (Error "fetch failed").

(** The synthesis completes and the alignment fails at the third poll. *)
Definition alignmentFails : Poller :=
  fun attempt =>
    Return (if attempt <? 2 then view processing None None
            else view completed None (Some (failed, Some "language not supported"))).

(** The synthesis has failed at the first poll and no alignment job ever
    shows. *)
Definition synthesisFailsUnlinked : Poller :=
  fun _ => Return (view failed (Some "voice not found") None).

(** A remote project whose synthesis is completed, with its file, and whose
    linked alignment completes at the third request. *)
Definition remoteProject (attempt : nat) : Completion ProjectResponse :=
  Return {| pr_projectUuid := "p-1"; pr_name := Some "astro-post";
            pr_projectType := artifact_synthesis; pr_status := completed;
            pr_audioFileDurationSeconds := Some (7 # 2); pr_error := None;
            pr_artifacts := [{| artifactType := artifact_synthesis;
                                synthesisFileKey := Some "audio/p-1.mp3" |}];
            pr_linkedAlignment :=
              Some {| la_projectUuid := "p-2";
                      la_status := if attempt <? 2 then processing else completed;
                      la_error := None |} |}.

End Scripts.

Module Items.
Import Core Orchestrator.

(** A post that is new to the audio map, accepted by the service under the
    identifier [p-1], whose alignment job never shows. *)
Definition post : ContentItem :=
  {| ci_slug := "hello-world"; ci_content := "Hello, world.";
     ci_filePath := "src/content/articles/hello-world.md" |}.

Definition config : VocaSyncConfig :=
  {| cfg_voice := "onyx"; cfg_quality := sd; cfg_language := "en" |}.

Definition emptyMap : AudioMap :=
  {| am_version := 2; am_updatedAt := "2025-01-01T00:00:00.000Z";
     am_entries := ∅ |}.

Definition neverLinkedWorld : World :=
  {| buildSpeechDocument := fun item =>
       Return {| sd_slug := ci_slug item; sd_text := "Hello, world.";
                 sd_hash := "9f86d081"; sd_source := ci_filePath item |};
     synthesize := fun _ => Return {| projectUuid := "p-1"; estimatedCost := 0 |};
     remoteStatus := fun _ => Scripts.neverLinked;
     getAlignment := fun _ => Throw (Error "not reached");
     clock := fun n => match n with
                       | 0 => "2025-01-02T00:00:01.000Z"
                       | 1 => "2025-01-02T00:00:02.000Z"
                       | 2 => "2025-01-02T00:00:03.000Z"
                       | _ => "2025-01-02T00:00:04.000Z"
                       end;
     now := "2025-01-02T00:00:05.000Z" |}.

(** The same post on a day when its alignment job completes at the fourth
    poll and its alignment is served. *)
Definition linkedWorld : World :=
  {| buildSpeechDocument := buildSpeechDocument neverLinkedWorld;
     synthesize := synthesize neverLinkedWorld;
     remoteStatus := fun _ attempt =>
       Return (if attempt <? 3
               then Scripts.view completed None (Some (processing, None))
               else {| ps_uuid := "p-1"; ps_name := "astro-hello-world";
                       ps_status := completed;
                       synthesisJob :=
                         Some {| sj_status := completed;
                                 sj_audioUrl := Some "/stream/p-1/synthesis";
                                 sj_duration := Some (7 # 2); sj_error := None |};
                       alignmentJob :=
                         Some {| aj_status := completed;
                                 aj_alignmentUrl := Some "/stream/p-1/alignment";
                                 aj_error := None |} |});
     getAlignment := fun _ =>
       Return {| ad_words := AsciiEngine.theCatSat; ad_duration := 7 # 2 |};
     clock := clock neverLinkedWorld;
     now := now neverLinkedWorld |}.

(** A second post, and the files of a collection with the two posts and no
    audio map yet. *)
Definition secondPost : ContentItem :=
  {| ci_slug := "second-post"; ci_content := "More.";
     ci_filePath := "src/content/articles/second-post.md" |}.

Definition articles : Files :=
  {| loadAudioMap := fun _ => Return emptyMap;
     loadContent := Return [post; secondPost];
     writeAudioMap := fun _ _ => Return () |}.

Definition syncConfig : SyncConfig :=
  {| audioMapPath := ".vocasync/audio-map.json"; collectionName := "articles" |}.

Definition allItems : SyncOptions :=
  {| only := None; force := false; dryRun := false |}.

(** The summary of the run over the two posts (an empty one if the run
    threw). *)
Definition summaryOf (run : SyncRun) : SyncSummary :=
  match run_completion run with
  | Return summary => summary
  | Throw _ => {| total := 0; unchanged := 0; synced := 0; errors := 0;
                  results := [] |}
  end.

Definition articlesSummary : SyncSummary :=
  summaryOf (sync linkedWorld articles config syncConfig allItems).

(** The audio map that the run over the two posts writes (the empty one if
    it wrote none). *)
Definition articlesMap : AudioMap :=
  default emptyMap
    (run_written (sync linkedWorld articles config syncConfig allItems)).

End Items.

Module Servers.
Import Rehype.

(** A remote end that cannot be reached. *)
Definition unreachable : Remote := fun _ _ => ExecThrows.

(** A remote end that answers every request with the track of the
    specification's example. *)
Definition answering : Remote :=
  fun _ _ => ExecOutput (Some (JsonWords AsciiEngine.theCatSat)).

(** Files among which only [.vocasync/audio-map.json] can be read; it
    holds an empty audio map. *)
Definition mapFile : Disk :=
  fun _ path =>
    if bool_decide (path = ".vocasync/audio-map.json")
    then ReadValue (Some Items.emptyMap) else ReadThrows.

(** The same files, with a file [null.json] that holds [null]. *)
Definition nullFile : Disk :=
  fun n path =>
    if bool_decide (path = "null.json") then ReadValue None else mapFile n path.

End Servers.

(** * Properties *)

(** ** The polling loop *)

Section PollingLoop.
Import Client.

Lemma pollCount_app tr1 tr2 : pollCount (tr1 ++ tr2) = pollCount tr1 + pollCount tr2.
Proof. unfold pollCount. by rewrite filter_app, length_app. Qed.

Lemma pollCount_sleepEvents poll interval observer j :
  pollCount (sleepEvents poll interval observer j) = 1.
Proof.
  unfold sleepEvents. destruct (poll j) as [status|e]; [destruct observer|]; done.
Qed.

Lemma pollCount_sleepTrace poll interval observer a k :
  pollCount (flat_map (sleepEvents poll interval observer) (seq a k)) = k.
Proof.
  revert a. induction k as [|k IH]; intros a; cbn [seq flat_map]; [done|].
  by rewrite pollCount_app, pollCount_sleepEvents, IH.
Qed.

Lemma sleeps_filter_sleepTrace poll interval observer a k :
  filter isSleep (flat_map (sleepEvents poll interval observer) (seq a k))
  = replicate k (EvSleep interval).
Proof.
  revert a. induction k as [|k IH]; intros a; cbn [seq flat_map]; [done|].
  rewrite filter_app, IH.
  change (replicate (S k) (EvSleep interval))
    with ([EvSleep interval] ++ replicate k (EvSleep interval)).
  f_equal.
  unfold sleepEvents. destruct (poll a) as [status|e]; [destruct observer|]; done.
Qed.

(** [k] attempts that end in the sleep take the loop from attempt [a] to
    attempt [a + k] and leave the trace of [k] polls and [k] sleeps. *)
Lemma pollLoop_sleeps poll interval observer k :
  ∀ remaining a tr,
    forallb (sleeps poll) (seq a k) = true →
    pollLoop poll interval observer (k + remaining) a tr
    = pollLoop poll interval observer remaining (a + k)
        (tr ++ flat_map (sleepEvents poll interval observer) (seq a k)).
Proof.
  induction k as [|k IH]; intros remaining a tr Hs.
  - simpl. by rewrite Nat.add_0_r, app_nil_r.
  - cbn [seq forallb] in Hs. apply andb_prop in Hs as [Ha Hs].
    cbn [seq flat_map Nat.add pollLoop].
    unfold sleeps in Ha. unfold sleepEvents at 1.
    destruct (poll a) as [status|e]; [|done].
    destruct (tick a status); try done.
    rewrite IH by done. f_equal; [lia|].
    rewrite <- !app_assoc. simpl. by rewrite <- app_assoc.
Qed.

(** The loop reaches attempt [k] when all attempts before it sleep. *)
Lemma pollUntilComplete_reaches poll options k :
  k ≤ maxAttemptsOf options →
  sleepsBefore poll k = true →
  pollUntilComplete poll options
  = pollLoop poll (intervalMsOf options) (onProgress options)
      (maxAttemptsOf options - k) k
      (flat_map (sleepEvents poll (intervalMsOf options) (onProgress options))
                (seq 0 k)).
Proof.
  intros Hk Hs. unfold pollUntilComplete.
  replace (maxAttemptsOf options) with (k + (maxAttemptsOf options - k)) at 1 by lia.
  by rewrite pollLoop_sleeps.
Qed.

(** What the loop does at an attempt it reaches and whose poll answers. *)
Lemma pollUntilComplete_at poll options k status :
  k < maxAttemptsOf options →
  sleepsBefore poll k = true →
  poll k = Return status →
  tick k status ≠ TickSleep →
  (pollUntilComplete poll options).1
  = match tick k status with
    | TickReturn s => Return s
    | TickThrow e => Throw e
    | TickSleep => Throw pollingTimeout
    end
  ∧ pollCount (pollUntilComplete poll options).2 = S k.
Proof.
  intros Hk Hs Hp Ht.
  rewrite (pollUntilComplete_reaches poll options k) by (done || lia).
  destruct (maxAttemptsOf options - k) as [|r] eqn:Hr; [lia|].
  cbn [pollLoop]. rewrite Hp.
  assert (Hc : pollCount
      (flat_map (sleepEvents poll (intervalMsOf options) (onProgress options))
                (seq 0 k)
       ++ EvPoll k :: (if onProgress options then [EvProgress status] else []))
      = S k).
  { rewrite pollCount_app, pollCount_sleepTrace.
    destruct (onProgress options); unfold pollCount; simpl; lia. }
  destruct (tick k status); simpl; done.
Qed.

Lemma endsWithoutAlignment_tick poll options k status :
  endsWithoutAlignment poll options k status → tick k status = TickReturn status.
Proof.
  intros (_ & _ & _ & Hw & Hk). unfold tick.
  unfold shouldWaitForAlignment in Hw. apply andb_prop in Hw as [Hs Ha].
  assert (alignComplete status = false) as ->.
  { unfold alignComplete, alignStatusIs.
    destruct (alignmentJob status); [done|done]. }
  rewrite andb_false_r.
  unfold shouldWaitForAlignment. rewrite Hs, Ha. simpl.
  by rewrite bool_decide_eq_true_2.
Qed.

Lemma endsWithoutAlignment_returns poll options k status :
  endsWithoutAlignment poll options k status →
  (pollUntilComplete poll options).1 = Return status
  ∧ alignmentJob status = None.
Proof.
  intros H. pose proof (endsWithoutAlignment_tick _ _ _ _ H) as Ht.
  destruct H as (Hk & Hs & Hp & Hw & H5).
  destruct (pollUntilComplete_at poll options k status) as [Hr _]; try done.
  { by rewrite Ht. }
  rewrite Ht in Hr. split; [done|].
  unfold shouldWaitForAlignment in Hw. apply andb_prop in Hw as [_ Ha].
  by destruct (alignmentJob status).
Qed.

End PollingLoop.

Section PollingClaims.
Import Client.

(** With a poller that answers "synthesis over, no alignment job" at every
    poll, the loop returns that status at attempt 6: seven polls, six of
    them after the one that first saw the synthesis over, whenever
    [maxAttempts] allows seven polls. *)
Lemma pollUntilComplete_never_linked poll options status :
  (∀ j, poll j = Return status) →
  shouldWaitForAlignment status = true →
  6 < maxAttemptsOf options →
  (pollUntilComplete poll options).1 = Return status
  ∧ pollCount (pollUntilComplete poll options).2 = 7
  ∧ additionalPolls poll (pollUntilComplete poll options).2 = Some 6.
Proof.
  intros Hp Hw Hmax.
  assert (Ha : alignComplete status = false).
  { unfold shouldWaitForAlignment in Hw. apply andb_prop in Hw as [_ Ha].
    unfold alignComplete, alignStatusIs. by destruct (alignmentJob status). }
  assert (Ht : ∀ j, tick j status
                    = if bool_decide (5 < j) then TickReturn status else TickSleep).
  { intros j. unfold tick. by rewrite Ha, andb_false_r, Hw. }
  assert (Hs : sleepsBefore poll 6 = true).
  { unfold sleepsBefore. apply forallb_forall. intros j Hj.
    apply in_seq in Hj. unfold sleeps. rewrite Hp, Ht.
    rewrite bool_decide_eq_false_2; [done|lia]. }
  destruct (pollUntilComplete_at poll options 6 status) as [Hr Hc]; try done.
  { by rewrite Ht. }
  rewrite Ht in Hr. simpl in Hr. split; [done|]. split; [done|].
  unfold additionalPolls. rewrite Hc.
  unfold firstSynthComplete. simpl. rewrite Hp.
  unfold shouldWaitForAlignment in Hw. apply andb_prop in Hw as [-> _]. done.
Qed.

(** C1 (the code at the failing input).  When the synthesis is still
    running during the first six polls and the seventh poll is the first to
    see it over, with no alignment job, [pollUntilComplete] returns at that
    seventh poll: no poll is made after the one that saw the synthesis
    over, where the claim asks for six.  The test [attempt > 5] counts the
    polls since the start of the loop, not since the end of the synthesis. *)
Theorem pollUntilComplete_late_completion :
  firstSynthComplete Scripts.lateCompletion 120 = Some 6
  ∧ (pollUntilComplete Scripts.lateCompletion noOptions).1
    = Return (Scripts.view completed None None)
  ∧ pollCount (pollUntilComplete Scripts.lateCompletion noOptions).2 = 7
  ∧ additionalPolls Scripts.lateCompletion
      (pollUntilComplete Scripts.lateCompletion noOptions).2 = Some 0.
Proof. vm_compute. done. Qed.

(** The same at any attempt after the fifth: the loop returns at the very
    poll that first sees the synthesis over without an alignment job. *)
Lemma pollUntilComplete_no_additional_poll poll options k status :
  endsWithoutAlignment poll options k status →
  (pollUntilComplete poll options).1 = Return status
  ∧ pollCount (pollUntilComplete poll options).2 = S k.
Proof.
  intros H. pose proof (endsWithoutAlignment_tick _ _ _ _ H) as Ht.
  destruct H as (Hk & Hs & Hp & Hw & H5).
  destruct (pollUntilComplete_at poll options k status) as [Hr Hc]; try done.
  { by rewrite Ht. }
  by rewrite Ht in Hr.
Qed.

(** C6.  When the loop reaches a poll whose status has both the synthesis
    job and the alignment job failed, it throws the error of the synthesis
    job: the message is "Synthesis failed: " followed by the error of the
    synthesis job ("Unknown error" when that is absent or empty), the
    status code is 500, and the error of the alignment job is not part
    of it. *)
Theorem pollUntilComplete_failure_precedence
    (poll : Poller) (options : PollOptions) (k : nat) (status : ProjectStatus)
    (sj : SynthesisJob) (aj : AlignmentJob) :
  k < maxAttemptsOf options →
  sleepsBefore poll k = true →
  poll k = Return status →
  synthesisJob status = Some sj → sj_status sj = failed →
  alignmentJob status = Some aj → aj_status aj = failed →
  (pollUntilComplete poll options).1
  = Throw (VocaSyncAPIError
             ("Synthesis failed: " +:+ orElse (sj_error sj) "Unknown error")
             500 None).
Proof.
  intros Hk Hs Hp Hsj Hsf Haj Haf.
  assert (Ht : tick k status
               = TickThrow (VocaSyncAPIError
                   ("Synthesis failed: " +:+ orElse (sj_error sj) "Unknown error")
                   500 None)).
  { unfold tick, synthComplete, alignComplete, synthStatusIs, alignStatusIs.
    rewrite Hsj, Haj, Hsf, Haf. done. }
  destruct (pollUntilComplete_at poll options k status) as [Hr _]; try done.
  { by rewrite Ht. }
  by rewrite Ht in Hr.
Qed.

Lemma pollUntilComplete_failure_precedence_witness :
  (pollUntilComplete Scripts.bothFail noOptions).1
  = Throw (VocaSyncAPIError "Synthesis failed: voice not found" 500 None).
Proof.
  apply (pollUntilComplete_failure_precedence Scripts.bothFail noOptions 2
           (Scripts.view failed (Some "voice not found")
                         (Some (failed, Some "no audio to align")))
           {| sj_status := failed; sj_audioUrl := None; sj_duration := None;
              sj_error := Some "voice not found" |}
           {| aj_status := failed; aj_alignmentUrl := None;
              aj_error := Some "no audio to align" |});
    first [ reflexivity | vm_compute; lia ].
Defined.

(** C8.  [maxAttempts] defaults to 120 and [intervalMs] to 5000, and when
    every one of the [maxAttempts] attempts ends in the sleep (no return and
    no throw at any of them) the loop throws the polling timeout, of status
    code 408, after exactly [maxAttempts] polls, each followed by a sleep
    of [intervalMs]. *)
Theorem pollUntilComplete_timeout (poll : Poller) (options : PollOptions) :
  sleepsBefore poll (default 120 (maxAttempts options)) = true →
  (pollUntilComplete poll options).1
  = Throw (VocaSyncAPIError "Polling timeout - job did not complete in time"
                            408 None)
  ∧ pollCount (pollUntilComplete poll options).2
    = default 120 (maxAttempts options)
  ∧ filter isSleep (pollUntilComplete poll options).2
    = replicate (default 120 (maxAttempts options))
                (EvSleep (default 5000 (intervalMs options))).
Proof.
  intros Hs.
  rewrite (pollUntilComplete_reaches poll options (maxAttemptsOf options))
    by done.
  rewrite Nat.sub_diag. simpl.
  rewrite pollCount_sleepTrace, sleeps_filter_sleepTrace. done.
Qed.

Lemma pollUntilComplete_timeout_witness :
  (pollUntilComplete Scripts.neverDone noOptions).1
  = Throw (VocaSyncAPIError "Polling timeout - job did not complete in time"
                            408 None)
  ∧ pollCount (pollUntilComplete Scripts.neverDone noOptions).2 = 120
  ∧ filter isSleep (pollUntilComplete Scripts.neverDone noOptions).2
    = replicate 120 (EvSleep 5000).
Proof.
  apply (pollUntilComplete_timeout Scripts.neverDone noOptions).
  vm_compute. reflexivity.
Defined.

End PollingClaims.

(** ** The per-item driver *)

Section ProcessItemClaims.
Import Core Orchestrator.

Lemma neverLinked_ends_without_alignment :
  Client.endsWithoutAlignment Scripts.neverLinked pollOptions 6
    (Scripts.view completed None None).
Proof. repeat split; vm_compute; lia. Qed.

Lemma post_reaches_polling :
  reachesPolling Items.neverLinkedWorld Items.post Items.config Items.emptyMap
                 false false "p-1".
Proof. do 2 eexists. repeat split. Qed.

(** C2, as the claim states it, fails on the code: for a new post whose
    status stays "synthesis completed, no alignment job", the polling loop
    returns without an alignment job at attempt 6 and [processItem] gives
    the post the status "error". *)
Lemma processItem_without_alignment_counterexample :
  ¬ (∀ world item config audioMap force dryRun uuid k status,
       reachesPolling world item config audioMap force dryRun uuid →
       Client.endsWithoutAlignment (remoteStatus world uuid) pollOptions k status →
       sr_status (processItem world item config audioMap force dryRun).1.1
       ≠ st_error).
Proof.
  intros H.
  apply (H Items.neverLinkedWorld Items.post Items.config Items.emptyMap
           false false "p-1" 6 (Scripts.view completed None None)).
  - exact post_reaches_polling.
  - exact neverLinked_ends_without_alignment.
  - reflexivity.
Qed.

(** C2, amended.  When the polling of an item ends by the return taken for
    a synthesis that is over without an alignment job, [processItem] gives
    the item the status "error" with the message "No alignment URL
    returned", and leaves the audio map as it was. *)
Theorem processItem_without_alignment_is_error
    (world : World) (item : ContentItem) (config : VocaSyncConfig)
    (audioMap : AudioMap) (force dryRun : bool) (uuid : string) (k : nat)
    (status : ProjectStatus) :
  reachesPolling world item config audioMap force dryRun uuid →
  Client.endsWithoutAlignment (remoteStatus world uuid) pollOptions k status →
  sr_status (processItem world item config audioMap force dryRun).1.1 = st_error
  ∧ sr_error (processItem world item config audioMap force dryRun).1.1
    = Some "No alignment URL returned"
  ∧ (processItem world item config audioMap force dryRun).1.2 = audioMap.
Proof.
  intros (speechDoc & response & Hb & Hskip & -> & Hsyn & <-) Hends.
  destruct (endsWithoutAlignment_returns _ _ _ _ Hends) as [Hr Ha].
  unfold processItem, processItemTry.
  rewrite Hb, Hskip, Hsyn. cbn zeta. rewrite Hr. cbn [fst].
  rewrite Ha. done.
Qed.

Lemma processItem_without_alignment_is_error_witness :
  sr_status (processItem Items.neverLinkedWorld Items.post Items.config
               Items.emptyMap false false).1.1 = st_error
  ∧ sr_error (processItem Items.neverLinkedWorld Items.post Items.config
                Items.emptyMap false false).1.1
    = Some "No alignment URL returned"
  ∧ (processItem Items.neverLinkedWorld Items.post Items.config
       Items.emptyMap false false).1.2 = Items.emptyMap.
Proof.
  apply (processItem_without_alignment_is_error Items.neverLinkedWorld
           Items.post Items.config Items.emptyMap false false "p-1" 6
           (Scripts.view completed None None)).
  - do 2 eexists. repeat split.
  - repeat split; vm_compute; lia.
Defined.

End ProcessItemClaims.

(** ** The alignment cache *)

Section CacheClaims.
Import Rehype Servers.

(** A request for a slug that is in the cache returns the stored words and
    changes nothing: no fetch. *)
Lemma fetchAlignmentSync_hit remote url slug st words :
  alignmentCache st !! slug = Some words →
  fetchAlignmentSync remote url slug st = (Some words, st).
Proof. intros H. unfold fetchAlignmentSync. by rewrite H. Qed.

(** An entry of the cache is never removed nor replaced. *)
Lemma fetchAlignmentSync_keeps remote url slug' st slug words :
  alignmentCache st !! slug = Some words →
  alignmentCache (fetchAlignmentSync remote url slug' st).2 !! slug = Some words.
Proof.
  intros H. unfold fetchAlignmentSync.
  destruct (alignmentCache st !! slug') as [ws|] eqn:Hs'; [done|].
  destruct (remote _ _) as [|[[ws|]|]]; simpl; try done.
  rewrite lookup_insert_ne; [done|]. intros ->. congruence.
Qed.

Lemma runRequests_keeps remote requests st slug words :
  alignmentCache st !! slug = Some words →
  alignmentCache (runRequests remote requests st) !! slug = Some words.
Proof.
  revert st. induction requests as [|[url slug'] requests IH]; intros st H; [done|].
  simpl. apply IH. by apply fetchAlignmentSync_keeps.
Qed.

(** C7, as the claim states it, fails on the code: a failed fetch is not
    stored, so that the next request for the same slug runs [curl] again. *)
Lemma fetchAlignmentSync_failure_counterexample :
  ¬ (∀ remote url slug st,
       alignmentCache st !! slug = None →
       ∀ url',
         fetched (fetchAlignmentSync remote url' slug
                    (fetchAlignmentSync remote url slug st).2).2
         = fetched (fetchAlignmentSync remote url slug st).2).
Proof.
  intros H.
  specialize (H unreachable "https://vocasync.io/api/v1/stream/p-1/alignment"
                "hello-world" emptyCache (lookup_empty _)
                "https://vocasync.io/api/v1/stream/p-1/alignment").
  vm_compute in H. discriminate H.
Qed.

(** C7, amended.  The first request for a slug runs the fetch.  When the
    fetch answers with an array of words, the array is stored and every
    later request for that slug, whatever requests come in between, returns
    it without another fetch.  When the fetch fails (or answers without an
    array of words) the request returns nothing, nothing is stored, and the
    next request for that slug runs the fetch again. *)
Theorem fetchAlignmentSync_memoizes_words
    (remote : Remote) (url slug : string) (st : CacheState) :
  alignmentCache st !! slug = None →
  fetched (fetchAlignmentSync remote url slug st).2 = fetched st ++ [url]
  ∧ match remote (length (fetched st)) url with
    | ExecOutput (Some (JsonWords words)) =>
        (fetchAlignmentSync remote url slug st).1 = Some words
        ∧ ∀ requests url',
            fetchAlignmentSync remote url' slug
              (runRequests remote requests (fetchAlignmentSync remote url slug st).2)
            = (Some words,
               runRequests remote requests (fetchAlignmentSync remote url slug st).2)
    | _ =>
        (fetchAlignmentSync remote url slug st).1 = None
        ∧ alignmentCache (fetchAlignmentSync remote url slug st).2
          = alignmentCache st
        ∧ ∀ url',
            fetched (fetchAlignmentSync remote url' slug
                       (fetchAlignmentSync remote url slug st).2).2
            = fetched st ++ [url; url']
    end.
Proof.
  intros Hmiss.
  assert (Hfirst : fetchAlignmentSync remote url slug st
    = match remote (length (fetched st)) url with
      | ExecOutput (Some (JsonWords words)) =>
          (Some words, {| alignmentCache := <[slug := words]> (alignmentCache st);
                          fetched := fetched st ++ [url] |})
      | _ => (None, {| alignmentCache := alignmentCache st;
                       fetched := fetched st ++ [url] |})
      end).
  { unfold fetchAlignmentSync. by rewrite Hmiss. }
  assert (Hagain : ∀ url',
    fetched (fetchAlignmentSync remote url' slug
               {| alignmentCache := alignmentCache st;
                  fetched := fetched st ++ [url] |}).2
    = fetched st ++ [url; url']).
  { intros url'. unfold fetchAlignmentSync. simpl. rewrite Hmiss.
    destruct (remote _ url') as [|[[ws|]|]]; simpl; by rewrite <- app_assoc. }
  rewrite Hfirst.
  destruct (remote (length (fetched st)) url) as [|[[words|]|]]; simpl;
    try done.
  split; [done|]. split; [done|]. intros requests url'.
  apply fetchAlignmentSync_hit, runRequests_keeps. simpl.
  by rewrite lookup_insert_eq.
Qed.

Lemma fetchAlignmentSync_memoizes_words_witness :
  (fetched (fetchAlignmentSync answering "u" "hello-world" emptyCache).2
   = fetched emptyCache ++ ["u"]
   ∧ (fetchAlignmentSync answering "u" "hello-world" emptyCache).1
     = Some AsciiEngine.theCatSat
   ∧ ∀ requests url',
       fetchAlignmentSync answering url' "hello-world"
         (runRequests answering requests
            (fetchAlignmentSync answering "u" "hello-world" emptyCache).2)
       = (Some AsciiEngine.theCatSat,
          runRequests answering requests
            (fetchAlignmentSync answering "u" "hello-world" emptyCache).2))
  ∧ (fetched (fetchAlignmentSync unreachable "u" "hello-world" emptyCache).2
     = fetched emptyCache ++ ["u"]
     ∧ (fetchAlignmentSync unreachable "u" "hello-world" emptyCache).1 = None
     ∧ alignmentCache
         (fetchAlignmentSync unreachable "u" "hello-world" emptyCache).2
       = alignmentCache emptyCache
     ∧ ∀ url',
         fetched (fetchAlignmentSync unreachable url' "hello-world"
                    (fetchAlignmentSync unreachable "u" "hello-world"
                       emptyCache).2).2
         = fetched emptyCache ++ ["u"; url']).
Proof.
  split.
  - apply (fetchAlignmentSync_memoizes_words answering "u" "hello-world"
             emptyCache).
    reflexivity.
  - apply (fetchAlignmentSync_memoizes_words unreachable "u" "hello-world"
             emptyCache).
    reflexivity.
Defined.

End CacheClaims.

(** ** The matcher *)

Section MatcherClaims.
Import Rehype.

Variable isLetter : codepoint -> bool.
Variable isNumber : codepoint -> bool.
Variable toLowerCase : ustring -> ustring.
Variable isWhiteSpace : codepoint -> bool.
Variable toFixed3 : Q -> string.

Local Abbreviation exec := (Rehype.exec isLetter isNumber).
Local Abbreviation isWordChar := (Rehype.isWordChar isLetter isNumber).
Local Abbreviation normalizeWord :=
  (Rehype.normalizeWord isLetter isNumber toLowerCase isWhiteSpace).
Local Abbreviation findMatch :=
  (Rehype.findMatch isLetter isNumber toLowerCase isWhiteSpace).
Local Abbreviation search :=
  (Rehype.search isLetter isNumber toLowerCase isWhiteSpace).
Local Abbreviation matchWord :=
  (Rehype.matchWord isLetter isNumber toLowerCase isWhiteSpace toFixed3).
Local Abbreviation loopBody :=
  (Rehype.loopBody isLetter isNumber toLowerCase isWhiteSpace toFixed3).
Local Abbreviation tokenLoop :=
  (Rehype.tokenLoop isLetter isNumber toLowerCase isWhiteSpace toFixed3).
Local Abbreviation processTextNode :=
  (Rehype.processTextNode isLetter isNumber toLowerCase isWhiteSpace toFixed3).
Local Abbreviation visitor :=
  (Rehype.visitor isLetter isNumber toLowerCase isWhiteSpace toFixed3).
Local Abbreviation threadCursor :=
  (Rehype.threadCursor isLetter isNumber toLowerCase isWhiteSpace toFixed3).

(** The loop, one test of its condition at a time. *)
Lemma tokenLoop_unfold text words classPrefix st :
  tokenLoop text words classPrefix st
  = match exec text (ls_lastEnd st) with
    | None => st
    | Some (start, word) =>
        tokenLoop text words classPrefix
                  (loopBody text words classPrefix st start word)
    end.
Proof.
  funelim (tokenLoop text words classPrefix st);
    match goal with E : exec _ _ = _ |- _ => by rewrite E end.
Qed.

(** A property of the loop state that every iteration keeps holds when the
    loop ends, and the pattern no longer matches then. *)
Lemma tokenLoop_invariant text words classPrefix (I : LoopState → Prop) :
  (∀ st start word,
     I st → exec text (ls_lastEnd st) = Some (start, word) →
     I (loopBody text words classPrefix st start word)) →
  ∀ st, I st →
    I (tokenLoop text words classPrefix st)
    ∧ exec text (ls_lastEnd (tokenLoop text words classPrefix st)) = None.
Proof.
  intros Hstep st.
  funelim (tokenLoop text words classPrefix st); intros HI.
  - match goal with IH : ∀ I : LoopState → Prop, _ |- _ => apply IH end; eauto.
  - done.
Qed.

(** *** Reconstruction *)

Lemma textOf_app ns1 ns2 : textOf (ns1 ++ ns2) = textOf ns1 ++ textOf ns2.
Proof. unfold textOf. by rewrite map_app, concat_app. Qed.

Lemma textOf_singleton n : textOf [n] = nodeText n.
Proof. unfold textOf. simpl. by rewrite app_nil_r. Qed.

(** The node pushed for a token carries the token, matched or not. *)
Lemma matchWord_text words classPrefix wordIndex word :
  nodeText (matchWord words classPrefix wordIndex word).1 = word.
Proof.
  unfold Rehype.matchWord. destruct (findMatch _ _ _) as [[i c]|]; simpl; [|done].
  by rewrite app_nil_r.
Qed.

Lemma wordRun_take (s : ustring) :
  Rehype.wordRun isLetter isNumber s
  = take (length (Rehype.wordRun isLetter isNumber s)) s.
Proof.
  destruct (wordRun_prefix isLetter isNumber s) as [r Hr].
  rewrite Hr at 3. by rewrite take_app_length.
Qed.

(** The text pushed by one iteration is the text between the end of the
    previous match and the end of this one. *)
Lemma loopBody_text text words classPrefix st start word :
  exec text (ls_lastEnd st) = Some (start, word) →
  textOf (ls_nodes st) = take (ls_lastEnd st) text →
  textOf (ls_nodes (loopBody text words classPrefix st start word))
  = take (ls_lastEnd (loopBody text words classPrefix st start word)) text.
Proof.
  intros Hexec Hst. apply exec_bounds in Hexec as (Hle & Hpos & Hend & Hword).
  unfold Rehype.loopBody. cbn [ls_nodes ls_lastEnd].
  rewrite !textOf_app, textOf_singleton, matchWord_text, Hst.
  assert (Hbefore : textOf (if bool_decide (ls_lastEnd st < start)
                            then [Text (slice text (ls_lastEnd st) start)] else [])
                    = take (start - ls_lastEnd st) (drop (ls_lastEnd st) text)).
  { case_bool_decide.
    - by rewrite textOf_singleton.
    - replace (start - ls_lastEnd st) with 0 by lia. done. }
  rewrite Hbefore, app_assoc, take_take_drop.
  replace (ls_lastEnd st + (start - ls_lastEnd st)) with start by lia.
  rewrite Hword at 1. rewrite wordRun_take, <- Hword.
  by rewrite take_take_drop.
Qed.

Lemma mergeStep_text merged node :
  textOf (mergeStep merged node) = textOf merged ++ nodeText node.
Proof.
  unfold mergeStep.
  destruct node as [value|tag props children].
  - destruct (last merged) as [[lastValue|tag props children]|] eqn:Hlast.
    + apply last_Some in Hlast as [front ->].
      rewrite removelast_last, !textOf_app, !textOf_singleton. simpl.
      by rewrite app_assoc.
    + by rewrite textOf_app, textOf_singleton.
    + by rewrite textOf_app, textOf_singleton.
  - by rewrite textOf_app, textOf_singleton.
Qed.

Lemma mergeNodes_text ns : textOf (mergeNodes ns) = textOf ns.
Proof.
  unfold mergeNodes.
  enough (H : ∀ acc, textOf (fold_left mergeStep ns acc) = textOf acc ++ textOf ns)
    by apply (H []).
  induction ns as [|n ns IH]; intros acc; simpl.
  - by rewrite app_nil_r.
  - rewrite IH, mergeStep_text.
    change (n :: ns) with ([n] ++ ns).
    by rewrite textOf_app, textOf_singleton, app_assoc.
Qed.

(** C3.  For every text, track, starting cursor and class prefix, the text
    fields of the nodes that [processTextNode] returns (the values of the
    text nodes and of the text children of the word spans), put one after
    the other in order, are the input text. *)
Theorem processTextNode_reconstructs
    (text : ustring) (words : list AlignedWord) (startIndex : nat)
    (classPrefix : string) :
  textOf (nodes (processTextNode text words startIndex classPrefix)) = text.
Proof.
  unfold Rehype.processTextNode. cbn [nodes].
  rewrite mergeNodes_text, textOf_app.
  set (st0 := {| ls_nodes := []; ls_wordIndex := startIndex; ls_lastEnd := 0 |}).
  destruct (tokenLoop_invariant text words classPrefix
              (fun st => textOf (ls_nodes st) = take (ls_lastEnd st) text
                         ∧ ls_lastEnd st ≤ length text))
    with (st := st0) as [[Htext Hle] _].
  - intros st start word [Hst Hle] Hexec. split.
    + by apply loopBody_text.
    + apply exec_bounds in Hexec. simpl. lia.
  - split; [done|simpl; lia].
  - rewrite Htext. case_bool_decide.
    + rewrite textOf_singleton. cbn [nodeText]. by rewrite take_drop.
    + rewrite take_ge by lia. by rewrite app_nil_r.
Qed.

(** *** The search window *)

(** A match found by the search loop is the first one from [i] on, and lies
    among the [remaining] entries the loop may visit. *)
Lemma search_Some words nw remaining :
  ∀ i j c,
    search words nw remaining i = Some (j, c) →
    i ≤ j < i + remaining ∧ words !! j = Some c
    ∧ normalizeWord (aw_word c) = nw
    ∧ ∀ j' c', i ≤ j' < j → words !! j' = Some c' →
               normalizeWord (aw_word c') ≠ nw.
Proof.
  induction remaining as [|r IH]; intros i j c; simpl; [done|].
  destruct (words !! i) as [candidate|] eqn:Hi; [|done].
  destruct (decide (normalizeWord (aw_word candidate) = nw)) as [Heq|Hne].
  - intros [= <- <-]. repeat split; try done; try lia; intros; lia.
  - intros H. apply IH in H as (Hj & Hc & Hn & Hfirst).
    repeat split; try done; try lia.
    intros j' c' Hj' Hc'. destruct (decide (j' = i)) as [->|].
    + congruence.
    + eapply Hfirst; [|done]. lia.
Qed.

(** A search that finds nothing has seen every entry it may visit. *)
Lemma search_None words nw remaining :
  ∀ i, i + remaining ≤ length words →
    search words nw remaining i = None →
    ∀ j c, i ≤ j < i + remaining → words !! j = Some c →
           normalizeWord (aw_word c) ≠ nw.
Proof.
  induction remaining as [|r IH]; intros i Hlen; simpl; [intros; lia|].
  destruct (words !! i) as [candidate|] eqn:Hi.
  - destruct (decide (normalizeWord (aw_word candidate) = nw)) as [Heq|Hne]; [done|].
    intros H j c Hj Hc. destruct (decide (j = i)) as [->|].
    + congruence.
    + eapply (IH (S i)); [lia|done| |done]. lia.
  - apply lookup_ge_None in Hi. lia.
Qed.

Lemma findMatch_Some words cursor nw j c :
  findMatch words cursor nw = Some (j, c) →
  cursor ≤ j < cursor + 10 ∧ j < length words ∧ words !! j = Some c
  ∧ normalizeWord (aw_word c) = nw
  ∧ ∀ j' c', cursor ≤ j' < j → words !! j' = Some c' →
             normalizeWord (aw_word c') ≠ nw.
Proof.
  intros H. apply search_Some in H as (Hj & Hc & Hn & Hfirst).
  unfold maxLookahead in Hj.
  repeat split; try done; try lia; by eapply lookup_lt_Some.
Qed.

Lemma findMatch_None words cursor nw :
  findMatch words cursor nw = None →
  ∀ j c, cursor ≤ j < cursor + 10 → words !! j = Some c →
         normalizeWord (aw_word c) ≠ nw.
Proof.
  intros H j c Hj Hc. pose proof (lookup_lt_Some _ _ _ Hc) as Hlt.
  eapply (search_None words nw _ cursor); [| exact H | | exact Hc];
    unfold maxLookahead; lia.
Qed.

(** The first matching entry of the window is the one found. *)
Lemma findMatch_first words cursor nw i c :
  cursor ≤ i < cursor + 10 → words !! i = Some c →
  normalizeWord (aw_word c) = nw →
  (∀ j c', cursor ≤ j < i → words !! j = Some c' →
           normalizeWord (aw_word c') ≠ nw) →
  findMatch words cursor nw = Some (i, c).
Proof.
  intros Hi Hc Hn Hfirst.
  destruct (findMatch words cursor nw) as [[j c']|] eqn:Hfind.
  - apply findMatch_Some in Hfind as (Hj & _ & Hc' & Hn' & Hfirst').
    destruct (lt_eq_lt_dec i j) as [[Hlt| ->]|Hgt].
    + exfalso. eapply Hfirst'; [|exact Hc|exact Hn]. lia.
    + congruence.
    + exfalso. eapply Hfirst; [|exact Hc'|exact Hn']. lia.
  - exfalso. eapply findMatch_None; [exact Hfind| |exact Hc|exact Hn]. lia.
Qed.

(** With white space that is neither a letter nor a number, as in Unicode,
    [trim] has nothing to remove after the filter. *)
Lemma trimStart_id s :
  Forall (fun c => isWhiteSpace c = false) s →
  Rehype.trimStart isWhiteSpace s = s.
Proof. intros H. destruct H as [|c s Hc _]; simpl; [done|]. by rewrite Hc. Qed.

Lemma normalizeWord_strips :
  (∀ c, isWhiteSpace c = true → isLetterOrNumber isLetter isNumber c = false) →
  ∀ word, normalizeWord word
          = List.filter (isLetterOrNumber isLetter isNumber) (toLowerCase word).
Proof.
  intros Hws word. unfold Rehype.normalizeWord, trim.
  set (kept := List.filter _ _).
  assert (Hkept : Forall (fun c => isWhiteSpace c = false) kept).
  { apply Forall_forall. intros c Hc. apply list_elem_of_In in Hc.
    apply filter_In in Hc as [_ Hc].
    destruct (isWhiteSpace c) eqn:Hw; [|done]. apply Hws in Hw. congruence. }
  rewrite (trimStart_id kept) by done.
  rewrite trimStart_id; [by rewrite rev_involutive|].
  apply Forall_forall. intros c Hc. rewrite Forall_forall in Hkept.
  apply Hkept. apply list_elem_of_In. apply in_rev. by apply list_elem_of_In.
Qed.

(** *** The cursor *)

(** One token moves the cursor forward or not at all, and a cursor that
    moves stays within the track. *)
Lemma matchWord_cursor words classPrefix wordIndex token :
  wordIndex ≤ (matchWord words classPrefix wordIndex token).2
  ∧ ((matchWord words classPrefix wordIndex token).2 = wordIndex
     ∨ (matchWord words classPrefix wordIndex token).2 ≤ length words).
Proof.
  unfold Rehype.matchWord.
  destruct (findMatch _ _ _) as [[j c]|] eqn:Hfind; simpl.
  - apply findMatch_Some in Hfind as (Hj & Hlen & _). lia.
  - split; [lia|by left].
Qed.

Lemma processTextNode_cursor text words startIndex classPrefix :
  startIndex ≤ nextWordIndex (processTextNode text words startIndex classPrefix)
  ∧ (nextWordIndex (processTextNode text words startIndex classPrefix) = startIndex
     ∨ nextWordIndex (processTextNode text words startIndex classPrefix)
       ≤ length words).
Proof.
  unfold Rehype.processTextNode. cbn [nextWordIndex].
  set (st0 := {| ls_nodes := []; ls_wordIndex := startIndex; ls_lastEnd := 0 |}).
  destruct (tokenLoop_invariant text words classPrefix
              (fun st => startIndex ≤ ls_wordIndex st
                         ∧ (ls_wordIndex st = startIndex
                            ∨ ls_wordIndex st ≤ length words)))
    with (st := st0) as [H _]; [|simpl; lia|done].
  intros st start word [Hle Hor] _. unfold Rehype.loopBody. cbn [ls_wordIndex].
  pose proof (matchWord_cursor words classPrefix (ls_wordIndex st) word). lia.
Qed.


(** *** The visitor *)

Lemma wordRun_all (s : ustring) :
  forallb isWordChar s = true → Rehype.wordRun isLetter isNumber s = s.
Proof.
  induction s as [|c s IH]; simpl; [done|].
  intros H. apply andb_prop in H as [-> H]. by rewrite IH.
Qed.

Lemma exec_single_token (value : ustring) :
  value ≠ [] → forallb isWordChar value = true →
  exec value 0 = Some (0, value).
Proof.
  intros Hne Hall. destruct value as [|c value]; [done|].
  simpl in Hall. apply andb_prop in Hall as [Hc Hall].
  unfold Rehype.exec. simpl. rewrite Hc. simpl. rewrite Hc.
  by rewrite (wordRun_all value Hall).
Qed.

Lemma exec_at_end (text : ustring) : exec text (length text) = None.
Proof. unfold Rehype.exec. by rewrite drop_all. Qed.

(** A text that is one token gives one node, the node of that token. *)
Lemma processTextNode_single_token value words wordIndex classPrefix :
  value ≠ [] → forallb isWordChar value = true →
  processTextNode value words wordIndex classPrefix
  = {| nodes := [(matchWord words classPrefix wordIndex value).1];
       nextWordIndex := (matchWord words classPrefix wordIndex value).2 |}.
Proof.
  intros Hne Hall. unfold Rehype.processTextNode.
  set (st0 := {| ls_nodes := []; ls_wordIndex := wordIndex; ls_lastEnd := 0 |}).
  assert (Hloop : tokenLoop value words classPrefix st0
                  = loopBody value words classPrefix st0 0 value).
  { rewrite tokenLoop_unfold.
    change (ls_lastEnd st0) with 0. rewrite exec_single_token by done.
    rewrite tokenLoop_unfold.
    change (ls_lastEnd (loopBody value words classPrefix st0 0 value))
      with (length value).
    by rewrite exec_at_end. }
  rewrite Hloop. unfold Rehype.loopBody.
  cbn [ls_nodes ls_wordIndex ls_lastEnd st0 Nat.add].
  rewrite (bool_decide_eq_false_2 (0 < 0)) by lia.
  rewrite (bool_decide_eq_false_2 (length value < length value)) by lia.
  f_equal. simpl. unfold mergeNodes. simpl. unfold mergeStep. simpl.
  by destruct (matchWord words classPrefix wordIndex value).1.
Qed.

(** C9.  When the processing of a text node yields at most one node, which
    is the case of a text that is one token with nothing before or after
    it, the visitor leaves the children of the parent as they are and does
    not move the shared word index, whether or not the token matched. *)
Theorem visitor_keeps_single_node
    (words : list AlignedWord) (classPrefix : string) (wordIndex : nat)
    (ancestors : list Ancestor) (parentChildren : list Node)
    (nodeIndex : option nat) (value : ustring) :
  length (nodes (processTextNode value words wordIndex classPrefix)) ≤ 1
  ∨ (value ≠ [] ∧ forallb isWordChar value = true) →
  visitor words classPrefix wordIndex ancestors parentChildren nodeIndex value
  = (parentChildren, wordIndex).
Proof.
  intros H. unfold Rehype.visitor.
  destruct (isInNonTextualElement ancestors); [done|].
  assert (Hlen : length (nodes (processTextNode value words wordIndex classPrefix)) ≤ 1).
  { destruct H as [H|[Hne Hall]]; [done|].
    by rewrite processTextNode_single_token. }
  destruct (length (nodes (processTextNode value words wordIndex classPrefix)))
    as [|[|n]]; [done|done|lia].
Qed.

(** C10.  A text node that has an ancestor whose tag is one of [code],
    [pre], [script], [style], [svg], [math], or whose class list holds one
    of [katex], [katex-mathml], [katex-html], [mjx-container], is left as
    it is by the visitor, which does not move the shared word index. *)
Theorem visitor_skips_non_textual
    (words : list AlignedWord) (classPrefix : string) (wordIndex : nat)
    (ancestors : list Ancestor) (parentChildren : list Node)
    (nodeIndex : option nat) (value : ustring)
    (tagName : string) (properties : option Properties) :
  AElement tagName properties ∈ ancestors →
  tagName ∈ ["code"; "pre"; "script"; "style"; "svg"; "math"]
  ∨ (∃ cls, cls ∈ ["katex"; "katex-mathml"; "katex-html"; "mjx-container"]
            ∧ PString cls ∈ classList properties) →
  visitor words classPrefix wordIndex ancestors parentChildren nodeIndex value
  = (parentChildren, wordIndex).
Proof.
  intros Hin Hwhy. unfold Rehype.visitor.
  enough (isInNonTextualElement ancestors = true) as -> by done.
  assert (Hone : isNonTextual (AElement tagName properties) = true).
  { unfold isNonTextual. apply orb_true_iff.
    destruct Hwhy as [Htag|(cls & Hcls & Hlist)].
    - left.
      repeat (apply elem_of_cons in Htag as [->|Htag]); try by vm_compute.
      by apply not_elem_of_nil in Htag.
    - right. unfold classList in Hlist.
      assert (Hset : truthy (PString cls) && isNonTextualClass (PString cls) = true).
      { repeat (apply elem_of_cons in Hcls as [->|Hcls]); try by vm_compute.
        by apply not_elem_of_nil in Hcls. }
      apply andb_prop in Hset as [Htruthy Hset].
      destruct (properties ≫= className) as [[v|classes]|].
      + apply list_elem_of_singleton in Hlist as <-.
        rewrite Htruthy. cbn [existsb andb]. by rewrite Hset.
      + apply existsb_exists. exists (PString cls).
        split; [by apply list_elem_of_In|done].
      + by apply not_elem_of_nil in Hlist. }
  clear Hwhy. induction ancestors as [|a rest IH]; [by apply not_elem_of_nil in Hin|].
  simpl. apply elem_of_cons in Hin as [<-|Hin].
  - by rewrite Hone.
  - destruct (isNonTextual a); [done|]. by apply IH.
Qed.

Local Abbreviation wordStart := (Rehype.wordStart isLetter isNumber).
Local Abbreviation wordRun := (Rehype.wordRun isLetter isNumber).

(** *** The pattern on a text made of two parts *)

(** A run of word characters that starts in a text whose last character is
    no word character ends in that text. *)
Lemma wordRun_app_closed (s t : ustring) c :
  last s = Some c → isWordChar c = false →
  wordRun (s ++ t) = wordRun s.
Proof.
  intros Hlast Hc. induction s as [|a s IH]; [done|].
  destruct s as [|b s].
  - injection Hlast as ->. simpl. by rewrite Hc.
  - rewrite last_cons_cons in Hlast. cbn [app Rehype.wordRun].
    destruct (isWordChar a); [|done]. f_equal. by apply IH.
Qed.

Lemma wordStart_app_Some (s t : ustring) k :
  wordStart s = Some k → wordStart (s ++ t) = Some k.
Proof.
  revert k. induction s as [|a s IH]; intros k; [done|]. cbn [app Rehype.wordStart].
  destruct (isWordChar a); [done|].
  destruct (wordStart s) as [k'|]; [|done]. intros [= <-].
  by rewrite (IH k').
Qed.

Lemma wordStart_app_None (s t : ustring) :
  wordStart s = None →
  wordStart (s ++ t) = (fun k => length s + k) <$> wordStart t.
Proof.
  induction s as [|a s IH]; cbn [app Rehype.wordStart].
  - intros _. by destruct (wordStart t).
  - destruct (isWordChar a); [done|].
    destruct (wordStart s) as [k|] eqn:Hs; [done|]. intros _.
    rewrite IH by done. by destruct (wordStart t).
Qed.

Lemma last_drop_lt {A} (l : list A) n : n < length l → last (drop n l) = last l.
Proof.
  revert l. induction n as [|n IH]; intros l Hn; [done|].
  destruct l as [|a l]; [simpl in Hn; lia|]. simpl in Hn.
  cbn [drop]. rewrite IH by lia.
  destruct l as [|b l]; [simpl in Hn; lia|]. by rewrite last_cons_cons.
Qed.

(** A match found in the first part is found in the whole text. *)
Lemma exec_app_inside (pre t : ustring) lastIndex start word :
  (∀ c, last pre = Some c → isWordChar c = false) →
  exec pre lastIndex = Some (start, word) →
  exec (pre ++ t) lastIndex = Some (start, word).
Proof.
  intros Hclosed Hexec.
  pose proof (exec_bounds _ _ _ _ _ _ Hexec) as (Hle & Hpos & Hend & _).
  unfold Rehype.exec in *.
  destruct (wordStart (drop lastIndex pre)) as [k|] eqn:Hk; [|done].
  injection Hexec as <- <-.
  rewrite drop_app_le by lia. rewrite (wordStart_app_Some _ _ k Hk).
  rewrite drop_app_le by lia.
  destruct (last pre) as [c|] eqn:Hlast.
  - rewrite (wordRun_app_closed _ _ c); [done| |by apply Hclosed].
    rewrite last_drop_lt; [done|lia].
  - apply last_None in Hlast. subst pre. simpl in Hend. lia.
Qed.

(** When the first part holds no further match, the next match is the first
    one of the second part. *)
Lemma exec_app_outside (pre t : ustring) lastIndex :
  lastIndex ≤ length pre →
  exec pre lastIndex = None →
  exec (pre ++ t) lastIndex
  = (fun m => (length pre + m.1, m.2)) <$> exec t 0.
Proof.
  intros Hle Hexec. unfold Rehype.exec in *.
  destruct (wordStart (drop lastIndex pre)) as [k|] eqn:Hk; [done|].
  rewrite drop_app_le by lia. rewrite wordStart_app_None by done.
  rewrite length_drop. change (drop 0 t) with t.
  destruct (wordStart t) as [k|]; cbn [fmap option_fmap option_map fst snd Nat.add];
    [|done].
  replace (lastIndex + (length pre - lastIndex + k)) with (length pre + k) by lia.
  by rewrite drop_app_add.
Qed.

(** Past the first part, the pattern sees the second part alone. *)
Lemma exec_app_shift (front t : ustring) lastIndex :
  exec (front ++ t) (length front + lastIndex)
  = (fun m => (length front + m.1, m.2)) <$> exec t lastIndex.
Proof.
  unfold Rehype.exec. rewrite drop_app_add.
  destruct (wordStart (drop lastIndex t)) as [k|]; [|done].
  cbn [fmap option_fmap option_map fst snd].
  replace (length front + lastIndex + k) with (length front + (lastIndex + k)) by lia.
  by rewrite drop_app_add.
Qed.

(** *** The loop on a text made of two parts *)

Lemma slice_app_inside (pre t : ustring) from to :
  to ≤ length pre → slice (pre ++ t) from to = slice pre from to.
Proof.
  intros Hto. unfold slice.
  destruct (decide (from ≤ length pre)) as [Hle|Hgt].
  - rewrite drop_app_le by done. rewrite take_app_le; [done|].
    rewrite length_drop. lia.
  - by replace (to - from) with 0 by lia.
Qed.

Lemma slice_app_shift (front t : ustring) from to :
  slice (front ++ t) (length front + from) (length front + to) = slice t from to.
Proof.
  unfold slice. rewrite drop_app_add. f_equal. lia.
Qed.

Lemma loopBody_app_inside (pre t : ustring) words classPrefix st start word :
  start ≤ length pre →
  loopBody (pre ++ t) words classPrefix st start word
  = loopBody pre words classPrefix st start word.
Proof.
  intros Hstart. unfold Rehype.loopBody. by rewrite slice_app_inside.
Qed.

(** The loop on the whole text starts as the loop on a first part that does
    not end in a word character. *)
Lemma tokenLoop_app_inside (pre t : ustring) words classPrefix :
  (∀ c, last pre = Some c → isWordChar c = false) →
  ∀ n st,
    length pre - ls_lastEnd st = n →
    tokenLoop (pre ++ t) words classPrefix st
    = tokenLoop (pre ++ t) words classPrefix (tokenLoop pre words classPrefix st).
Proof.
  intros Hclosed n. induction (lt_wf n) as [n _ IH]. intros st Hn.
  rewrite (tokenLoop_unfold pre).
  destruct (exec pre (ls_lastEnd st)) as [[start word]|] eqn:Hexec; [|done].
  rewrite (tokenLoop_unfold (pre ++ t) words classPrefix st).
  rewrite (exec_app_inside _ _ _ _ _ Hclosed Hexec).
  apply exec_bounds in Hexec as (Hle & Hpos & Hend & _).
  rewrite loopBody_app_inside by lia.
  eapply IH; [|done]. simpl. lia.
Qed.

(** Past a first part, the loop on the whole text goes as the loop on the
    second part: the same cursor, the same nodes after those it had, and
    the same end, counted from the start of the second part. *)
Lemma tokenLoop_app_shift (front t : ustring) words classPrefix (before : list Node) :
  ∀ n st st',
    length t - ls_lastEnd st' = n →
    ls_wordIndex st = ls_wordIndex st' →
    ls_lastEnd st = length front + ls_lastEnd st' →
    ls_nodes st = before ++ ls_nodes st' →
    ls_wordIndex (tokenLoop (front ++ t) words classPrefix st)
    = ls_wordIndex (tokenLoop t words classPrefix st')
    ∧ ls_lastEnd (tokenLoop (front ++ t) words classPrefix st)
      = length front + ls_lastEnd (tokenLoop t words classPrefix st')
    ∧ ls_nodes (tokenLoop (front ++ t) words classPrefix st)
      = before ++ ls_nodes (tokenLoop t words classPrefix st').
Proof.
  intros n. induction (lt_wf n) as [n _ IH]. intros st st' Hn Hcursor Hend Hnodes.
  rewrite (tokenLoop_unfold (front ++ t) words classPrefix st).
  rewrite (tokenLoop_unfold t words classPrefix st').
  rewrite Hend, exec_app_shift.
  destruct (exec t (ls_lastEnd st')) as [[start word]|] eqn:Hexec;
    cbn [fmap option_fmap option_map fst snd]; [|done].
  apply exec_bounds in Hexec as (Hle & Hpos & Hlen & _).
  eapply IH; [|done| | |].
  - simpl. lia.
  - unfold Rehype.loopBody. cbn [ls_wordIndex]. by rewrite Hcursor.
  - unfold Rehype.loopBody. cbn [ls_lastEnd]. lia.
  - unfold Rehype.loopBody. cbn [ls_nodes]. rewrite Hnodes, Hend, Hcursor.
    rewrite slice_app_shift. rewrite <- !app_assoc. do 2 f_equal.
    by repeat case_bool_decide; try lia.
Qed.

(** A token followed by no word character is what the pattern matches at
    its start. *)
Lemma wordRun_app_token (token post : ustring) :
  forallb isWordChar token = true →
  (∀ c, head post = Some c → isWordChar c = false) →
  wordRun (token ++ post) = token.
Proof.
  intros Hall Hpost. induction token as [|a token IH].
  - destruct post as [|c post]; [done|]. simpl. by rewrite (Hpost c).
  - cbn [forallb] in Hall. apply andb_prop in Hall as [Ha Hall].
    cbn [app Rehype.wordRun]. destruct (isWordChar a); [|done]. f_equal. by apply IH.
Qed.

Lemma exec_app_token (token post : ustring) :
  token ≠ [] → forallb isWordChar token = true →
  (∀ c, head post = Some c → isWordChar c = false) →
  exec (token ++ post) 0 = Some (0, token).
Proof.
  intros Hne Hall Hpost. unfold Rehype.exec. rewrite drop_0.
  assert (Hstart : wordStart (token ++ post) = Some 0).
  { destruct token as [|a token]; [done|].
    cbn [forallb] in Hall. apply andb_prop in Hall as [Ha _].
    cbn [app Rehype.wordStart]. by destruct (isWordChar a). }
  rewrite Hstart. cbn [Nat.add]. rewrite drop_0.
  by rewrite wordRun_app_token.
Qed.

(** *** The merge *)

Lemma mergeNodes_app ns1 ns2 :
  mergeNodes (ns1 ++ ns2) = fold_left mergeStep ns2 (mergeNodes ns1).
Proof. unfold mergeNodes. by rewrite fold_left_app. Qed.

Lemma mergeNodes_snoc ns n : mergeNodes (ns ++ [n]) = mergeStep (mergeNodes ns) n.
Proof. by rewrite mergeNodes_app. Qed.

(** Two texts merged one after the other are merged as their
    concatenation. *)
Lemma mergeStep_texts merged a b :
  mergeStep (mergeStep merged (Text a)) (Text b) = mergeStep merged (Text (a ++ b)).
Proof.
  unfold mergeStep at 2 3.
  destruct (last merged) as [[lastValue|tag props children]|] eqn:Hlast.
  - unfold mergeStep. rewrite last_snoc, removelast_last. by rewrite <- app_assoc.
  - unfold mergeStep. by rewrite last_snoc, removelast_last.
  - unfold mergeStep. by rewrite last_snoc, removelast_last.
Qed.

(** Merging a list that is merged already, after any nodes, is merging the
    list. *)
Lemma fold_merge_merged ns :
  ∀ merged,
    fold_left mergeStep (mergeNodes ns) merged = fold_left mergeStep ns merged.
Proof.
  induction ns as [|n ns IH] using rev_ind; intros merged; [done|].
  rewrite mergeNodes_snoc, fold_left_app. cbn [fold_left]. rewrite <- IH.
  unfold mergeStep at 2.
  destruct n as [value|tag props children].
  - destruct (last (mergeNodes ns)) as [[lastValue|tag props children]|] eqn:Hlast.
    + apply last_Some in Hlast as [front Hfront]. rewrite Hfront.
      rewrite removelast_last, !fold_left_app. cbn [fold_left].
      by rewrite mergeStep_texts.
    + by rewrite fold_left_app.
    + by rewrite fold_left_app.
  - by rewrite fold_left_app.
Qed.

Lemma mergeNodes_merged ns : mergeNodes (mergeNodes ns) = mergeNodes ns.
Proof. unfold mergeNodes at 1. by rewrite fold_merge_merged. Qed.

Lemma mergeNodes_app_merged ns1 ns2 :
  mergeNodes (mergeNodes ns1 ++ ns2) = mergeNodes (ns1 ++ ns2).
Proof. by rewrite !mergeNodes_app, mergeNodes_merged. Qed.

Lemma mergeNodes_merged_app ns1 ns2 :
  mergeNodes (ns1 ++ mergeNodes ns2) = mergeNodes (ns1 ++ ns2).
Proof. by rewrite !mergeNodes_app, fold_merge_merged. Qed.

Lemma mergeNodes_around ns1 n ns2 :
  mergeNodes (mergeNodes ns1 ++ n :: mergeNodes ns2) = mergeNodes (ns1 ++ n :: ns2).
Proof.
  rewrite mergeNodes_app_merged.
  rewrite (cons_middle n ns1 (mergeNodes ns2)), app_assoc, mergeNodes_merged_app.
  by rewrite <- app_assoc.
Qed.

(** An element keeps what is merged before it apart from what is merged
    after it. *)
Lemma mergeStep_after_element ns1 tag props children ns2 n :
  mergeStep (ns1 ++ Element tag props children :: ns2) n
  = ns1 ++ Element tag props children :: mergeStep ns2 n.
Proof.
  unfold mergeStep. destruct n as [value|tag' props' children'].
  - destruct ns2 as [|n2 ns2] using rev_ind.
    + rewrite last_snoc. cbn [last]. by rewrite <- app_assoc.
    + rewrite app_comm_cons, app_assoc, !last_snoc.
      destruct n2 as [lastValue|tag2 props2 children2].
      * rewrite !removelast_last. by rewrite <- !app_assoc.
      * by rewrite <- !app_assoc.
  - by rewrite <- app_assoc.
Qed.

Lemma mergeNodes_element ns1 tag props children ns2 :
  mergeNodes (ns1 ++ Element tag props children :: ns2)
  = mergeNodes ns1 ++ Element tag props children :: mergeNodes ns2.
Proof.
  induction ns2 as [|n ns2 IH] using rev_ind.
  - by rewrite mergeNodes_snoc.
  - rewrite app_comm_cons, app_assoc, !mergeNodes_snoc, IH.
    apply mergeStep_after_element.
Qed.

(** *** A token in its text *)

(** The processing of a text around one of its tokens: the text before the
    token is processed from the starting cursor, the token is looked up at
    the cursor this gives, and the text after the token is processed from
    the cursor the look-up leaves; the nodes are merged. *)
Lemma processTextNode_at_token (pre token post : ustring) words startIndex classPrefix :
  token ≠ [] → forallb isWordChar token = true →
  (∀ c, last pre = Some c → isWordChar c = false) →
  (∀ c, head post = Some c → isWordChar c = false) →
  processTextNode (pre ++ token ++ post) words startIndex classPrefix
  = {| nodes :=
         mergeNodes
           (nodes (processTextNode pre words startIndex classPrefix)
            ++ (matchWord words classPrefix
                  (nextWordIndex (processTextNode pre words startIndex classPrefix))
                  token).1
            :: nodes (processTextNode post words
                        (matchWord words classPrefix
                           (nextWordIndex
                              (processTextNode pre words startIndex classPrefix))
                           token).2
                        classPrefix));
       nextWordIndex :=
         nextWordIndex
           (processTextNode post words
              (matchWord words classPrefix
                 (nextWordIndex (processTextNode pre words startIndex classPrefix))
                 token).2
              classPrefix) |}.
Proof.
  intros Hne Hall Hpre Hpost. unfold Rehype.processTextNode. cbn [nodes nextWordIndex].
  set (st0 := {| ls_nodes := []; ls_wordIndex := startIndex; ls_lastEnd := 0 |}).
  set (stA := tokenLoop pre words classPrefix st0).
  destruct (tokenLoop_invariant pre words classPrefix
              (fun st => ls_lastEnd st ≤ length pre))
    with (st := st0) as [HleA HendA].
  { intros st start word _ Hexec. apply exec_bounds in Hexec. simpl. lia. }
  { simpl. lia. }
  fold stA in HleA, HendA.
  set (pushed := matchWord words classPrefix (ls_wordIndex stA) token).
  set (stB := tokenLoop post words classPrefix
                {| ls_nodes := []; ls_wordIndex := pushed.2; ls_lastEnd := 0 |}).
  set (restA := if bool_decide (ls_lastEnd stA < length pre)
                then [Text (drop (ls_lastEnd stA) pre)] else []).
  set (restB := if bool_decide (ls_lastEnd stB < length post)
                then [Text (drop (ls_lastEnd stB) post)] else []).
  rewrite (tokenLoop_app_inside pre (token ++ post) words classPrefix Hpre
             (length pre - ls_lastEnd st0) st0 eq_refl).
  fold stA.
  rewrite (tokenLoop_unfold (pre ++ token ++ post)).
  rewrite (exec_app_outside pre (token ++ post) _ HleA HendA).
  rewrite (exec_app_token token post Hne Hall Hpost).
  cbn [fmap option_fmap option_map fst snd]. rewrite Nat.add_0_r.
  set (stT := loopBody (pre ++ token ++ post) words classPrefix stA (length pre) token).
  assert (HnodesT : ls_nodes stT = (ls_nodes stA ++ restA) ++ [pushed.1]).
  { unfold stT, Rehype.loopBody. cbn [ls_nodes]. fold pushed.
    rewrite <- app_assoc. do 2 f_equal. unfold restA.
    case_bool_decide; [|done].
    rewrite slice_app_inside by done. unfold slice.
    by rewrite take_ge by (rewrite length_drop; lia). }
  destruct (tokenLoop_app_shift (pre ++ token) post words classPrefix (ls_nodes stT)
              (length post) stT
              {| ls_nodes := []; ls_wordIndex := pushed.2; ls_lastEnd := 0 |})
    as (Hcursor & Hend & Hnodes).
  { simpl. lia. }
  { done. }
  { unfold stT. simpl. rewrite length_app. lia. }
  { simpl. by rewrite app_nil_r. }
  fold stB in Hcursor, Hend, Hnodes.
  rewrite <- app_assoc in Hcursor, Hend, Hnodes.
  rewrite Hcursor, Hend, Hnodes. f_equal.
  fold restA restB.
  rewrite mergeNodes_around. f_equal.
  rewrite HnodesT, <- !app_assoc. do 3 f_equal.
  rewrite (app_assoc pre token post), drop_app_add.
  unfold restB. rewrite (length_app (pre ++ token) post).
  by repeat case_bool_decide; try lia.
Qed.

End MatcherClaims.

(** ** The matcher on ASCII text *)

Section AsciiRuns.
Import Rehype AsciiEngine.

(** The first example of the specification. *)
Example processTextNode_the_cat_sat :
  processTextNode (codes "The cat sat.") theCatSat 0 "vocasync"
  = {| nodes :=
         [wordSpan "vocasync" 0 (aligned "the" 0 (2 # 10)) (codes "The");
          Text (codes " ");
          wordSpan "vocasync" 1 (aligned "cat" (2 # 10) (5 # 10)) (codes "cat");
          Text (codes " ");
          wordSpan "vocasync" 2 (aligned "sat" (5 # 10) (9 # 10)) (codes "sat");
          Text (codes ".")];
       nextWordIndex := 3 |}.
Proof. vm_compute. reflexivity. Qed.

(** The second example: nothing matches, one text node, the cursor stays. *)
Example processTextNode_no_match :
  processTextNode (codes "The cat sat.") [aligned "dog" 0 (3 # 10)] 0 "vocasync"
  = {| nodes := [Text (codes "The cat sat.")]; nextWordIndex := 0 |}.
Proof. vm_compute. reflexivity. Qed.

(** A text that is the one token "cat": the token matches entry 1, and the
    matcher alone would move the cursor to 2. *)
Example processTextNode_single_match :
  processTextNode (codes "cat") theCatSat 0 "vocasync"
  = {| nodes := [wordSpan "vocasync" 1 (aligned "cat" (2 # 10) (5 # 10))
                          (codes "cat")];
       nextWordIndex := 2 |}.
Proof. vm_compute. reflexivity. Qed.

Lemma ascii_white_space c :
  isWhiteSpace c = true → isLetter c || isNumber c = false.
Proof.
  unfold isWhiteSpace. intros H. apply bool_decide_eq_true in H.
  repeat (apply elem_of_cons in H as [->|H]); try by vm_compute.
  by apply not_elem_of_nil in H.
Qed.


Lemma visitor_keeps_single_node_witness :
  visitor theCatSat "vocasync" 0 [ARoot; AElement "p" None]
          [Text (codes "cat")] (Some 0) (codes "cat")
  = ([Text (codes "cat")], 0).
Proof.
  apply (visitor_keeps_single_node isLetter isNumber toLowerCase isWhiteSpace
           toFixed3 theCatSat "vocasync" 0 [ARoot; AElement "p" None]
           [Text (codes "cat")] (Some 0) (codes "cat")).
  right. split; [discriminate|reflexivity].
Defined.

Lemma visitor_skips_non_textual_witness :
  visitor theCatSat "vocasync" 0
          [ARoot; AElement "pre" None; AElement "code" None]
          [Text (codes "the cat sat")] (Some 0) (codes "the cat sat")
  = ([Text (codes "the cat sat")], 0)
  ∧ visitor theCatSat "vocasync" 0
      [ARoot;
       AElement "span"
         (Some {| className := Some (ClassArray [PString "katex"]);
                  dataWordIndex := None; dataStart := None; dataEnd := None |})]
      [Text (codes "the cat sat")] (Some 0) (codes "the cat sat")
    = ([Text (codes "the cat sat")], 0).
Proof.
  split.
  - apply (visitor_skips_non_textual isLetter isNumber toLowerCase isWhiteSpace
             toFixed3 theCatSat "vocasync" 0
             [ARoot; AElement "pre" None; AElement "code" None]
             [Text (codes "the cat sat")] (Some 0) (codes "the cat sat")
             "code" None).
    + repeat constructor.
    + left. repeat constructor.
  - apply (visitor_skips_non_textual isLetter isNumber toLowerCase isWhiteSpace
             toFixed3 theCatSat "vocasync" 0 _
             [Text (codes "the cat sat")] (Some 0) (codes "the cat sat")
             "span"
             (Some {| className := Some (ClassArray [PString "katex"]);
                      dataWordIndex := None; dataStart := None;
                      dataEnd := None |})).
    + repeat constructor.
    + right. exists "katex". split; repeat constructor.
Defined.

End AsciiRuns.

(** * Further properties *)

(** ** The polling loop, in general *)

Section PollingLoopMore.
Import Client.

(** The loop either runs out of attempts, all of which sleep, or stops at
    the first attempt that does not end in the sleep. *)
Lemma pollLoop_cases poll interval observer remaining :
  ∀ a tr,
    (forallb (sleeps poll) (seq a remaining) = true
     ∧ pollLoop poll interval observer remaining a tr
       = (Throw pollingTimeout,
          tr ++ flat_map (sleepEvents poll interval observer) (seq a remaining)))
    ∨ (∃ k, k < remaining
            ∧ forallb (sleeps poll) (seq a k) = true
            ∧ sleeps poll (a + k) = false
            ∧ pollLoop poll interval observer remaining a tr
              = stopAt poll observer (a + k)
                  (tr ++ flat_map (sleepEvents poll interval observer) (seq a k))).
Proof.
  induction remaining as [|r IH]; intros a tr.
  - left. simpl. by rewrite app_nil_r.
  - destruct (sleeps poll a) eqn:Ha.
    + assert (Hone : forallb (sleeps poll) (seq a 1) = true) by (simpl; by rewrite Ha).
      pose proof (pollLoop_sleeps poll interval observer 1 r a tr Hone) as Hstep.
      change (1 + r) with (S r) in Hstep. rewrite Hstep.
      destruct (IH (a + 1) (tr ++ flat_map (sleepEvents poll interval observer) (seq a 1)))
        as [[Hall Hrun]|(k & Hk & Hall & Hstop & Hrun)].
      * left. replace (a + 1) with (S a) in * by lia. split.
        { simpl. by rewrite Ha. }
        rewrite Hrun. f_equal. cbn [seq flat_map]. rewrite app_nil_r.
        by rewrite <- app_assoc.
      * right. exists (S k). replace (a + 1) with (S a) in * by lia.
        split; [lia|]. split; [simpl; by rewrite Ha|].
        replace (a + S k) with (S a + k) by lia. split; [done|].
        rewrite Hrun. f_equal. cbn [seq flat_map]. rewrite app_nil_r.
        by rewrite <- app_assoc.
    + right. exists 0. rewrite Nat.add_0_r. split; [lia|]. split; [done|].
      split; [done|]. cbn [seq flat_map pollLoop]. rewrite app_nil_r.
      unfold stopAt, sleeps in *.
      destruct (poll a) as [status|e]; [|done].
      by destruct (tick a status).
Qed.

Lemma pollUntilComplete_cases poll options :
  (sleepsBefore poll (maxAttemptsOf options) = true
   ∧ pollUntilComplete poll options
     = (Throw pollingTimeout,
        flat_map (sleepEvents poll (intervalMsOf options) (onProgress options))
                 (seq 0 (maxAttemptsOf options))))
  ∨ (∃ k, k < maxAttemptsOf options
          ∧ sleepsBefore poll k = true
          ∧ sleeps poll k = false
          ∧ pollUntilComplete poll options
            = stopAt poll (onProgress options) k
                (flat_map (sleepEvents poll (intervalMsOf options) (onProgress options))
                          (seq 0 k))).
Proof.
  unfold pollUntilComplete, sleepsBefore.
  destruct (pollLoop_cases poll (intervalMsOf options) (onProgress options)
              (maxAttemptsOf options) 0 []) as [H|(k & H)]; [by left|].
  right. exists k. by rewrite Nat.add_0_l in H.
Qed.

(** When the body returns, it returns the status it was given, and that
    status has a finished synthesis and either a completed alignment or no
    alignment job at all. *)
Lemma tick_return attempt status s :
  tick attempt status = TickReturn s →
  s = status
  ∧ ((synthStatusIs status completed = true ∧ alignStatusIs status completed = true)
     ∨ (synthComplete status = true ∧ alignmentJob status = None ∧ 5 < attempt)).
Proof.
  unfold tick, synthComplete, alignComplete, shouldWaitForAlignment, synthComplete.
  destruct (synthStatusIs status completed) eqn:Hsc;
  destruct (synthStatusIs status failed) eqn:Hsf;
  destruct (alignStatusIs status completed) eqn:Hac;
  destruct (alignStatusIs status failed) eqn:Haf; simpl; try done;
    try (intros [= <-]; split; [done|by left]);
    (destruct (alignmentJob status) eqn:Haj; simpl; [done|]);
    (case_bool_decide; [|done]); intros [= <-]; split; try done; by right.
Qed.

Lemma pollCount_stopAt poll observer j tr :
  pollCount (stopAt poll observer j tr).2 = S (pollCount tr).
Proof.
  unfold stopAt. destruct (poll j) as [status|e].
  - assert (pollCount (tr ++ EvPoll j :: (if observer then [EvProgress status] else []))
            = S (pollCount tr)).
    { rewrite pollCount_app. destruct observer; unfold pollCount; simpl; lia. }
    by destruct (tick j status).
  - cbn [snd]. rewrite pollCount_app. unfold pollCount. simpl. lia.
Qed.

(** A run that returns, taken apart. *)
Lemma pollUntilComplete_return_inv poll options status :
  (pollUntilComplete poll options).1 = Return status →
  ∃ k, k < maxAttemptsOf options
       ∧ sleepsBefore poll k = true
       ∧ poll k = Return status
       ∧ pollCount (pollUntilComplete poll options).2 = S k
       ∧ ((synthStatusIs status completed = true
           ∧ alignStatusIs status completed = true)
          ∨ (synthComplete status = true ∧ alignmentJob status = None ∧ 5 < k)).
Proof.
  intros Hret.
  destruct (pollUntilComplete_cases poll options)
    as [[_ Hrun]|(k & Hk & Hall & Hstop & Hrun)]; rewrite Hrun in Hret; [done|].
  exists k. split; [done|]. split; [done|].
  rewrite Hrun, pollCount_stopAt, pollCount_sleepTrace.
  unfold stopAt in Hret. destruct (poll k) as [st|e] eqn:Hp; [|done].
  destruct (tick k st) as [s| |] eqn:Ht; try done.
  simpl in Hret. injection Hret as ->.
  apply tick_return in Ht as [-> Hwhy]. done.
Qed.

End PollingLoopMore.

Section PollingLoopExtras.
Import Client.

(** X1.  When [pollUntilComplete] returns a status, that status is the
    answer of the last poll, every attempt before it ended in the sleep, and
    in it the synthesis is completed with a completed alignment, or the
    synthesis is over (completed or failed) with no alignment job, in which
    case more than five attempts came before.  No status with a pending or
    running job is ever returned. *)
Theorem pollUntilComplete_returns_only_finished
    (poll : Poller) (options : PollOptions) (status : ProjectStatus) :
  (pollUntilComplete poll options).1 = Return status →
  ∃ k, k < maxAttemptsOf options
       ∧ sleepsBefore poll k = true
       ∧ poll k = Return status
       ∧ pollCount (pollUntilComplete poll options).2 = S k
       ∧ ((synthStatusIs status completed = true
           ∧ alignStatusIs status completed = true)
          ∨ (synthComplete status = true ∧ alignmentJob status = None ∧ 5 < k)).
Proof. apply pollUntilComplete_return_inv. Qed.

Lemma pollUntilComplete_returns_only_finished_witness :
  ∃ k, k < maxAttemptsOf noOptions
       ∧ sleepsBefore Scripts.alignsLater k = true
       ∧ Scripts.alignsLater k
         = Return (Scripts.view completed None (Some (completed, None)))
       ∧ pollCount (pollUntilComplete Scripts.alignsLater noOptions).2 = S k
       ∧ ((synthStatusIs (Scripts.view completed None (Some (completed, None)))
                         completed = true
           ∧ alignStatusIs (Scripts.view completed None (Some (completed, None)))
                           completed = true)
          ∨ (synthComplete (Scripts.view completed None (Some (completed, None)))
             = true
             ∧ alignmentJob (Scripts.view completed None (Some (completed, None)))
               = None
             ∧ 5 < k)).
Proof.
  apply (pollUntilComplete_returns_only_finished Scripts.alignsLater noOptions
           (Scripts.view completed None (Some (completed, None)))).
  vm_compute. reflexivity.
Defined.

Lemma polledAttempts_app tr1 tr2 :
  polledAttempts (tr1 ++ tr2) = polledAttempts tr1 ++ polledAttempts tr2.
Proof. unfold polledAttempts. by rewrite flat_map_app. Qed.

Lemma polledAttempts_sleepTrace poll interval observer a k :
  polledAttempts (flat_map (sleepEvents poll interval observer) (seq a k))
  = seq a k.
Proof.
  revert a. induction k as [|k IH]; intros a; cbn [seq flat_map]; [done|].
  rewrite polledAttempts_app, IH. unfold sleepEvents.
  destruct (poll a) as [status|e]; [destruct observer|]; done.
Qed.

Lemma stopAt_trace poll observer j tr :
  polledAttempts (stopAt poll observer j tr).2 = polledAttempts tr ++ [j]
  ∧ filter isSleep (stopAt poll observer j tr).2 = filter isSleep tr
  ∧ progressStatuses (stopAt poll observer j tr).2
    = progressStatuses tr ++ (if observer then answered poll j 1 else []).
Proof.
  unfold stopAt, answered. cbn [seq flat_map].
  destruct (poll j) as [status|e].
  - assert (H : ∀ c : Completion ProjectStatus,
      polledAttempts (c, tr ++ EvPoll j :: (if observer then [EvProgress status] else [])).2
      = polledAttempts tr ++ [j]
      ∧ filter isSleep (c, tr ++ EvPoll j :: (if observer then [EvProgress status] else [])).2
        = filter isSleep tr
      ∧ progressStatuses (c, tr ++ EvPoll j :: (if observer then [EvProgress status] else [])).2
        = progressStatuses tr ++ (if observer then [status] ++ [] else [])).
    { intros c. cbn [snd]. unfold progressStatuses.
      rewrite polledAttempts_app, filter_app, flat_map_app.
      assert (Hnone : filter isSleep
                (EvPoll j :: (if observer then [EvProgress status] else [])) = [])
        by (by destruct observer).
      rewrite Hnone, !app_nil_r.
      destruct observer; simpl; by rewrite ?app_nil_r. }
    destruct (tick j status); apply H.
  - cbn [snd]. unfold progressStatuses.
    rewrite polledAttempts_app, filter_app, flat_map_app.
    assert (Hnone : filter isSleep [EvPoll j] = []) by done.
    rewrite Hnone. simpl. destruct observer; by rewrite !app_nil_r.
Qed.

(** The polls and the sleeps of attempts that end in the sleep. *)
Lemma steps_sleepTrace poll interval observer a k :
  filter (fun e => isPoll e || isSleep e)
         (flat_map (sleepEvents poll interval observer) (seq a k))
  = flat_map (fun j => [EvPoll j; EvSleep interval]) (seq a k).
Proof.
  revert a. induction k as [|k IH]; intros a; cbn [seq flat_map]; [done|].
  rewrite filter_app, IH. f_equal. unfold sleepEvents.
  destruct (poll a) as [status|e]; [destruct observer|]; done.
Qed.

(** The last iteration adds its poll and no sleep. *)
Lemma steps_stopAt poll observer j tr :
  filter (fun e => isPoll e || isSleep e) (stopAt poll observer j tr).2
  = filter (fun e => isPoll e || isSleep e) tr ++ [EvPoll j].
Proof.
  unfold stopAt. destruct (poll j) as [status|e].
  - assert (H : ∀ c : Completion ProjectStatus,
      filter (fun e => isPoll e || isSleep e)
        (c, tr ++ EvPoll j :: (if observer then [EvProgress status] else [])).2
      = filter (fun e => isPoll e || isSleep e) tr ++ [EvPoll j]).
    { intros c. cbn [snd]. rewrite filter_app. f_equal. by destruct observer. }
    destruct (tick j status); apply H.
  - cbn [snd]. by rewrite filter_app.
Qed.

(** X2.  A run never makes more than [maxAttempts] polls, and its polls are
    the attempts 0, 1, 2, ... in order.  With the calls of the observer left
    out, the run is: poll, sleep of [intervalMs], poll, sleep, ...  It ends
    on a sleep only when the attempts have run out: then every attempt
    slept, the sleeps are as many as the polls, and the run throws the
    timeout.  Otherwise it ends on the poll of an attempt that does not
    sleep, with no sleep after it, and the sleeps are one fewer than the
    polls. *)
Theorem pollUntilComplete_bounded (poll : Poller) (options : PollOptions) :
  pollCount (pollUntilComplete poll options).2 ≤ maxAttemptsOf options
  ∧ polledAttempts (pollUntilComplete poll options).2
    = seq 0 (pollCount (pollUntilComplete poll options).2)
  ∧ ∃ n, filter isSleep (pollUntilComplete poll options).2
         = replicate n (EvSleep (intervalMsOf options))
         ∧ sleepsBefore poll n = true
         ∧ ((n = maxAttemptsOf options
             ∧ pollCount (pollUntilComplete poll options).2 = n
             ∧ (pollUntilComplete poll options).1 = Throw pollingTimeout
             ∧ filter (fun e => isPoll e || isSleep e)
                      (pollUntilComplete poll options).2
               = flat_map (fun j => [EvPoll j; EvSleep (intervalMsOf options)])
                          (seq 0 n))
            ∨ (n < maxAttemptsOf options
               ∧ pollCount (pollUntilComplete poll options).2 = S n
               ∧ sleeps poll n = false
               ∧ filter (fun e => isPoll e || isSleep e)
                        (pollUntilComplete poll options).2
                 = flat_map (fun j => [EvPoll j; EvSleep (intervalMsOf options)])
                            (seq 0 n) ++ [EvPoll n])).
Proof.
  destruct (pollUntilComplete_cases poll options)
    as [[Hall Hrun]|(k & Hk & Hall & Hstop & Hrun)]; rewrite Hrun.
  - cbn [fst snd]. rewrite pollCount_sleepTrace, polledAttempts_sleepTrace.
    split; [done|]. split; [done|]. exists (maxAttemptsOf options).
    rewrite sleeps_filter_sleepTrace. split; [done|]. split; [done|].
    left. by rewrite steps_sleepTrace.
  - rewrite pollCount_stopAt, pollCount_sleepTrace.
    destruct (stopAt_trace poll (onProgress options) k
                (flat_map (sleepEvents poll (intervalMsOf options) (onProgress options))
                          (seq 0 k))) as (Hp & Hs & _).
    rewrite Hp, Hs, polledAttempts_sleepTrace, sleeps_filter_sleepTrace.
    split; [lia|]. split; [by rewrite seq_S|]. exists k.
    split; [done|]. split; [done|]. right.
    by rewrite steps_stopAt, steps_sleepTrace.
Qed.

(** X3.  An exception of a poll ends the run with that exception: the loop
    does not poll again, and it does not turn the exception into a
    timeout. *)
Theorem pollUntilComplete_poll_error
    (poll : Poller) (options : PollOptions) (k : nat) (e : JsError) :
  k < maxAttemptsOf options →
  sleepsBefore poll k = true →
  poll k = Throw e →
  (pollUntilComplete poll options).1 = Throw e
  ∧ pollCount (pollUntilComplete poll options).2 = S k.
Proof.
  intros Hk Hs Hp.
  rewrite (pollUntilComplete_reaches poll options k) by (done || lia).
  destruct (maxAttemptsOf options - k) as [|r] eqn:Hr; [lia|].
  cbn [pollLoop]. rewrite Hp. cbn [fst snd]. split; [done|].
  rewrite pollCount_app, pollCount_sleepTrace. unfold pollCount. simpl. lia.
Qed.

Lemma pollUntilComplete_poll_error_witness :
  (pollUntilComplete Scripts.dropsConnection noOptions).1
  = Throw (Error "fetch failed")
  ∧ pollCount (pollUntilComplete Scripts.dropsConnection noOptions).2 = 3.
Proof.
  apply (pollUntilComplete_poll_error Scripts.dropsConnection noOptions 2
           (Error "fetch failed")); vm_compute; first [reflexivity | lia].
Defined.

(** X4.  When the loop reaches a poll whose status has a completed synthesis
    and a failed alignment, it throws the error of the alignment job:
    "Alignment failed: " followed by the error of that job ("Unknown error"
    when it is absent or empty), with the status code 500. *)
Theorem pollUntilComplete_alignment_failure
    (poll : Poller) (options : PollOptions) (k : nat) (status : ProjectStatus)
    (sj : SynthesisJob) (aj : AlignmentJob) :
  k < maxAttemptsOf options →
  sleepsBefore poll k = true →
  poll k = Return status →
  synthesisJob status = Some sj → sj_status sj = completed →
  alignmentJob status = Some aj → aj_status aj = failed →
  (pollUntilComplete poll options).1
  = Throw (VocaSyncAPIError
             ("Alignment failed: " +:+ orElse (aj_error aj) "Unknown error")
             500 None).
Proof.
  intros Hk Hs Hp Hsj Hsc Haj Haf.
  assert (Ht : tick k status
               = TickThrow (VocaSyncAPIError
                   ("Alignment failed: " +:+ orElse (aj_error aj) "Unknown error")
                   500 None)).
  { unfold tick, synthComplete, alignComplete, synthStatusIs, alignStatusIs.
    rewrite Hsj, Haj, Hsc, Haf. done. }
  destruct (pollUntilComplete_at poll options k status) as [Hr _]; try done.
  { by rewrite Ht. }
  by rewrite Ht in Hr.
Qed.

Lemma pollUntilComplete_alignment_failure_witness :
  (pollUntilComplete Scripts.alignmentFails noOptions).1
  = Throw (VocaSyncAPIError "Alignment failed: language not supported" 500 None).
Proof.
  apply (pollUntilComplete_alignment_failure Scripts.alignmentFails noOptions 2
           (Scripts.view completed None
                         (Some (failed, Some "language not supported")))
           {| sj_status := completed; sj_audioUrl := None; sj_duration := None;
              sj_error := None |}
           {| aj_status := failed; aj_alignmentUrl := None;
              aj_error := Some "language not supported" |});
    first [ reflexivity | vm_compute; lia ].
Defined.

(** X5.  A synthesis that has failed is not reported as long as no
    alignment job shows: with a poller that answers "synthesis failed, no
    alignment job" at every poll, the loop throws nothing and returns that
    status at its seventh poll. *)
Theorem pollUntilComplete_failed_synthesis_unlinked
    (poll : Poller) (options : PollOptions) (status : ProjectStatus) :
  (∀ j, poll j = Return status) →
  synthStatusIs status failed = true →
  alignmentJob status = None →
  6 < maxAttemptsOf options →
  (pollUntilComplete poll options).1 = Return status
  ∧ pollCount (pollUntilComplete poll options).2 = 7.
Proof.
  intros Hp Hf Ha Hmax.
  destruct (pollUntilComplete_never_linked poll options status) as (Hr & Hc & _);
    try done.
  unfold shouldWaitForAlignment, synthComplete. rewrite Hf, Ha.
  by rewrite orb_true_r.
Qed.

Lemma pollUntilComplete_failed_synthesis_unlinked_witness :
  (pollUntilComplete Scripts.synthesisFailsUnlinked noOptions).1
  = Return (Scripts.view failed (Some "voice not found") None)
  ∧ pollCount (pollUntilComplete Scripts.synthesisFailsUnlinked noOptions).2 = 7.
Proof.
  apply (pollUntilComplete_failed_synthesis_unlinked
           Scripts.synthesisFailsUnlinked noOptions
           (Scripts.view failed (Some "voice not found") None));
    first [ reflexivity | done | vm_compute; lia ].
Defined.

Lemma answered_app poll a n m :
  answered poll a (n + m) = answered poll a n ++ answered poll (a + n) m.
Proof. unfold answered. by rewrite seq_app, flat_map_app. Qed.

Lemma progressStatuses_sleepTrace poll interval observer a k :
  forallb (sleeps poll) (seq a k) = true →
  progressStatuses (flat_map (sleepEvents poll interval observer) (seq a k))
  = if observer then answered poll a k else [].
Proof.
  revert a. induction k as [|k IH]; intros a Hs; cbn [seq flat_map].
  - by destruct observer.
  - cbn [seq forallb] in Hs. apply andb_prop in Hs as [Ha Hs].
    unfold progressStatuses in *. rewrite flat_map_app, (IH (S a) Hs).
    unfold answered. cbn [seq flat_map]. unfold sleepEvents, sleeps in *.
    destruct (poll a) as [status|e]; [|done].
    destruct observer; simpl; done.
Qed.

(** X6.  The observer is called once for every poll that answers, with the
    status of that poll and in the order of the polls, the last poll
    included; a run without observer calls none. *)
Theorem pollUntilComplete_observer (poll : Poller) (options : PollOptions) :
  progressStatuses (pollUntilComplete poll options).2
  = if onProgress options
    then answered poll 0 (pollCount (pollUntilComplete poll options).2)
    else [].
Proof.
  destruct (pollUntilComplete_cases poll options)
    as [[Hall Hrun]|(k & Hk & Hall & Hstop & Hrun)]; rewrite Hrun.
  - cbn [snd]. rewrite pollCount_sleepTrace.
    by apply progressStatuses_sleepTrace.
  - rewrite pollCount_stopAt, pollCount_sleepTrace.
    destruct (stopAt_trace poll (onProgress options) k
                (flat_map (sleepEvents poll (intervalMsOf options) (onProgress options))
                          (seq 0 k))) as (_ & _ & Hp).
    rewrite Hp, progressStatuses_sleepTrace by done.
    replace (S k) with (k + 1) by lia. rewrite answered_app.
    by destruct (onProgress options).
Qed.

(** X7.  Over [getProjectStatus], a status that [pollUntilComplete] returns
    either has no alignment job, or has a completed alignment job whose
    address is the alignment stream of the project. *)
Theorem pollUntilComplete_alignment_url
    (projectUuid : string) (remote : nat -> Completion ProjectResponse)
    (options : PollOptions) (status : ProjectStatus) :
  (pollUntilComplete (pollerOf projectUuid remote) options).1 = Return status →
  alignmentJob status = None
  ∨ ∃ aj, alignmentJob status = Some aj
          ∧ aj_status aj = completed
          ∧ aj_alignmentUrl aj
            = Some ("/stream/" +:+ projectUuid +:+ "/alignment").
Proof.
  intros Hret.
  apply pollUntilComplete_return_inv in Hret
    as (k & _ & _ & Hp & _ & [[_ Hac]|(_ & Hnone & _)]); [|by left].
  right. unfold pollerOf in Hp.
  destruct (remote k) as [project|e]; [|done].
  injection Hp as <-. unfold alignStatusIs in Hac.
  unfold getProjectStatus in *. cbn [alignmentJob] in *.
  destruct (pr_linkedAlignment project) as [la|]; [|done].
  cbn [aj_status] in Hac. apply bool_decide_eq_true in Hac.
  eexists. split; [done|]. cbn [aj_status aj_alignmentUrl].
  split; [done|]. by rewrite bool_decide_eq_true_2.
Qed.

Lemma pollUntilComplete_alignment_url_witness :
  alignmentJob (getProjectStatus "p-1"
     {| pr_projectUuid := "p-1"; pr_name := Some "astro-post";
        pr_projectType := artifact_synthesis; pr_status := completed;
        pr_audioFileDurationSeconds := Some (7 # 2); pr_error := None;
        pr_artifacts := [{| artifactType := artifact_synthesis;
                            synthesisFileKey := Some "audio/p-1.mp3" |}];
        pr_linkedAlignment :=
          Some {| la_projectUuid := "p-2"; la_status := completed;
                  la_error := None |} |}) = None
  ∨ ∃ aj, alignmentJob (getProjectStatus "p-1"
     {| pr_projectUuid := "p-1"; pr_name := Some "astro-post";
        pr_projectType := artifact_synthesis; pr_status := completed;
        pr_audioFileDurationSeconds := Some (7 # 2); pr_error := None;
        pr_artifacts := [{| artifactType := artifact_synthesis;
                            synthesisFileKey := Some "audio/p-1.mp3" |}];
        pr_linkedAlignment :=
          Some {| la_projectUuid := "p-2"; la_status := completed;
                  la_error := None |} |}) = Some aj
          ∧ aj_status aj = completed
          ∧ aj_alignmentUrl aj = Some ("/stream/" +:+ "p-1" +:+ "/alignment").
Proof.
  apply (pollUntilComplete_alignment_url "p-1" Scripts.remoteProject noOptions).
  vm_compute. reflexivity.
Defined.



End PollingLoopExtras.

(** ** The per-item driver and [sync], in general *)

Section ProcessItemExtras.
Import Core Orchestrator.

(** *** Reads and writes of [entries] *)

(** A read after a write of the same name finds the artifact written,
    [__proto__] included: there the artifact is the prototype, which the
    accessor gives back. *)
Lemma getAudioEntry_setAudioEntry audioMap slug artifact :
  getAudioEntry (setAudioEntry audioMap slug artifact) slug
  = Some (FoundArtifact artifact).
Proof.
  unfold getAudioEntry, setAudioEntry. cbn [am_entries].
  destruct (bool_decide (slug = "__proto__")) eqn:Hp;
    destruct (own (am_entries audioMap) !! slug) as [old|] eqn:Hown;
    cbn [andb negb isSome own proto].
  - by rewrite lookup_insert_eq.
  - rewrite Hown. apply bool_decide_eq_true in Hp. subst slug.
    by cbn.
  - by rewrite lookup_insert_eq.
  - by rewrite lookup_insert_eq.
Qed.

(** A write leaves the own properties of the other names as they were. *)
Lemma setAudioEntry_own_ne audioMap slug artifact other :
  other ≠ slug →
  own (am_entries (setAudioEntry audioMap slug artifact)) !! other
  = own (am_entries audioMap) !! other.
Proof.
  intros Hne. unfold setAudioEntry. cbn [am_entries].
  destruct (bool_decide (slug = "__proto__") && _); cbn [own]; [done|].
  by rewrite lookup_insert_ne.
Qed.

(** A write under a name other than [__proto__] leaves the prototype as it
    was, and with it every read of another name. *)
Lemma setAudioEntry_proto audioMap slug artifact :
  slug ≠ "__proto__" →
  proto (am_entries (setAudioEntry audioMap slug artifact))
  = proto (am_entries audioMap).
Proof.
  intros Hne. unfold setAudioEntry. cbn [am_entries].
  by rewrite bool_decide_eq_false_2.
Qed.

Lemma getAudioEntry_setAudioEntry_ne audioMap slug artifact other :
  slug ≠ "__proto__" → other ≠ slug →
  getAudioEntry (setAudioEntry audioMap slug artifact) other
  = getAudioEntry audioMap other.
Proof.
  intros Hp Hne. unfold getAudioEntry.
  by rewrite setAudioEntry_own_ne, setAudioEntry_proto.
Qed.

(** Under [Object.prototype], a name that it does not hold is read from the
    own properties alone. *)
Lemma getAudioEntry_plain audioMap slug :
  proto (am_entries audioMap) = None →
  slug ∉ "__proto__" :: objectPrototypeMembers →
  getAudioEntry audioMap slug
  = FoundArtifact <$> own (am_entries audioMap) !! slug.
Proof.
  intros Hproto Hslug. unfold getAudioEntry. rewrite Hproto.
  destruct (own (am_entries audioMap) !! slug); [done|]. cbn.
  apply not_elem_of_cons in Hslug as [Hp Hmembers].
  by rewrite bool_decide_eq_false_2, bool_decide_eq_false_2.
Qed.

(** *** The outcomes of [processItem] *)

(** Either the audio map is left as it was, the result carries no project
    identifier and the clock was not read, or an artifact was stored. *)
Lemma processItem_cases world item config audioMap force dryRun :
  ((processItem world item config audioMap force dryRun).1.2 = audioMap
   ∧ sr_projectUuid (processItem world item config audioMap force dryRun).1.1 = None
   ∧ sr_slug (processItem world item config audioMap force dryRun).1.1 = ci_slug item
   ∧ (processItem world item config audioMap force dryRun).2.2 = 0)
  ∨ (∃ speechDoc response url data,
       dryRun = false
       ∧ buildSpeechDocument world item = Return speechDoc
       ∧ getAlignment world url = Return data
       ∧ (processItem world item config audioMap force dryRun).1
         = ({| sr_slug := ci_slug item;
               sr_status := if isTruthy (getAudioEntry audioMap (ci_slug item))
                            then st_updated else st_new;
               sr_projectUuid := Some (projectUuid response);
               sr_error := None |},
            setAudioEntry audioMap (ci_slug item)
              {| aa_projectUuid := projectUuid response;
                 aa_contentHash := sd_hash speechDoc;
                 aa_duration := ad_duration data;
                 aa_audioUrl :=
                   Client.synthesisUrl (Client.getStreamingUrls (projectUuid response));
                 aa_alignmentUrl :=
                   Client.alignmentUrl (Client.getStreamingUrls (projectUuid response));
                 aa_publishableKey := None;
                 aa_createdAt :=
                   default (clock world 0)
                     (orUndefined
                        (createdAtOf (getAudioEntry audioMap (ci_slug item))));
                 aa_updatedAt :=
                   clock world
                     (if isSome (orUndefined
                                   (createdAtOf
                                      (getAudioEntry audioMap (ci_slug item))))
                      then 0 else 1) |})
       ∧ (processItem world item config audioMap force dryRun).2.2
         = (if isSome (orUndefined
                         (createdAtOf (getAudioEntry audioMap (ci_slug item))))
            then 1 else 2)).
Proof.
  unfold processItem, processItemTry.
  destruct (buildSpeechDocument world item) as [speechDoc|e]; [|by left].
  destruct (negb force && _ && _); [by left|].
  destruct dryRun; [by left|].
  destruct (synthesize world _) as [response|e]; [|by left].
  cbn zeta.
  destruct (Client.pollUntilComplete _ _).1 as [finalStatus|e]; [|by left].
  destruct (aj ← alignmentJob finalStatus; orUndefined (aj_alignmentUrl aj))
    as [url|]; [|by left].
  destruct (getAlignment world url) as [data|e] eqn:Hdata; [|by left].
  right. exists speechDoc, response, url, data.
  split; [done|]. split; [done|]. split; [done|]. split; [done|].
  cbn [snd]. by destruct (isSome _).
Qed.

(** X9.  A result that carries a project identifier comes from a run that is
    no dry run.  Its status is "updated" when the read of the slug gave a
    truthy value and "new" otherwise, and a read of the slug then finds the
    artifact of the project: the hash of the speech text, the duration of
    the alignment and the two stream addresses.  Its [createdAt] is that of
    the artifact read before, when there was one with a non-empty
    [createdAt]; otherwise it is a reading of the clock, and [updatedAt] is
    the reading after it: the clock is read once in the first case and
    twice in the second. *)
Theorem processItem_stores_artifact
    (world : World) (item : ContentItem) (config : VocaSyncConfig)
    (audioMap : AudioMap) (force dryRun : bool) (uuid : string) :
  sr_projectUuid (processItem world item config audioMap force dryRun).1.1
  = Some uuid →
  dryRun = false
  ∧ sr_status (processItem world item config audioMap force dryRun).1.1
    = (if isTruthy (getAudioEntry audioMap (ci_slug item))
       then st_updated else st_new)
  ∧ ∃ speechDoc url data createdAt updatedAt,
      buildSpeechDocument world item = Return speechDoc
      ∧ getAlignment world url = Return data
      ∧ getAudioEntry (processItem world item config audioMap force dryRun).1.2
                      (ci_slug item)
        = Some (FoundArtifact
                  {| aa_projectUuid := uuid;
                     aa_contentHash := sd_hash speechDoc;
                     aa_duration := ad_duration data;
                     aa_audioUrl :=
                       "https://vocasync.io/api/v1/stream/" +:+ uuid +:+ "/synthesis";
                     aa_alignmentUrl :=
                       "https://vocasync.io/api/v1/stream/" +:+ uuid +:+ "/alignment";
                     aa_publishableKey := None;
                     aa_createdAt := createdAt;
                     aa_updatedAt := updatedAt |})
      ∧ match createdAtOf (getAudioEntry audioMap (ci_slug item)) with
        | Some kept =>
            if bool_decide (kept = "")
            then createdAt = clock world 0 ∧ updatedAt = clock world 1
                 ∧ (processItem world item config audioMap force dryRun).2.2 = 2
            else createdAt = kept ∧ updatedAt = clock world 0
                 ∧ (processItem world item config audioMap force dryRun).2.2 = 1
        | None =>
            createdAt = clock world 0 ∧ updatedAt = clock world 1
            ∧ (processItem world item config audioMap force dryRun).2.2 = 2
        end.
Proof.
  intros Huuid.
  destruct (processItem_cases world item config audioMap force dryRun)
    as [(_ & Hnone & _)
       |(speechDoc & response & url & data & -> & Hb & Hd & Hrun & Hreads)].
  { by rewrite Hnone in Huuid. }
  rewrite Hreads. rewrite Hrun in *. cbn [fst snd sr_projectUuid sr_status] in *.
  injection Huuid as <-. split; [done|]. split; [done|].
  exists speechDoc, url, data. do 2 eexists.
  split; [done|]. split; [done|].
  split; [apply getAudioEntry_setAudioEntry|].
  unfold orUndefined.
  destruct (createdAtOf (getAudioEntry audioMap (ci_slug item))) as [kept|];
    [|done].
  destruct (decide (kept = "")) as [->|Hne]; [done|].
  by rewrite bool_decide_eq_false_2.
Qed.

Lemma processItem_stores_artifact_witness :
  false = false
  ∧ sr_status (processItem Items.linkedWorld Items.post Items.config
                 Items.emptyMap false false).1.1
    = (if isTruthy (getAudioEntry Items.emptyMap (ci_slug Items.post))
       then st_updated else st_new)
  ∧ ∃ speechDoc url data createdAt updatedAt,
      buildSpeechDocument Items.linkedWorld Items.post = Return speechDoc
      ∧ getAlignment Items.linkedWorld url = Return data
      ∧ getAudioEntry (processItem Items.linkedWorld Items.post Items.config
                         Items.emptyMap false false).1.2
                      (ci_slug Items.post)
        = Some (FoundArtifact
                  {| aa_projectUuid := "p-1";
                     aa_contentHash := sd_hash speechDoc;
                     aa_duration := ad_duration data;
                     aa_audioUrl :=
                       "https://vocasync.io/api/v1/stream/" +:+ "p-1" +:+ "/synthesis";
                     aa_alignmentUrl :=
                       "https://vocasync.io/api/v1/stream/" +:+ "p-1" +:+ "/alignment";
                     aa_publishableKey := None;
                     aa_createdAt := createdAt;
                     aa_updatedAt := updatedAt |})
      ∧ match createdAtOf (getAudioEntry Items.emptyMap (ci_slug Items.post)) with
        | Some kept =>
            if bool_decide (kept = "")
            then createdAt = clock Items.linkedWorld 0
                 ∧ updatedAt = clock Items.linkedWorld 1
                 ∧ (processItem Items.linkedWorld Items.post Items.config
                      Items.emptyMap false false).2.2 = 2
            else createdAt = kept ∧ updatedAt = clock Items.linkedWorld 0
                 ∧ (processItem Items.linkedWorld Items.post Items.config
                      Items.emptyMap false false).2.2 = 1
        | None =>
            createdAt = clock Items.linkedWorld 0
            ∧ updatedAt = clock Items.linkedWorld 1
            ∧ (processItem Items.linkedWorld Items.post Items.config
                 Items.emptyMap false false).2.2 = 2
        end.
Proof.
  apply (processItem_stores_artifact Items.linkedWorld Items.post Items.config
           Items.emptyMap false false "p-1").
  vm_compute. reflexivity.
Defined.

(** On an empty audio map, an item whose slug is the name of a member of
    [Object.prototype] is taken for an item that has an entry already. *)
Example processItem_inherited_slug :
  sr_status (processItem Items.linkedWorld
               {| ci_slug := "constructor"; ci_content := "Hello.";
                  ci_filePath := "src/content/articles/constructor.md" |}
               Items.config Items.emptyMap false false).1.1
  = st_updated.
Proof. vm_compute. reflexivity. Qed.

(** X10.  After a run that stored an artifact for an item, a further run
    over the resulting audio map finds the item unchanged and leaves the map
    as it is, as long as the speech document of the item is the same and
    the run is not forced. *)
Theorem processItem_then_unchanged
    (world world' : World) (item : ContentItem) (config config' : VocaSyncConfig)
    (audioMap : AudioMap) (force dryRun' : bool) (uuid : string) :
  sr_projectUuid (processItem world item config audioMap force false).1.1
  = Some uuid →
  buildSpeechDocument world' item = buildSpeechDocument world item →
  (processItem world' item config'
     (processItem world item config audioMap force false).1.2 false dryRun').1
  = ({| sr_slug := ci_slug item; sr_status := st_unchanged;
        sr_projectUuid := None; sr_error := None |},
     (processItem world item config audioMap force false).1.2).
Proof.
  intros Huuid Hsame.
  destruct (processItem_cases world item config audioMap force false)
    as [(_ & Hnone & _)|(speechDoc & response & url & data & _ & Hb & Hd & Hrun & _)].
  { by rewrite Hnone in Huuid. }
  rewrite Hrun. cbn [fst snd].
  unfold processItem, processItemTry. rewrite Hsame, Hb.
  rewrite getAudioEntry_setAudioEntry. unfold hasChanged.
  cbn [contentHashOf aa_contentHash isTruthy].
  by rewrite bool_decide_eq_true_2.
Qed.

Lemma processItem_then_unchanged_witness :
  (processItem Items.neverLinkedWorld Items.post Items.config
     (processItem Items.linkedWorld Items.post Items.config Items.emptyMap
        false false).1.2 false false).1
  = ({| sr_slug := ci_slug Items.post; sr_status := st_unchanged;
        sr_projectUuid := None; sr_error := None |},
     (processItem Items.linkedWorld Items.post Items.config Items.emptyMap
        false false).1.2).
Proof.
  apply (processItem_then_unchanged Items.linkedWorld Items.neverLinkedWorld
           Items.post Items.config Items.config Items.emptyMap false false "p-1").
  - vm_compute. reflexivity.
  - reflexivity.
Defined.

(** X11.  [processItem] keeps the version and the time stamp of the audio
    map and the own entries of every slug but that of its item.  Unless the
    slug of its item is [__proto__], it also keeps the prototype of
    [entries], so that the read of every other slug gives what it gave
    before.  It changes nothing at all, and does not read the clock, unless
    its result carries a project identifier: an unchanged item, a dry run
    and an error leave the map as it was. *)
Theorem processItem_frame
    (world : World) (item : ContentItem) (config : VocaSyncConfig)
    (audioMap : AudioMap) (force dryRun : bool) :
  am_version (processItem world item config audioMap force dryRun).1.2
  = am_version audioMap
  ∧ am_updatedAt (processItem world item config audioMap force dryRun).1.2
    = am_updatedAt audioMap
  ∧ (∀ slug, slug ≠ ci_slug item →
       own (am_entries (processItem world item config audioMap force dryRun).1.2)
         !! slug
       = own (am_entries audioMap) !! slug)
  ∧ (ci_slug item ≠ "__proto__" →
     proto (am_entries (processItem world item config audioMap force dryRun).1.2)
     = proto (am_entries audioMap)
     ∧ ∀ slug, slug ≠ ci_slug item →
         getAudioEntry (processItem world item config audioMap force dryRun).1.2 slug
         = getAudioEntry audioMap slug)
  ∧ (sr_projectUuid (processItem world item config audioMap force dryRun).1.1 = None →
     (processItem world item config audioMap force dryRun).1.2 = audioMap
     ∧ (processItem world item config audioMap force dryRun).2.2 = 0).
Proof.
  destruct (processItem_cases world item config audioMap force dryRun)
    as [(Hmap & Hnone & _ & Hreads)
       |(speechDoc & response & url & data & _ & Hb & Hd & Hrun & _)].
  - by rewrite Hmap.
  - rewrite Hrun. cbn [fst snd sr_projectUuid].
    split; [done|]. split; [done|]. split; [|split; [|done]].
    + intros slug Hne. by apply setAudioEntry_own_ne.
    + intros Hp. split; [by apply setAudioEntry_proto|].
      intros slug Hne. by apply getAudioEntry_setAudioEntry_ne.
Qed.

(** An item whose slug is [__proto__] is stored as the prototype of
    [entries]: no own entry is written, and the reads of the names of the
    fields of an artifact then find the fields of that artifact. *)
Example processItem_proto_slug :
  let item := {| ci_slug := "__proto__"; ci_content := "Hello.";
                 ci_filePath := "src/content/articles/__proto__.md" |} in
  let after := (processItem Items.linkedWorld item Items.config Items.emptyMap
                  false false).1.2 in
  own (am_entries after) = ∅
  ∧ getAudioEntry Items.emptyMap "contentHash" = None
  ∧ getAudioEntry after "contentHash"
    = Some (FoundPrimitive (PrimString "9f86d081"))
  ∧ am_entries (stored after) = am_entries Items.emptyMap.
Proof. vm_compute. done. Qed.

(** X12.  A dry run makes no request: whatever the service, the alignment
    server, the clock and the configuration are, its outcome is the same,
    the audio map is left as it was, and the status is "error" only when
    the speech document could not be built. *)
Theorem processItem_dry_run
    (world world' : World) (item : ContentItem) (config config' : VocaSyncConfig)
    (audioMap : AudioMap) (force : bool) :
  buildSpeechDocument world' item = buildSpeechDocument world item →
  processItem world' item config' audioMap force true
  = processItem world item config audioMap force true
  ∧ (processItem world item config audioMap force true).1.2 = audioMap
  ∧ (sr_status (processItem world item config audioMap force true).1.1 = st_error
     ↔ ∃ e, buildSpeechDocument world item = Throw e).
Proof.
  intros Hsame. unfold processItem, processItemTry. rewrite Hsame.
  destruct (buildSpeechDocument world item) as [speechDoc|e].
  - destruct (negb force && _ && _); cbn [fst snd sr_status plainResult].
    + split; [done|]. split; [done|]. split; [done|]. by intros [e He].
    + split; [done|]. split; [done|]. split.
      * by destruct (isTruthy _).
      * by intros [e He].
  - split; [done|]. split; [done|]. split; [eauto|done].
Qed.

Lemma processItem_dry_run_witness :
  processItem Items.linkedWorld Items.post Items.config Items.emptyMap false true
  = processItem Items.neverLinkedWorld Items.post Items.config Items.emptyMap
                false true
  ∧ (processItem Items.neverLinkedWorld Items.post Items.config Items.emptyMap
       false true).1.2 = Items.emptyMap
  ∧ (sr_status (processItem Items.neverLinkedWorld Items.post Items.config
                  Items.emptyMap false true).1.1 = st_error
     ↔ ∃ e, buildSpeechDocument Items.neverLinkedWorld Items.post = Throw e).
Proof.
  apply (processItem_dry_run Items.neverLinkedWorld Items.linkedWorld Items.post
           Items.config Items.config Items.emptyMap false).
  reflexivity.
Defined.

End ProcessItemExtras.

Section SyncExtras.
Import Core Orchestrator.

Lemma processItem_slug world item config audioMap force dryRun :
  sr_slug (processItem world item config audioMap force dryRun).1.1 = ci_slug item.
Proof.
  destruct (processItem_cases world item config audioMap force dryRun)
    as [(_ & _ & Hslug & _)
       |(speechDoc & response & url & data & _ & _ & _ & Hrun & _)];
    [done|by rewrite Hrun].
Qed.

(** The loop over the items adds one result per item, in order, and counts
    each result once. *)
Lemma syncLoop_counts world config force dryRun items :
  ∀ st,
    ∃ rs,
      ss_results (syncLoop world config force dryRun items st) = ss_results st ++ rs
      ∧ map sr_slug rs = map ci_slug items
      ∧ ss_unchanged (syncLoop world config force dryRun items st)
        = ss_unchanged st + length (List.filter (hasStatus st_unchanged) rs)
      ∧ ss_errors (syncLoop world config force dryRun items st)
        = ss_errors st + length (List.filter (hasStatus st_error) rs)
      ∧ ss_synced (syncLoop world config force dryRun items st)
        = ss_synced st + length (List.filter isSynced rs).
Proof.
  induction items as [|item items IH]; intros st.
  - exists []. simpl. rewrite app_nil_r. repeat split; lia.
  - change (syncLoop world config force dryRun (item :: items) st)
      with (syncLoop world config force dryRun items
              (syncStep world config force dryRun st item)).
    destruct (IH (syncStep world config force dryRun st item))
      as (rs & Hres & Hslugs & Hu & He & Hs).
    set (result := (processItem (later (ss_clockReads st) world) item config
                      (ss_audioMap st) force dryRun).1.1) in *.
    exists (result :: rs).
    rewrite Hres, Hu, He, Hs. unfold syncStep. fold result.
    cbn [ss_results ss_unchanged ss_errors ss_synced map List.filter].
    rewrite <- app_assoc. split; [done|]. split.
    { unfold result. by rewrite processItem_slug, Hslugs. }
    unfold isSynced, hasStatus.
    destruct (sr_status result); simpl; repeat split; lia.
Qed.

(** A run of [sync] that completes, taken apart. *)
Lemma sync_return_inv world files config syncConfig options summary :
  run_completion (sync world files config syncConfig options) = Return summary →
  ∃ loaded,
    loadContent files = Return loaded
    ∧ total summary = length (selectedItems options loaded)
    ∧ map sr_slug (results summary) = map ci_slug (selectedItems options loaded)
    ∧ unchanged summary = length (List.filter (hasStatus st_unchanged) (results summary))
    ∧ errors summary = length (List.filter (hasStatus st_error) (results summary))
    ∧ synced summary = length (List.filter isSynced (results summary))
    ∧ (run_written (sync world files config syncConfig options) = None
       ↔ dryRun options = true ∨ synced summary = 0)
    ∧ (∀ written,
         run_written (sync world files config syncConfig options) = Some written →
         am_updatedAt written = now world).
Proof.
  unfold sync.
  destruct (loadAudioMap files (audioMapPath syncConfig)) as [audioMap|e]; [|done].
  destruct (loadContent files) as [loaded|e]; [|done].
  set (selected := match orUndefined (only options) with
                   | Some slug => List.filter _ loaded
                   | None => loaded
                   end).
  assert (Hsel : selected = selectedItems options loaded).
  { unfold selected, selectedItems, orUndefined.
    destruct (only options) as [slug|]; [|done].
    destruct (decide (slug = "")) as [->|Hne]; [done|].
    by rewrite bool_decide_eq_false_2. }
  destruct (isSome _ && bool_decide (length selected = 0)); [done|].
  cbn zeta.
  set (st0 := {| ss_results := []; ss_unchanged := 0; ss_synced := 0;
                 ss_errors := 0; ss_audioMap := audioMap; ss_log := _;
                 ss_clockReads := 0 |}).
  destruct (syncLoop_counts world config (force options) (dryRun options)
              selected st0) as (rs & Hres & Hslugs & Hu & He & Hs).
  cbn [ss_results ss_unchanged ss_errors ss_synced st0 app Nat.add] in *.
  assert (Hall : ∀ written : option AudioMap,
    (written = None ↔ dryRun options = true
                      ∨ length (List.filter isSynced rs) = 0) →
    (∀ w, written = Some w → am_updatedAt w = now world) →
    ∀ log,
    {| run_completion :=
         Return {| total := length selected;
                   unchanged := ss_unchanged
                     (syncLoop world config (force options) (dryRun options) selected st0);
                   synced := ss_synced
                     (syncLoop world config (force options) (dryRun options) selected st0);
                   errors := ss_errors
                     (syncLoop world config (force options) (dryRun options) selected st0);
                   results := ss_results
                     (syncLoop world config (force options) (dryRun options) selected st0) |};
       run_written := written; run_log := log |}.(run_completion) = Return summary →
    ∃ loaded0,
      Return loaded = Return loaded0
      ∧ total summary = length (selectedItems options loaded0)
      ∧ map sr_slug (results summary) = map ci_slug (selectedItems options loaded0)
      ∧ unchanged summary
        = length (List.filter (hasStatus st_unchanged) (results summary))
      ∧ errors summary = length (List.filter (hasStatus st_error) (results summary))
      ∧ synced summary = length (List.filter isSynced (results summary))
      ∧ (written = None ↔ dryRun options = true ∨ synced summary = 0)
      ∧ (∀ w, written = Some w → am_updatedAt w = now world)).
  { intros written Hw Hstamp log [= <-]. exists loaded.
    cbn [total results unchanged errors synced].
    rewrite Hres, Hu, He, Hs, <- Hsel, Hslugs. repeat split; try done; apply Hw. }
  destruct (negb (dryRun options) && bool_decide (0 < ss_synced _)) eqn:Hsave.
  - apply andb_prop in Hsave as [Hdry Hpos].
    apply negb_true_iff in Hdry. apply bool_decide_eq_true in Hpos.
    unfold saveAudioMap.
    destruct (writeAudioMap files _ _) as [[]|e]; [|done].
    apply Hall.
    + rewrite Hs in Hpos. split; [done|]. intros [Hd|H0]; [congruence|lia].
    + by intros w [= <-].
  - apply Hall; [|done].
    split; [intros _|done].
    apply andb_false_iff in Hsave as [Hdry|Hpos].
    + left. by apply negb_false_iff in Hdry.
    + right. apply bool_decide_eq_false in Hpos. lia.
Qed.

(** X13.  When [sync] completes, its summary holds one result per item it
    went through, in the order of the items and under their slugs, and the
    three counters count these results: the unchanged ones, the ones in
    error, and all the others as synced, so that the counters add up to the
    total. *)
Theorem sync_summary_counts
    (world : World) (files : Files) (config : VocaSyncConfig)
    (syncConfig : SyncConfig) (options : SyncOptions) (summary : SyncSummary) :
  run_completion (sync world files config syncConfig options) = Return summary →
  total summary = length (results summary)
  ∧ total summary = unchanged summary + synced summary + errors summary
  ∧ unchanged summary
    = length (List.filter (fun r => bool_decide (sr_status r = st_unchanged))
                          (results summary))
  ∧ errors summary
    = length (List.filter (fun r => bool_decide (sr_status r = st_error))
                          (results summary))
  ∧ ∃ loaded, loadContent files = Return loaded
              ∧ map sr_slug (results summary)
                = map ci_slug (selectedItems options loaded).
Proof.
  intros Hret.
  apply sync_return_inv in Hret
    as (loaded & Hl & Ht & Hslugs & Hu & He & Hs & _).
  assert (Hlen : length (results summary) = length (selectedItems options loaded)).
  { by rewrite <- (length_map sr_slug), Hslugs, length_map. }
  split; [lia|]. split.
  - rewrite Ht, <- Hlen, Hu, He, Hs. clear.
    induction (results summary) as [|r rs IH]; [done|].
    cbn [length List.filter]. unfold isSynced, hasStatus in *.
    destruct (sr_status r); simpl; lia.
  - split; [done|]. split; [done|]. by exists loaded.
Qed.

Lemma sync_summary_counts_witness :
  total Items.articlesSummary = length (results Items.articlesSummary)
  ∧ total Items.articlesSummary
    = unchanged Items.articlesSummary + synced Items.articlesSummary
      + errors Items.articlesSummary
  ∧ unchanged Items.articlesSummary
    = length (List.filter (fun r => bool_decide (sr_status r = st_unchanged))
                          (results Items.articlesSummary))
  ∧ errors Items.articlesSummary
    = length (List.filter (fun r => bool_decide (sr_status r = st_error))
                          (results Items.articlesSummary))
  ∧ ∃ loaded, loadContent Items.articles = Return loaded
              ∧ map sr_slug (results Items.articlesSummary)
                = map ci_slug (selectedItems Items.allItems loaded).
Proof.
  apply (sync_summary_counts Items.linkedWorld Items.articles Items.config
           Items.syncConfig Items.allItems Items.articlesSummary).
  vm_compute. reflexivity.
Defined.

(** X14.  With a non-empty [only] that is the slug of no loaded item, [sync]
    throws "No content found with slug: " followed by the slug; it processes
    no item and writes no audio map. *)
Theorem sync_only_missing
    (world : World) (files : Files) (config : VocaSyncConfig)
    (syncConfig : SyncConfig) (options : SyncOptions) (slug : string)
    (audioMap : AudioMap) (loaded : list ContentItem) :
  only options = Some slug → slug ≠ "" →
  loadAudioMap files (audioMapPath syncConfig) = Return audioMap →
  loadContent files = Return loaded →
  Forall (fun item => ci_slug item ≠ slug) loaded →
  run_completion (sync world files config syncConfig options)
  = Throw (Error ("No content found with slug: " +:+ slug))
  ∧ run_written (sync world files config syncConfig options) = None
  ∧ run_log (sync world files config syncConfig options)
    = [("Loading audio map...", info);
       ("Loading content from " +:+ collectionName syncConfig +:+ "...", info)].
Proof.
  intros Honly Hne Hmap Hload Hnone. unfold sync.
  rewrite Hmap, Hload, Honly. unfold orUndefined.
  destruct (decide (slug = "")) as [|_]; [done|].
  assert (Hempty : List.filter (fun item => bool_decide (ci_slug item = slug)) loaded = []).
  { clear Hload. induction Hnone as [|item items Hitem _ IH]; [done|].
    cbn [List.filter]. rewrite bool_decide_eq_false_2 by done. exact IH. }
  rewrite Hempty. done.
Qed.

Lemma sync_only_missing_witness :
  run_completion (sync Items.linkedWorld Items.articles Items.config
                    Items.syncConfig
                    {| only := Some "third-post"; force := false; dryRun := false |})
  = Throw (Error ("No content found with slug: " +:+ "third-post"))
  ∧ run_written (sync Items.linkedWorld Items.articles Items.config
                   Items.syncConfig
                   {| only := Some "third-post"; force := false; dryRun := false |})
    = None
  ∧ run_log (sync Items.linkedWorld Items.articles Items.config
               Items.syncConfig
               {| only := Some "third-post"; force := false; dryRun := false |})
    = [("Loading audio map...", info);
       ("Loading content from " +:+ collectionName Items.syncConfig +:+ "...", info)].
Proof.
  apply (sync_only_missing Items.linkedWorld Items.articles Items.config
           Items.syncConfig
           {| only := Some "third-post"; force := false; dryRun := false |}
           "third-post" Items.emptyMap [Items.post; Items.secondPost]);
    try reflexivity.
  - discriminate.
  - repeat constructor; discriminate.
Defined.

(** X15.  A run of [sync] that completes has written the audio map exactly
    when it is no dry run and at least one result is neither unchanged nor
    an error; the map it writes carries the time of the run.  A dry run, and
    a run whose items are all unchanged or in error, leave the file as it
    was. *)
Theorem sync_writes_when_synced
    (world : World) (files : Files) (config : VocaSyncConfig)
    (syncConfig : SyncConfig) (options : SyncOptions) (summary : SyncSummary) :
  run_completion (sync world files config syncConfig options) = Return summary →
  (run_written (sync world files config syncConfig options) = None
   ↔ dryRun options = true
     ∨ Forall (fun r => sr_status r = st_unchanged ∨ sr_status r = st_error)
              (results summary))
  ∧ (∀ written,
       run_written (sync world files config syncConfig options) = Some written →
       am_updatedAt written = now world).
Proof.
  intros Hret.
  apply sync_return_inv in Hret
    as (loaded & _ & _ & _ & _ & _ & Hs & Hw & Hstamp).
  split; [|done]. rewrite Hw, Hs. clear.
  assert (Hcount : length (List.filter isSynced (results summary)) = 0
                   ↔ Forall (fun r => sr_status r = st_unchanged
                                      ∨ sr_status r = st_error) (results summary)).
  { induction (results summary) as [|r rs IH]; [by split; [constructor|]|].
    cbn [List.filter]. unfold isSynced, hasStatus at 1 2.
    split.
    - intros H. destruct (sr_status r) eqn:Hr; simpl in H;
        try (constructor; [by eauto|by apply IH]); done.
    - intros H. apply Forall_cons in H as [[Hr|Hr] H];
        rewrite Hr; simpl; by apply IH. }
  by rewrite Hcount.
Qed.

Lemma sync_writes_when_synced_witness :
  (run_written (sync Items.linkedWorld Items.articles Items.config
                  Items.syncConfig Items.allItems) = None
   ↔ dryRun Items.allItems = true
     ∨ Forall (fun r => sr_status r = st_unchanged ∨ sr_status r = st_error)
              (results Items.articlesSummary))
  ∧ (∀ written,
       run_written (sync Items.linkedWorld Items.articles Items.config
                      Items.syncConfig Items.allItems) = Some written →
       am_updatedAt written = now Items.linkedWorld).
Proof.
  apply (sync_writes_when_synced Items.linkedWorld Items.articles Items.config
           Items.syncConfig Items.allItems Items.articlesSummary).
  vm_compute. reflexivity.
Defined.

(** X16.  [checkConfig] never throws.  It reports a valid configuration
    exactly when the request of the account answers and the content loads;
    a request refused with the status code 401 gives the message of the
    invalid key, and any other failure gives "Configuration error: "
    followed by the message of the exception. *)
Theorem checkConfig_valid
    (toFixed2 : Q -> string) (account : Completion (option Q))
    (content : Completion (list ContentItem)) :
  (cc_valid (checkConfig toFixed2 account content) = true
   ↔ (∃ b, account = Return b) ∧ (∃ items, content = Return items))
  ∧ (∀ m body, account = Throw (VocaSyncAPIError m 401 body) →
       cc_message (checkConfig toFixed2 account content)
       = "Invalid API key. Check your VOCASYNC_API_KEY environment variable.")
  ∧ (∀ e, account = Throw e →
       (∀ m body, e ≠ VocaSyncAPIError m 401 body) →
       cc_message (checkConfig toFixed2 account content)
       = "Configuration error: " +:+ errorMessage e)
  ∧ (∀ b e, account = Return b → content = Throw e →
       cc_message (checkConfig toFixed2 account content)
       = "Configuration error: " +:+ errorMessage e).
Proof.
  unfold checkConfig, Client.validateApiKey.
  split; [|split; [|split]].
  - destruct account as [b|[m code body|m]]; simpl.
    + destruct content as [items|e]; simpl; split; try done; eauto.
      by intros [_ [items Hi]].
    + case_bool_decide; simpl; split; try done; by intros [[b Hb] _].
    + split; [done|]. by intros [[b Hb] _].
  - by intros m body ->.
  - intros e -> Hne. destruct e as [m code body|m]; [|done].
    case_bool_decide as Hcode; [|done]. subst code. by destruct (Hne m body).
  - by intros b e -> ->.
Qed.

(** *** Two runs in a row *)

(** After a call that is no dry run and does not end in an error, for an
    item whose slug is not [__proto__], the item is up to date. *)
Lemma processItem_upToDate world item config audioMap force :
  ci_slug item ≠ "__proto__" →
  sr_status (processItem world item config audioMap force false).1.1 ≠ st_error →
  upToDate world (processItem world item config audioMap force false).1.2 item.
Proof.
  intros Hslug. unfold processItem, processItemTry, upToDate.
  destruct (buildSpeechDocument world item) as [speechDoc|e]; [|done].
  destruct (negb force && _ && _) eqn:Hskip.
  - intros _. cbn [fst snd].
    apply andb_prop in Hskip as [Hskip _].
    apply andb_prop in Hskip as [_ Hsame].
    unfold hasChanged in Hsame. rewrite negb_involutive in Hsame.
    apply bool_decide_eq_true in Hsame.
    unfold getAudioEntry in Hsame.
    destruct (own (am_entries audioMap) !! ci_slug item) as [entry|] eqn:Hown.
    + exists entry, speechDoc. split; [done|]. split; [done|].
      by injection Hsame.
    + destruct (p ← proto (am_entries audioMap); artifactField p (ci_slug item));
        [done|].
      rewrite bool_decide_eq_false_2 in Hsame by done.
      by destruct (bool_decide (ci_slug item ∈ objectPrototypeMembers)).
  - destruct (synthesize world _) as [response|e]; [|done].
    cbn zeta.
    destruct (Client.pollUntilComplete _ _).1 as [finalStatus|e]; [|done].
    destruct (aj ← alignmentJob finalStatus; orUndefined (aj_alignmentUrl aj))
      as [url|]; [|done].
    destruct (getAlignment world url) as [data|e]; [|done].
    intros _. cbn [fst snd]. eexists _, speechDoc.
    unfold setAudioEntry. cbn [am_entries].
    rewrite bool_decide_eq_false_2 by done. cbn [andb own].
    rewrite lookup_insert_eq. done.
Qed.

(** A call for another slug keeps an item up to date. *)
Lemma processItem_keeps_upToDate world world' item config audioMap force dryRun other :
  ci_slug other ≠ ci_slug item →
  upToDate world' audioMap other →
  upToDate world' (processItem world item config audioMap force dryRun).1.2 other.
Proof.
  intros Hne (entry & speechDoc & He & Hb & Hh).
  exists entry, speechDoc. split; [|done].
  destruct (processItem_cases world item config audioMap force dryRun)
    as [(Hmap & _)|(sd' & response & url & data & _ & _ & _ & Hrun & _)].
  - by rewrite Hmap.
  - rewrite Hrun. cbn [fst snd]. by rewrite setAudioEntry_own_ne.
Qed.

Lemma syncLoop_cons world config force dryRun item items st :
  syncLoop world config force dryRun (item :: items) st
  = syncLoop world config force dryRun items
             (syncStep world config force dryRun st item).
Proof. reflexivity. Qed.

Lemma syncLoop_keeps_upToDate world config force dryRun other items :
  ∀ st,
    ci_slug other ∉ map ci_slug items →
    upToDate world (ss_audioMap st) other →
    upToDate world (ss_audioMap (syncLoop world config force dryRun items st)) other.
Proof.
  induction items as [|item items IH]; intros st Hnot Hup; [done|].
  rewrite syncLoop_cons. cbn [map] in Hnot. apply not_elem_of_cons in Hnot as [Hne Hnot].
  apply IH; [done|]. unfold syncStep. cbn [ss_audioMap].
  by apply processItem_keeps_upToDate.
Qed.

(** A loop that is no dry run, over items of distinct slugs other than
    [__proto__], none of which ends in an error, leaves every item up to
    date. *)
Lemma syncLoop_upToDate world config force items :
  NoDup (map ci_slug items) →
  "__proto__" ∉ map ci_slug items →
  ∀ st,
    Forall (fun r => sr_status r ≠ st_error)
           (drop (length (ss_results st))
                 (ss_results (syncLoop world config force false items st))) →
    Forall (upToDate world (ss_audioMap (syncLoop world config force false items st)))
           items.
Proof.
  induction items as [|item items IH]; intros Hnodup Hproto st Hok; [constructor|].
  cbn [map] in Hnodup, Hproto. apply NoDup_cons in Hnodup as [Hnot Hnodup].
  apply not_elem_of_cons in Hproto as [Hslug Hproto].
  rewrite syncLoop_cons in *.
  destruct (syncLoop_counts world config force false items
              (syncStep world config force false st item)) as (rs & Hres & _).
  rewrite Hres in Hok. unfold syncStep at 1 in Hok. cbn [ss_results] in Hok.
  rewrite <- app_assoc, drop_app_length in Hok.
  cbn [app] in Hok. apply Forall_cons in Hok as [Hitem Hrest].
  constructor.
  - apply syncLoop_keeps_upToDate; [done|]. unfold syncStep. cbn [ss_audioMap].
    by apply (processItem_upToDate (later (ss_clockReads st) world)).
  - apply IH; [done|done|]. rewrite Hres.
    unfold syncStep at 1. cbn [ss_results].
    by rewrite drop_app_length.
Qed.

(** Over items that are all up to date, a loop that is not forced finds
    every item unchanged and leaves the audio map as it is. *)
Lemma syncLoop_unchanged world config dryRun items :
  ∀ st,
    Forall (upToDate world (ss_audioMap st)) items →
    ss_audioMap (syncLoop world config false dryRun items st) = ss_audioMap st
    ∧ ss_unchanged (syncLoop world config false dryRun items st)
      = ss_unchanged st + length items
    ∧ ss_synced (syncLoop world config false dryRun items st) = ss_synced st
    ∧ ss_errors (syncLoop world config false dryRun items st) = ss_errors st.
Proof.
  induction items as [|item items IH]; intros st Hup.
  - simpl. repeat split; lia.
  - apply Forall_cons in Hup as [(entry & speechDoc & He & Hb & Hh) Hup].
    rewrite syncLoop_cons.
    assert (Hstep : (processItem (later (ss_clockReads st) world) item config
                       (ss_audioMap st) false dryRun).1
                    = ({| sr_slug := ci_slug item; sr_status := st_unchanged;
                          sr_projectUuid := None; sr_error := None |},
                       ss_audioMap st)).
    { unfold processItem, processItemTry. cbn [later buildSpeechDocument].
      rewrite Hb. unfold getAudioEntry. rewrite He. unfold hasChanged.
      cbn [contentHashOf isTruthy]. rewrite Hh.
      by rewrite bool_decide_eq_true_2. }
    destruct (IH (syncStep world config false dryRun st item)) as (Hm & Hu & Hs & Herr).
    { unfold syncStep. cbn [ss_audioMap]. by rewrite Hstep. }
    rewrite Hm, Hu, Hs, Herr. unfold syncStep. rewrite Hstep.
    cbn [fst snd ss_audioMap ss_unchanged ss_synced ss_errors sr_status length].
    rewrite bool_decide_eq_true_2 by done. repeat split; lia.
Qed.

(** X25.  A second run after a run that wrote the audio map does nothing:
    when the first run ended without an error over items of distinct slugs,
    none of them [__proto__], a run that is not forced, over the same
    content, with the same speech documents and with the audio map read
    back from the file that the first run wrote, finds every item unchanged
    and writes nothing. *)
Theorem sync_twice
    (world world' : World) (files : Files) (config config' : VocaSyncConfig)
    (syncConfig : SyncConfig) (options : SyncOptions) (summary : SyncSummary)
    (written : AudioMap) (dryRun' : bool) :
  run_completion (sync world files config syncConfig options) = Return summary →
  run_written (sync world files config syncConfig options) = Some written →
  errors summary = 0 →
  NoDup (map sr_slug (results summary)) →
  "__proto__" ∉ map sr_slug (results summary) →
  (∀ item, buildSpeechDocument world' item = buildSpeechDocument world item) →
  ∃ summary',
    run_completion
      (sync world'
            {| loadAudioMap := fun _ => Return written;
               loadContent := loadContent files;
               writeAudioMap := writeAudioMap files |}
            config' syncConfig
            {| only := only options; force := false; dryRun := dryRun' |})
    = Return summary'
    ∧ total summary' = total summary
    ∧ unchanged summary' = total summary'
    ∧ synced summary' = 0 ∧ errors summary' = 0
    ∧ run_written
        (sync world'
              {| loadAudioMap := fun _ => Return written;
                 loadContent := loadContent files;
                 writeAudioMap := writeAudioMap files |}
              config' syncConfig
              {| only := only options; force := false; dryRun := dryRun' |})
      = None.
Proof.
  intros Hret Hwritten Herrors Hnodup Hproto Hsame.
  unfold sync in *. cbn [loadAudioMap loadContent writeAudioMap only force dryRun].
  destruct (loadAudioMap files (audioMapPath syncConfig)) as [audioMap|e]; [|done].
  destruct (loadContent files) as [loaded|e]; [|done].
  set (selected := match orUndefined (only options) with
                   | Some slug => List.filter _ loaded
                   | None => loaded
                   end) in *.
  destruct (isSome _ && bool_decide (length selected = 0)); [done|].
  cbn zeta in *.
  set (st0 := {| ss_results := []; ss_unchanged := 0; ss_synced := 0;
                 ss_errors := 0; ss_audioMap := audioMap; ss_log := _;
                 ss_clockReads := 0 |}) in *.
  set (st1 := syncLoop world config (force options) (dryRun options) selected st0) in *.
  destruct (negb (dryRun options) && bool_decide (0 < ss_synced st1)) eqn:Hsave;
    [|done].
  apply andb_prop in Hsave as [Hdry _]. apply negb_true_iff in Hdry.
  unfold saveAudioMap in *.
  destruct (writeAudioMap files _ _) as [[]|e]; [|done].
  cbn [run_completion run_written] in Hret, Hwritten.
  injection Hret as <-. injection Hwritten as <-.
  cbn [errors results total] in *.
  destruct (syncLoop_counts world config (force options) (dryRun options)
              selected st0) as (rs & Hres & Hslugs & _ & Herr & _).
  fold st1 in Hres, Herr. cbn [ss_results ss_errors st0 app Nat.add] in Hres, Herr.
  assert (Hup : Forall (upToDate world (ss_audioMap st1)) selected).
  { unfold st1. rewrite Hdry. apply syncLoop_upToDate.
    - rewrite <- Hslugs, <- Hres. exact Hnodup.
    - rewrite <- Hslugs, <- Hres. exact Hproto.
    - rewrite <- Hdry. fold st1. rewrite Hres. cbn [ss_results st0 length drop].
      rewrite Herr in Herrors. clear -Herrors.
      induction rs as [|r rs IH]; [constructor|].
      cbn [List.filter] in Herrors. unfold hasStatus in Herrors at 1.
      case_bool_decide; [done|]. constructor; [done|by apply IH]. }
  set (reread := stored {| am_version := am_version (ss_audioMap st1);
                           am_updatedAt := now world;
                           am_entries := am_entries (ss_audioMap st1) |}).
  set (st0' := {| ss_results := []; ss_unchanged := 0; ss_synced := 0;
                  ss_errors := 0; ss_audioMap := reread; ss_log := _;
                  ss_clockReads := 0 |}).
  assert (Hup' : Forall (upToDate world' (ss_audioMap st0')) selected).
  { eapply Forall_impl; [exact Hup|].
    intros item (entry & speechDoc & He & Hb & Hh).
    exists entry, speechDoc. by rewrite Hsame. }
  destruct (syncLoop_unchanged world' config' dryRun' selected st0' Hup')
    as (Hm & Hu & Hs & He).
  rewrite Hs. cbn [ss_synced st0'].
  rewrite (bool_decide_eq_false_2 (0 < 0)) by lia. rewrite andb_false_r.
  eexists. split; [done|]. cbn [total unchanged synced errors run_written].
  rewrite Hu, He. cbn [ss_unchanged ss_errors st0']. done.
Qed.

Lemma sync_twice_witness :
  ∃ summary',
    run_completion
      (sync Items.linkedWorld
            {| loadAudioMap := fun _ => Return Items.articlesMap;
               loadContent := loadContent Items.articles;
               writeAudioMap := writeAudioMap Items.articles |}
            Items.config Items.syncConfig
            {| only := only Items.allItems; force := false; dryRun := false |})
    = Return summary'
    ∧ total summary' = total Items.articlesSummary
    ∧ unchanged summary' = total summary'
    ∧ synced summary' = 0 ∧ errors summary' = 0
    ∧ run_written
        (sync Items.linkedWorld
              {| loadAudioMap := fun _ => Return Items.articlesMap;
                 loadContent := loadContent Items.articles;
                 writeAudioMap := writeAudioMap Items.articles |}
              Items.config Items.syncConfig
              {| only := only Items.allItems; force := false; dryRun := false |})
      = None.
Proof.
  apply (sync_twice Items.linkedWorld Items.linkedWorld Items.articles
           Items.config Items.config Items.syncConfig Items.allItems
           Items.articlesSummary Items.articlesMap false).
  - vm_compute. reflexivity.
  - vm_compute. reflexivity.
  - vm_compute. reflexivity.
  - apply (bool_decide_unpack _). vm_compute. reflexivity.
  - apply (bool_decide_unpack _). vm_compute. reflexivity.
  - intros item. reflexivity.
Defined.

(** An item whose slug is [__proto__] is synchronized again by every run:
    the file that the first run writes holds no entry for it. *)
Example sync_twice_proto_slug :
  let files := {| loadAudioMap := fun _ => Return Items.emptyMap;
                  loadContent :=
                    Return [{| ci_slug := "__proto__"; ci_content := "Hello.";
                               ci_filePath := "src/content/articles/__proto__.md" |}];
                  writeAudioMap := fun _ _ => Return () |} in
  let first := sync Items.linkedWorld files Items.config Items.syncConfig
                    Items.allItems in
  let second := sync Items.linkedWorld
                     {| loadAudioMap := fun _ =>
                          Return (default Items.emptyMap (run_written first));
                        loadContent := loadContent files;
                        writeAudioMap := writeAudioMap files |}
                     Items.config Items.syncConfig Items.allItems in
  synced (Items.summaryOf first) = 1
  ∧ (own ∘ am_entries <$> run_written first) = Some ∅
  ∧ synced (Items.summaryOf second) = 1
  ∧ unchanged (Items.summaryOf second) = 0.
Proof. vm_compute. done. Qed.

End SyncExtras.

(** ** The matcher, in general *)

Section MatcherExtras.
Import Rehype.

Variable isLetter : codepoint -> bool.
Variable isNumber : codepoint -> bool.
Variable toLowerCase : ustring -> ustring.
Variable isWhiteSpace : codepoint -> bool.
Variable toFixed3 : Q -> string.

Local Abbreviation exec := (Rehype.exec isLetter isNumber).
Local Abbreviation isWordChar := (Rehype.isWordChar isLetter isNumber).
Local Abbreviation normalizeWord :=
  (Rehype.normalizeWord isLetter isNumber toLowerCase isWhiteSpace).
Local Abbreviation findMatch :=
  (Rehype.findMatch isLetter isNumber toLowerCase isWhiteSpace).
Local Abbreviation matchWord :=
  (Rehype.matchWord isLetter isNumber toLowerCase isWhiteSpace toFixed3).
Local Abbreviation loopBody :=
  (Rehype.loopBody isLetter isNumber toLowerCase isWhiteSpace toFixed3).
Local Abbreviation tokenLoop :=
  (Rehype.tokenLoop isLetter isNumber toLowerCase isWhiteSpace toFixed3).
Local Abbreviation processTextNode :=
  (Rehype.processTextNode isLetter isNumber toLowerCase isWhiteSpace toFixed3).
Local Abbreviation visitor :=
  (Rehype.visitor isLetter isNumber toLowerCase isWhiteSpace toFixed3).
Local Abbreviation wordSpan := (Rehype.wordSpan toFixed3).
Local Abbreviation spansOrdered :=
  (Rehype.spansOrdered isLetter isNumber toLowerCase isWhiteSpace toFixed3).

Lemma processTextNode_eq text words startIndex classPrefix :
  processTextNode text words startIndex classPrefix
  = let st := tokenLoop text words classPrefix (loopStart startIndex) in
    {| nodes := mergeNodes
                  (ls_nodes st ++
                   (if bool_decide (ls_lastEnd st < length text)
                    then [Text (drop (ls_lastEnd st) text)] else []));
       nextWordIndex := ls_wordIndex st |}.
Proof. reflexivity. Qed.

(** The text of the nodes is the text given (the argument of the
    reconstruction, for the lemmas below). *)
Lemma processTextNode_text text words startIndex classPrefix :
  textOf (nodes (processTextNode text words startIndex classPrefix)) = text.
Proof.
  rewrite processTextNode_eq. cbn zeta. cbn [nodes].
  rewrite mergeNodes_text, textOf_app.
  destruct (tokenLoop_invariant isLetter isNumber toLowerCase isWhiteSpace toFixed3
              text words classPrefix
              (fun st => textOf (ls_nodes st) = take (ls_lastEnd st) text
                         ∧ ls_lastEnd st ≤ length text))
    with (st := loopStart startIndex) as [[Htext Hle] _].
  - intros st start word [Hst Hle] Hexec. split.
    + by apply loopBody_text.
    + apply exec_bounds in Hexec. simpl. lia.
  - split; [done|simpl; lia].
  - rewrite Htext. case_bool_decide.
    + rewrite textOf_singleton. cbn [nodeText]. by rewrite take_drop.
    + rewrite take_ge by lia. by rewrite app_nil_r.
Qed.

(** *** The shape of the merged list *)

Lemma adjacentTexts_snoc ns n :
  adjacentTexts (ns ++ [n])
  = adjacentTexts ns
    || match last ns with
       | Some (Text _) => isTextNode n
       | _ => false
       end.
Proof.
  induction ns as [|m ns IH]; [by destruct n|].
  destruct ns as [|m' ns].
  - destruct m, n; done.
  - change ((m :: m' :: ns) ++ [n]) with (m :: (m' :: ns) ++ [n]).
    rewrite last_cons_cons.
    destruct m as [v|tag props children].
    + destruct m' as [v'|tag' props' children']; [done|].
      change (adjacentTexts (Text v :: (Element tag' props' children' :: ns) ++ [n]))
        with (adjacentTexts ((Element tag' props' children' :: ns) ++ [n])).
      by rewrite IH.
    + change (adjacentTexts (Element tag props children :: (m' :: ns) ++ [n]))
        with (adjacentTexts ((m' :: ns) ++ [n])).
      by rewrite IH.
Qed.

Lemma mergeStep_adjacent merged node :
  adjacentTexts merged = false → adjacentTexts (mergeStep merged node) = false.
Proof.
  intros H. unfold mergeStep.
  destruct node as [value|tag props children].
  - destruct (last merged) as [[lastValue|tag props children]|] eqn:Hlast.
    + apply last_Some in Hlast as [front ->].
      rewrite removelast_last. rewrite adjacentTexts_snoc in *.
      apply orb_false_iff in H as [H1 H2]. rewrite H1. simpl.
      by destruct (last front) as [[]|].
    + by rewrite adjacentTexts_snoc, H, Hlast.
    + by rewrite adjacentTexts_snoc, H, Hlast.
  - rewrite adjacentTexts_snoc, H. by destruct (last merged) as [[]|].
Qed.

Lemma mergeNodes_adjacent ns : adjacentTexts (mergeNodes ns) = false.
Proof.
  unfold mergeNodes.
  enough (H : ∀ acc, adjacentTexts acc = false →
                     adjacentTexts (fold_left mergeStep ns acc) = false)
    by by apply H.
  induction ns as [|n ns IH]; intros acc Hacc; [done|].
  simpl. apply IH. by apply mergeStep_adjacent.
Qed.

Lemma mergeStep_nonempty merged node :
  Forall (fun n => n ≠ Text []) merged → node ≠ Text [] →
  Forall (fun n => n ≠ Text []) (mergeStep merged node).
Proof.
  intros Hm Hn. unfold mergeStep.
  destruct node as [value|tag props children].
  - destruct (last merged) as [[lastValue|tag props children]|] eqn:Hlast.
    + apply last_Some in Hlast as [front ->].
      rewrite removelast_last. apply Forall_app in Hm as [Hf Hl].
      apply Forall_app. split; [done|]. constructor; [|constructor].
      apply Forall_singleton in Hl.
      destruct lastValue as [|c lastValue]; [done|]. discriminate.
    + apply Forall_app. split; [done|]. by constructor.
    + apply Forall_app. split; [done|]. by constructor.
  - apply Forall_app. split; [done|]. by constructor.
Qed.

Lemma mergeNodes_nonempty ns :
  Forall (fun n => n ≠ Text []) ns →
  Forall (fun n => n ≠ Text []) (mergeNodes ns).
Proof.
  unfold mergeNodes.
  enough (H : ∀ acc, Forall (fun n => n ≠ Text []) acc →
                     Forall (fun n => n ≠ Text []) ns →
                     Forall (fun n => n ≠ Text []) (fold_left mergeStep ns acc))
    by (by apply H).
  induction ns as [|n ns IH]; intros acc Hacc Hns; [done|].
  apply Forall_cons in Hns as [Hn Hns].
  simpl. apply IH; [|done]. by apply mergeStep_nonempty.
Qed.

(** The nodes pushed by the loop carry text: a separator between two
    matches, a token, and the text after the last match are not empty. *)
Lemma loop_nodes_nonempty text words startIndex classPrefix :
  Forall (fun n => n ≠ Text [])
    (ls_nodes (tokenLoop text words classPrefix (loopStart startIndex))
     ++ (if bool_decide
              (ls_lastEnd (tokenLoop text words classPrefix (loopStart startIndex))
               < length text)
         then [Text (drop
                 (ls_lastEnd (tokenLoop text words classPrefix (loopStart startIndex)))
                 text)]
         else [])).
Proof.
  destruct (tokenLoop_invariant isLetter isNumber toLowerCase isWhiteSpace toFixed3
              text words classPrefix
              (fun st => Forall (fun n => n ≠ Text []) (ls_nodes st)))
    with (st := loopStart startIndex) as [Hnodes _].
  - intros st start word Hst Hexec.
    apply exec_bounds in Hexec as (Hle & Hpos & Hend & Hword).
    unfold Rehype.loopBody. cbn [ls_nodes].
    apply Forall_app. split; [done|]. apply Forall_app. split.
    + case_bool_decide; [|constructor]. constructor; [|constructor].
      intros [= Hslice]. apply (f_equal length) in Hslice.
      unfold slice in Hslice. rewrite length_take, length_drop in Hslice.
      simpl in Hslice. lia.
    + constructor; [|constructor]. unfold Rehype.matchWord.
      destruct (findMatch _ _ _) as [[i c]|]; [done|]. simpl.
      intros [= ->]. simpl in Hpos. lia.
  - constructor.
  - apply Forall_app. split; [done|].
    case_bool_decide; [|constructor]. constructor; [|constructor].
    intros [= Hdrop]. apply (f_equal length) in Hdrop.
    rewrite length_drop in Hdrop. simpl in Hdrop. lia.
Qed.

(** X17.  In the list that [processTextNode] returns no two text nodes
    stand side by side and no text node is empty. *)
Theorem processTextNode_merged
    (text : ustring) (words : list AlignedWord) (startIndex : nat)
    (classPrefix : string) :
  adjacentTexts (nodes (processTextNode text words startIndex classPrefix)) = false
  ∧ Forall (fun n => n ≠ Text [])
           (nodes (processTextNode text words startIndex classPrefix)).
Proof.
  rewrite processTextNode_eq. cbn zeta. cbn [nodes]. split.
  - apply mergeNodes_adjacent.
  - apply mergeNodes_nonempty, loop_nodes_nonempty.
Qed.

(** *** The word spans *)

Lemma elementsOf_app ns1 ns2 :
  elementsOf (ns1 ++ ns2) = elementsOf ns1 ++ elementsOf ns2.
Proof. unfold elementsOf. induction ns1 as [|n ns1 IH]; [done|].
  simpl. destruct (negb (isTextNode n)); simpl; by rewrite IH. Qed.

Lemma mergeStep_elements merged node :
  elementsOf (mergeStep merged node) = elementsOf merged ++ elementsOf [node].
Proof.
  unfold mergeStep.
  destruct node as [value|tag props children].
  - destruct (last merged) as [[lastValue|tag props children]|] eqn:Hlast.
    + apply last_Some in Hlast as [front ->].
      rewrite removelast_last, !elementsOf_app. simpl.
      by rewrite !app_nil_r.
    + by rewrite elementsOf_app.
    + by rewrite elementsOf_app.
  - by rewrite elementsOf_app.
Qed.

(** The merge keeps the elements, and their order. *)
Lemma mergeNodes_elements ns : elementsOf (mergeNodes ns) = elementsOf ns.
Proof.
  unfold mergeNodes.
  enough (H : ∀ acc, elementsOf (fold_left mergeStep ns acc)
                     = elementsOf acc ++ elementsOf ns) by apply (H []).
  induction ns as [|n ns IH]; intros acc; cbn [fold_left].
  - by rewrite app_nil_r.
  - rewrite IH, mergeStep_elements.
    change (n :: ns) with ([n] ++ ns).
    by rewrite (elementsOf_app [n] ns), app_assoc.
Qed.

Lemma spansOrdered_weaken words classPrefix startIndex cursor cursor' spans :
  cursor ≤ cursor' →
  spansOrdered words classPrefix startIndex cursor spans →
  spansOrdered words classPrefix startIndex cursor' spans.
Proof.
  intros Hle [Hall Hsorted]. split; [|done].
  eapply Forall_impl; [exact Hall|]. intros n (i & Hspan & Hi & Hlen).
  exists i. split; [done|]. lia.
Qed.

Lemma spansOrdered_indices words classPrefix startIndex cursor spans :
  spansOrdered words classPrefix startIndex cursor spans →
  Forall (fun i => i < cursor) (omap wordIndexOf spans).
Proof.
  intros [Hall _]. induction Hall as [|n ns (i & (entry & token & -> & _) & Hi & _) _ IH];
    [constructor|].
  simpl. constructor; [lia|done].
Qed.

Lemma loopBody_spans text words classPrefix startIndex st start word :
  startIndex ≤ ls_wordIndex st →
  spansOrdered words classPrefix startIndex (ls_wordIndex st)
               (elementsOf (ls_nodes st)) →
  startIndex ≤ ls_wordIndex (loopBody text words classPrefix st start word)
  ∧ spansOrdered words classPrefix startIndex
      (ls_wordIndex (loopBody text words classPrefix st start word))
      (elementsOf (ls_nodes (loopBody text words classPrefix st start word))).
Proof.
  intros Hstart Hspans. unfold Rehype.loopBody. cbn [ls_nodes ls_wordIndex].
  rewrite !elementsOf_app.
  assert (Hbefore : elementsOf
            (if bool_decide (ls_lastEnd st < start)
             then [Text (slice text (ls_lastEnd st) start)] else []) = [])
    by (by case_bool_decide).
  rewrite Hbefore. cbn [app]. unfold Rehype.matchWord.
  destruct (findMatch words (ls_wordIndex st) (normalizeWord word))
    as [[i entry]|] eqn:Hfind; cbn [fst snd].
  - apply findMatch_Some in Hfind as (Hi & Hlen & Hentry & Hnorm & _).
    split; [lia|].
    pose proof (spansOrdered_indices _ _ _ _ _ Hspans) as Hbelow.
    apply (spansOrdered_weaken _ _ _ _ (i + 1)) in Hspans; [|lia].
    destruct Hspans as [Hall Hsorted]. split.
    + apply Forall_app. split; [done|]. constructor; [|constructor].
      exists i. split; [by exists entry, word|lia].
    + rewrite omap_app. apply StronglySorted_app. split; [|split].
      * intros a b Ha Hb. cbn in Hb. apply list_elem_of_singleton in Hb as ->.
        rewrite Forall_forall in Hbelow. specialize (Hbelow a Ha). lia.
      * done.
      * cbn. repeat constructor.
  - rewrite app_nil_r. done.
Qed.

(** X18.  Every element that [processTextNode] returns is the span of an
    entry of the track: it carries the index [i] of the entry and its two
    times, its one child is the token, and the token and the word of the
    entry have the same normalization.  The indices lie at or after the
    starting cursor and before the returned one, and they grow strictly
    along the list: no entry of the track is used twice. *)
Theorem processTextNode_spans
    (text : ustring) (words : list AlignedWord) (startIndex : nat)
    (classPrefix : string) :
  Forall (fun n =>
            ∃ i entry token,
              n = wordSpan classPrefix i entry token
              ∧ words !! i = Some entry
              ∧ normalizeWord (aw_word entry) = normalizeWord token
              ∧ startIndex ≤ i
                < nextWordIndex (processTextNode text words startIndex classPrefix))
         (elementsOf (nodes (processTextNode text words startIndex classPrefix)))
  ∧ StronglySorted lt
      (omap wordIndexOf
            (elementsOf (nodes (processTextNode text words startIndex classPrefix)))).
Proof.
  rewrite processTextNode_eq. cbn zeta. cbn [nodes nextWordIndex].
  rewrite mergeNodes_elements, elementsOf_app.
  assert (Hrest : ∀ st : LoopState,
            elementsOf (if bool_decide (ls_lastEnd st < length text)
                        then [Text (drop (ls_lastEnd st) text)] else []) = [])
    by (intros st; by case_bool_decide).
  rewrite Hrest, app_nil_r.
  destruct (tokenLoop_invariant isLetter isNumber toLowerCase isWhiteSpace toFixed3
              text words classPrefix
              (fun st => startIndex ≤ ls_wordIndex st
                         ∧ spansOrdered words classPrefix startIndex
                             (ls_wordIndex st) (elementsOf (ls_nodes st))))
    with (st := loopStart startIndex) as [[_ [Hall Hsorted]] _].
  - intros st start word [Hstart Hspans] _. by apply loopBody_spans.
  - split; [done|]. split; constructor.
  - split; [|done]. eapply Forall_impl; [exact Hall|].
    intros n (i & (entry & token & Hn & He & Hnorm) & Hi & _).
    by exists i, entry, token.
Qed.

(** *** Texts without a match *)

(** A list without elements, without two texts side by side and without an
    empty text is empty or one text node. *)
Lemma plain_nodes ns :
  elementsOf ns = [] → adjacentTexts ns = false →
  ns = [] ∨ ∃ value, ns = [Text value].
Proof.
  destruct ns as [|[v|tag props children] ns]; [by left| |done].
  destruct ns as [|[v'|tag props children] ns]; [right; by exists v|done|done].
Qed.

(** The cursor has moved exactly when a span was pushed. *)
Lemma tokenLoop_moved text words classPrefix startIndex :
  ls_wordIndex (tokenLoop text words classPrefix (loopStart startIndex)) = startIndex
  ↔ elementsOf (ls_nodes (tokenLoop text words classPrefix (loopStart startIndex)))
    = [].
Proof.
  destruct (tokenLoop_invariant isLetter isNumber toLowerCase isWhiteSpace toFixed3
              text words classPrefix
              (fun st => startIndex ≤ ls_wordIndex st
                         ∧ (ls_wordIndex st = startIndex
                            ↔ elementsOf (ls_nodes st) = [])))
    with (st := loopStart startIndex) as [[_ H] _]; [|done|done].
  intros st start word [Hstart Hiff] _.
  unfold Rehype.loopBody. cbn [ls_nodes ls_wordIndex].
  rewrite !elementsOf_app.
  assert (Hbefore : elementsOf
            (if bool_decide (ls_lastEnd st < start)
             then [Text (slice text (ls_lastEnd st) start)] else []) = [])
    by (by case_bool_decide).
  rewrite Hbefore. cbn [app]. unfold Rehype.matchWord.
  destruct (findMatch words (ls_wordIndex st) (normalizeWord word))
    as [[i entry]|] eqn:Hfind; cbn [fst snd].
  - apply findMatch_Some in Hfind as (Hi & _).
    split; [lia|]. split; [lia|].
    intros Hnil. apply app_eq_nil in Hnil as [_ Hnil]. done.
  - rewrite app_nil_r. done.
Qed.

Lemma processTextNode_unmatched_aux text words startIndex classPrefix :
  nextWordIndex (processTextNode text words startIndex classPrefix) = startIndex
  ↔ nodes (processTextNode text words startIndex classPrefix)
    = match text with [] => [] | _ => [Text text] end.
Proof.
  pose proof (processTextNode_text text words startIndex classPrefix) as Htext.
  assert (Hadj : adjacentTexts
                   (nodes (processTextNode text words startIndex classPrefix)) = false)
    by apply mergeNodes_adjacent.
  assert (Hne : Forall (fun n => n ≠ Text [])
                  (nodes (processTextNode text words startIndex classPrefix)))
    by apply mergeNodes_nonempty, loop_nodes_nonempty.
  assert (Hel : elementsOf (nodes (processTextNode text words startIndex classPrefix))
                = elementsOf (ls_nodes (tokenLoop text words classPrefix
                                          (loopStart startIndex)))).
  { rewrite processTextNode_eq. cbn zeta. cbn [nodes].
    rewrite mergeNodes_elements, elementsOf_app.
    case_bool_decide; by rewrite app_nil_r. }
  change (nextWordIndex (processTextNode text words startIndex classPrefix))
    with (ls_wordIndex (tokenLoop text words classPrefix (loopStart startIndex))).
  rewrite tokenLoop_moved, <- Hel.
  set (ns := nodes (processTextNode text words startIndex classPrefix)) in *.
  split.
  - intros Hnil. destruct (plain_nodes ns Hnil Hadj) as [Hns|[value Hns]];
      rewrite Hns in *.
    + unfold textOf in Htext. simpl in Htext. by rewrite <- Htext.
    + rewrite textOf_singleton in Htext. cbn [nodeText] in Htext. subst value.
      apply Forall_singleton in Hne. by destruct text.
  - intros ->. by destruct text.
Qed.

(** X19.  The returned cursor is the starting one exactly when nothing was
    matched, and then the text comes back as it was: no node for an empty
    text, and one text node holding the whole text otherwise. *)
Theorem processTextNode_unmatched
    (text : ustring) (words : list AlignedWord) (startIndex : nat)
    (classPrefix : string) :
  nextWordIndex (processTextNode text words startIndex classPrefix) = startIndex
  ↔ nodes (processTextNode text words startIndex classPrefix)
    = match text with [] => [] | _ => [Text text] end.
Proof. apply processTextNode_unmatched_aux. Qed.

Lemma findMatch_exhausted words wordIndex normalizedWord :
  length words ≤ wordIndex → findMatch words wordIndex normalizedWord = None.
Proof.
  intros Hlen. unfold Rehype.findMatch.
  replace (Nat.min (wordIndex + maxLookahead) (length words) - wordIndex) with 0
    by lia.
  done.
Qed.

(** X20.  Once the cursor has reached the end of the track, and so for an
    empty track, nothing is matched any more: every text comes back as it
    was and the cursor stays. *)
Theorem processTextNode_exhausted
    (text : ustring) (words : list AlignedWord) (startIndex : nat)
    (classPrefix : string) :
  length words ≤ startIndex →
  processTextNode text words startIndex classPrefix
  = {| nodes := match text with [] => [] | _ => [Text text] end;
       nextWordIndex := startIndex |}.
Proof.
  intros Hlen.
  assert (Hcursor : nextWordIndex (processTextNode text words startIndex classPrefix)
                    = startIndex).
  { change (nextWordIndex (processTextNode text words startIndex classPrefix))
      with (ls_wordIndex (tokenLoop text words classPrefix (loopStart startIndex))).
    destruct (tokenLoop_invariant isLetter isNumber toLowerCase isWhiteSpace toFixed3
                text words classPrefix
                (fun st => ls_wordIndex st = startIndex))
      with (st := loopStart startIndex) as [H _]; [|done|done].
    intros st start word Hst _. unfold Rehype.loopBody, Rehype.matchWord.
    cbn [ls_wordIndex]. rewrite findMatch_exhausted by lia. done. }
  pose proof (proj1 (processTextNode_unmatched_aux text words startIndex classPrefix)
                Hcursor) as Hnodes.
  destruct (processTextNode text words startIndex classPrefix) as [ns next].
  cbn [nodes nextWordIndex] in *. by subst.
Qed.

(** *** The visitor *)

(** X21.  A call of the visitor on a text node of its parent keeps the text
    of the parent's children: whether it replaces the node or not, the
    concatenated text is the same.  It never moves the shared word index
    backwards, never shortens the list and leaves the children before the
    node as they were. *)
Theorem visitor_keeps_text
    (words : list AlignedWord) (classPrefix : string) (wordIndex : nat)
    (ancestors : list Ancestor) (parentChildren : list Node) (i : nat)
    (value : ustring) :
  parentChildren !! i = Some (Text value) →
  textOf (visitor words classPrefix wordIndex ancestors parentChildren
                  (Some i) value).1
  = textOf parentChildren
  ∧ wordIndex ≤ (visitor words classPrefix wordIndex ancestors parentChildren
                         (Some i) value).2
  ∧ length parentChildren
    ≤ length (visitor words classPrefix wordIndex ancestors parentChildren
                      (Some i) value).1
  ∧ take i (visitor words classPrefix wordIndex ancestors parentChildren
                    (Some i) value).1
    = take i parentChildren.
Proof.
  intros Hi. unfold Rehype.visitor.
  destruct (isInNonTextualElement ancestors); [by repeat split|].
  pose proof (processTextNode_text value words wordIndex classPrefix) as Htext.
  pose proof (processTextNode_cursor isLetter isNumber toLowerCase isWhiteSpace
                toFixed3 value words wordIndex classPrefix) as [Hle _].
  set (result := processTextNode value words wordIndex classPrefix) in *.
  destruct (bool_decide (length (nodes result) = 0)
            || bool_decide (length (nodes result) = 1)) eqn:Hfew;
    [by repeat split|].
  apply orb_false_iff in Hfew as [H0 H1].
  apply bool_decide_eq_false in H0. apply bool_decide_eq_false in H1.
  pose proof (lookup_lt_Some _ _ _ Hi) as Hlt.
  cbn [fst snd].
  assert (Hpc : textOf parentChildren
                = textOf (take i parentChildren) ++ value
                  ++ textOf (drop (S i) parentChildren)).
  { rewrite <- (take_drop_middle parentChildren i (Text value) Hi) at 1.
    change (Text value :: drop (S i) parentChildren)
      with ([Text value] ++ drop (S i) parentChildren).
    by rewrite !textOf_app, textOf_singleton. }
  split; [by rewrite Hpc, !textOf_app, Htext|].
  split; [done|]. split.
  - rewrite !length_app, length_take, length_drop. lia.
  - rewrite take_app_length'; [done|]. rewrite length_take. lia.
Qed.

End MatcherExtras.

(** ** A token in its text *)

Section MatcherTokens.
Import Rehype.

Variable isLetter : codepoint -> bool.
Variable isNumber : codepoint -> bool.
Variable toLowerCase : ustring -> ustring.
Variable isWhiteSpace : codepoint -> bool.
Variable toFixed3 : Q -> string.

Local Abbreviation isWordChar := (Rehype.isWordChar isLetter isNumber).
Local Abbreviation normalizeWord :=
  (Rehype.normalizeWord isLetter isNumber toLowerCase isWhiteSpace).
Local Abbreviation findMatch :=
  (Rehype.findMatch isLetter isNumber toLowerCase isWhiteSpace).
Local Abbreviation processTextNode :=
  (Rehype.processTextNode isLetter isNumber toLowerCase isWhiteSpace toFixed3).
Local Abbreviation wordSpan := (Rehype.wordSpan toFixed3).

(** C5.  For every token of a text, the matcher accepts the first entry of
    the track at an index [i] with [cursor <= i < cursor + 10] whose
    normalization is that of the token; an entry further ahead is never
    accepted.  The text is [pre ++ token ++ post], the token being a run of
    word characters with no word character next to it, and [cursor] is the
    cursor that the processing of [pre], the text before the token, returns.
    When [i] is the first index of the ten from the cursor whose entry has
    the normalization of the token, the nodes of the text are those of
    [pre], the span of that entry around the token, and those of [post]
    processed from [i + 1].  When no entry of the ten has the normalization
    of the token, whatever the entries further ahead are, the token is
    rendered as plain text, merged with the text around it: no span is made
    for it, and [post] is processed from the same cursor.  The
    normalization is the lower-cased word without its characters that are
    neither letters nor numbers. *)
Theorem processTextNode_lookahead
    (pre token post : ustring) (words : list AlignedWord)
    (startIndex cursor : nat) (classPrefix : string) :
  token ≠ [] → forallb isWordChar token = true →
  (∀ c, last pre = Some c → isWordChar c = false) →
  (∀ c, head post = Some c → isWordChar c = false) →
  nextWordIndex (processTextNode pre words startIndex classPrefix) = cursor →
  (∀ i entry,
     cursor ≤ i < cursor + 10 → words !! i = Some entry →
     normalizeWord (aw_word entry) = normalizeWord token →
     (∀ j e, cursor ≤ j < i → words !! j = Some e →
             normalizeWord (aw_word e) ≠ normalizeWord token) →
     processTextNode (pre ++ token ++ post) words startIndex classPrefix
     = {| nodes :=
            nodes (processTextNode pre words startIndex classPrefix)
            ++ wordSpan classPrefix i entry token
            :: nodes (processTextNode post words (i + 1) classPrefix);
          nextWordIndex :=
            nextWordIndex (processTextNode post words (i + 1) classPrefix) |})
  ∧ ((∀ j e, cursor ≤ j < cursor + 10 → words !! j = Some e →
             normalizeWord (aw_word e) ≠ normalizeWord token) →
     processTextNode (pre ++ token ++ post) words startIndex classPrefix
     = {| nodes :=
            mergeNodes
              (nodes (processTextNode pre words startIndex classPrefix)
               ++ Text token
               :: nodes (processTextNode post words cursor classPrefix));
          nextWordIndex :=
            nextWordIndex (processTextNode post words cursor classPrefix) |}
     ∧ elementsOf
         (nodes (processTextNode (pre ++ token ++ post) words startIndex
                   classPrefix))
       = elementsOf (nodes (processTextNode pre words startIndex classPrefix))
         ++ elementsOf (nodes (processTextNode post words cursor classPrefix)))
  ∧ ((∀ c, isWhiteSpace c = true → isLetter c || isNumber c = false) →
     normalizeWord token
     = List.filter (fun c => isLetter c || isNumber c) (toLowerCase token)).
Proof.
  intros Hne Hall Hpre Hpost Hcursor.
  pose proof (processTextNode_at_token isLetter isNumber toLowerCase isWhiteSpace
                toFixed3 pre token post words startIndex classPrefix
                Hne Hall Hpre Hpost) as Hat.
  rewrite Hcursor in Hat. unfold Rehype.matchWord in Hat.
  split; [|split].
  - intros i entry Hi Hentry Hnorm Hfirst.
    rewrite (findMatch_first isLetter isNumber toLowerCase isWhiteSpace
               words cursor _ i entry Hi Hentry Hnorm Hfirst) in Hat.
    cbn [fst snd] in Hat. rewrite Hat. f_equal.
    unfold Rehype.wordSpan. rewrite mergeNodes_element.
    unfold Rehype.processTextNode. cbn [nodes]. by rewrite !mergeNodes_merged.
  - intros Hnone.
    destruct (findMatch words cursor (normalizeWord token)) as [[j e]|] eqn:Hfind.
    { apply findMatch_Some in Hfind as (Hj & _ & He & Hn & _).
      exfalso. by eapply Hnone. }
    cbn [fst snd] in Hat. split; [done|].
    rewrite Hat. cbn [nodes].
    by rewrite mergeNodes_elements, elementsOf_app.
  - intros Hws. by apply normalizeWord_strips.
Qed.

End MatcherTokens.

Section MatcherTokensRuns.
Import Rehype.

Lemma processTextNode_lookahead_witness :
  (∀ i entry,
     1 ≤ i < 1 + 10 → AsciiEngine.catAtTen !! i = Some entry →
     AsciiEngine.normalizeWord (aw_word entry)
     = AsciiEngine.normalizeWord (AsciiEngine.codes "Cat") →
     (∀ j e, 1 ≤ j < i → AsciiEngine.catAtTen !! j = Some e →
             AsciiEngine.normalizeWord (aw_word e)
             ≠ AsciiEngine.normalizeWord (AsciiEngine.codes "Cat")) →
     AsciiEngine.processTextNode
       (AsciiEngine.codes "A " ++ AsciiEngine.codes "Cat" ++ AsciiEngine.codes " sat.")
       AsciiEngine.catAtTen 1 "vocasync"
     = {| nodes :=
            nodes (AsciiEngine.processTextNode (AsciiEngine.codes "A ")
                     AsciiEngine.catAtTen 1 "vocasync")
            ++ AsciiEngine.wordSpan "vocasync" i entry (AsciiEngine.codes "Cat")
            :: nodes (AsciiEngine.processTextNode (AsciiEngine.codes " sat.")
                        AsciiEngine.catAtTen (i + 1) "vocasync");
          nextWordIndex :=
            nextWordIndex (AsciiEngine.processTextNode (AsciiEngine.codes " sat.")
                             AsciiEngine.catAtTen (i + 1) "vocasync") |})
  ∧ ((∀ j e, 1 ≤ j < 1 + 10 → AsciiEngine.catAtTen !! j = Some e →
             AsciiEngine.normalizeWord (aw_word e)
             ≠ AsciiEngine.normalizeWord (AsciiEngine.codes "Cat")) →
     AsciiEngine.processTextNode
       (AsciiEngine.codes "A " ++ AsciiEngine.codes "Cat" ++ AsciiEngine.codes " sat.")
       AsciiEngine.catAtTen 1 "vocasync"
     = {| nodes :=
            mergeNodes
              (nodes (AsciiEngine.processTextNode (AsciiEngine.codes "A ")
                        AsciiEngine.catAtTen 1 "vocasync")
               ++ Text (AsciiEngine.codes "Cat")
               :: nodes (AsciiEngine.processTextNode (AsciiEngine.codes " sat.")
                           AsciiEngine.catAtTen 1 "vocasync"));
          nextWordIndex :=
            nextWordIndex (AsciiEngine.processTextNode (AsciiEngine.codes " sat.")
                             AsciiEngine.catAtTen 1 "vocasync") |}
     ∧ elementsOf
         (nodes (AsciiEngine.processTextNode
                   (AsciiEngine.codes "A " ++ AsciiEngine.codes "Cat"
                      ++ AsciiEngine.codes " sat.")
                   AsciiEngine.catAtTen 1 "vocasync"))
       = elementsOf (nodes (AsciiEngine.processTextNode (AsciiEngine.codes "A ")
                              AsciiEngine.catAtTen 1 "vocasync"))
         ++ elementsOf (nodes (AsciiEngine.processTextNode
                                 (AsciiEngine.codes " sat.")
                                 AsciiEngine.catAtTen 1 "vocasync")))
  ∧ ((∀ c, AsciiEngine.isWhiteSpace c = true →
           AsciiEngine.isLetter c || AsciiEngine.isNumber c = false) →
     AsciiEngine.normalizeWord (AsciiEngine.codes "Cat")
     = List.filter (fun c => AsciiEngine.isLetter c || AsciiEngine.isNumber c)
                   (AsciiEngine.toLowerCase (AsciiEngine.codes "Cat"))).
Proof.
  apply (processTextNode_lookahead AsciiEngine.isLetter AsciiEngine.isNumber
           AsciiEngine.toLowerCase AsciiEngine.isWhiteSpace AsciiEngine.toFixed3
           (AsciiEngine.codes "A ") (AsciiEngine.codes "Cat")
           (AsciiEngine.codes " sat.") AsciiEngine.catAtTen 1 1 "vocasync").
  - discriminate.
  - reflexivity.
  - intros c [= <-]. reflexivity.
  - intros c [= <-]. reflexivity.
  - vm_compute. reflexivity.
Defined.

(** The entry "cat" at index 10 is matched from the cursor 1 and not from
    the cursor 0, from which it is the eleventh entry. *)
Example processTextNode_window :
  AsciiEngine.processTextNode (AsciiEngine.codes "A Cat sat.")
    AsciiEngine.catAtTen 1 "vocasync"
  = {| nodes := [Text (AsciiEngine.codes "A ");
                 AsciiEngine.wordSpan "vocasync" 10 (AsciiEngine.aligned "cat" 0 1)
                   (AsciiEngine.codes "Cat");
                 Text (AsciiEngine.codes " sat.")];
       nextWordIndex := 11 |}
  ∧ AsciiEngine.processTextNode (AsciiEngine.codes "A Cat sat.")
      AsciiEngine.catAtTen 0 "vocasync"
    = {| nodes := [Text (AsciiEngine.codes "A Cat sat.")]; nextWordIndex := 0 |}.
Proof. split; vm_compute; reflexivity. Qed.

End MatcherTokensRuns.


Section MatcherExtrasRuns.
Import Rehype.

Lemma visitor_keeps_text_witness :
  textOf (AsciiEngine.visitor AsciiEngine.theCatSat "vocasync" 0
            [ARoot; AElement "p" None]
            [Element "em" None [Text (AsciiEngine.codes "Look:")];
             Text (AsciiEngine.codes " the cat sat.")]
            (Some 1) (AsciiEngine.codes " the cat sat.")).1
  = textOf [Element "em" None [Text (AsciiEngine.codes "Look:")];
            Text (AsciiEngine.codes " the cat sat.")]
  ∧ 0 ≤ (AsciiEngine.visitor AsciiEngine.theCatSat "vocasync" 0
           [ARoot; AElement "p" None]
           [Element "em" None [Text (AsciiEngine.codes "Look:")];
            Text (AsciiEngine.codes " the cat sat.")]
           (Some 1) (AsciiEngine.codes " the cat sat.")).2
  ∧ length [Element "em" None [Text (AsciiEngine.codes "Look:")];
            Text (AsciiEngine.codes " the cat sat.")]
    ≤ length (AsciiEngine.visitor AsciiEngine.theCatSat "vocasync" 0
                [ARoot; AElement "p" None]
                [Element "em" None [Text (AsciiEngine.codes "Look:")];
                 Text (AsciiEngine.codes " the cat sat.")]
                (Some 1) (AsciiEngine.codes " the cat sat.")).1
  ∧ take 1 (AsciiEngine.visitor AsciiEngine.theCatSat "vocasync" 0
              [ARoot; AElement "p" None]
              [Element "em" None [Text (AsciiEngine.codes "Look:")];
               Text (AsciiEngine.codes " the cat sat.")]
              (Some 1) (AsciiEngine.codes " the cat sat.")).1
    = take 1 [Element "em" None [Text (AsciiEngine.codes "Look:")];
              Text (AsciiEngine.codes " the cat sat.")].
Proof.
  apply (visitor_keeps_text AsciiEngine.isLetter AsciiEngine.isNumber
           AsciiEngine.toLowerCase AsciiEngine.isWhiteSpace AsciiEngine.toFixed3
           AsciiEngine.theCatSat "vocasync" 0
           [ARoot; AElement "p" None]
           [Element "em" None [Text (AsciiEngine.codes "Look:")];
            Text (AsciiEngine.codes " the cat sat.")]
           1 (AsciiEngine.codes " the cat sat.")).
  reflexivity.
Defined.

Lemma processTextNode_exhausted_witness :
  AsciiEngine.processTextNode (AsciiEngine.codes "The cat sat.")
    AsciiEngine.theCatSat 3 "vocasync"
  = {| nodes := match AsciiEngine.codes "The cat sat." with
                | [] => []
                | _ => [Text (AsciiEngine.codes "The cat sat.")]
                end;
       nextWordIndex := 3 |}.
Proof.
  apply (processTextNode_exhausted AsciiEngine.isLetter AsciiEngine.isNumber
           AsciiEngine.toLowerCase AsciiEngine.isWhiteSpace AsciiEngine.toFixed3
           (AsciiEngine.codes "The cat sat.") AsciiEngine.theCatSat 3 "vocasync").
  simpl. lia.
Defined.

End MatcherExtrasRuns.


(** ** The ancestors test and the audio map cache *)

Section RehypeExtras.
Import Rehype.

Lemma nonTextualClasses_listed cls :
  cls ∈ nonTextualClasses
  ↔ cls ∈ ["katex"; "katex-mathml"; "katex-html"; "mjx-container"].
Proof.
  unfold nonTextualClasses.
  rewrite !elem_of_union, !elem_of_singleton, !elem_of_cons, elem_of_nil. tauto.
Qed.

Lemma nonTextualTags_listed tagName :
  tagName ∈ nonTextualTags
  ↔ tagName ∈ ["code"; "pre"; "script"; "style"; "svg"; "math"].
Proof.
  unfold nonTextualTags.
  rewrite !elem_of_union, !elem_of_singleton, !elem_of_cons, elem_of_nil. tauto.
Qed.

Lemma isNonTextualClass_iff v :
  isNonTextualClass v = true
  ↔ ∃ cls, v = PString cls
           ∧ cls ∈ ["katex"; "katex-mathml"; "katex-html"; "mjx-container"].
Proof.
  destruct v as [cls|n|b]; simpl.
  - rewrite bool_decide_eq_true, nonTextualClasses_listed. split.
    + intros H. by exists cls.
    + by intros (cls' & [= <-] & H).
  - split; [done|]. by intros (cls & ? & _).
  - split; [done|]. by intros (cls & ? & _).
Qed.

Lemma isNonTextualClass_truthy v : isNonTextualClass v = true → truthy v = true.
Proof.
  intros Hv. apply isNonTextualClass_iff in Hv as (cls & -> & Hcls). simpl.
  apply negb_true_iff, bool_decide_eq_false. intros ->.
  rewrite !elem_of_cons, elem_of_nil in Hcls.
  destruct Hcls as [?|[?|[?|[?|[]]]]]; discriminate.
Qed.

(** What makes one ancestor non-textual. *)
Lemma isNonTextual_iff ancestor :
  isNonTextual ancestor = true
  ↔ ∃ tagName properties,
      ancestor = AElement tagName properties
      ∧ (tagName ∈ ["code"; "pre"; "script"; "style"; "svg"; "math"]
         ∨ ∃ cls, cls ∈ ["katex"; "katex-mathml"; "katex-html"; "mjx-container"]
                  ∧ PString cls ∈ classList properties).
Proof.
  destruct ancestor as [|tagName properties]; simpl.
  { split; [done|]. by intros (? & ? & ? & _). }
  rewrite orb_true_iff, bool_decide_eq_true, nonTextualTags_listed.
  split.
  - intros [Htag|Hcls]; exists tagName, properties; (split; [done|]).
    + by left.
    + right. unfold classList.
      destruct (properties ≫= className) as [[v|classes]|]; [| |done].
      * apply andb_prop in Hcls as [_ Hv]. simpl in Hv.
        rewrite orb_false_r in Hv.
        apply isNonTextualClass_iff in Hv as (cls & -> & Hcls).
        exists cls. split; [done|]. by apply list_elem_of_singleton.
      * apply existsb_exists in Hcls as (v & Hin & Hv).
        apply isNonTextualClass_iff in Hv as (cls & -> & Hcls).
        exists cls. split; [done|]. by apply list_elem_of_In.
  - intros (tagName' & properties' & [= <- <-] & [Htag|(cls & Hcls & Hin)]).
    + by left.
    + right. unfold classList in Hin.
      assert (Hv : isNonTextualClass (PString cls) = true)
        by (apply isNonTextualClass_iff; by exists cls).
      destruct (properties ≫= className) as [[v|classes]|].
      * apply list_elem_of_singleton in Hin as <-.
        rewrite (isNonTextualClass_truthy _ Hv). cbn [existsb andb].
        by rewrite Hv.
      * apply existsb_exists. exists (PString cls).
        split; [by apply list_elem_of_In|done].
      * by apply elem_of_nil in Hin.
Qed.

(** X22.  [isInNonTextualElement] holds exactly when one of the ancestors is
    an element whose tag is one of [code], [pre], [script], [style], [svg],
    [math], or whose class list holds one of the strings [katex],
    [katex-mathml], [katex-html], [mjx-container]: a text with no such
    ancestor is never skipped for its ancestors.  The root, and a class
    given inside a longer string, do not count. *)
Theorem isInNonTextualElement_iff (ancestors : list Ancestor) :
  isInNonTextualElement ancestors = true
  ↔ ∃ tagName properties,
      AElement tagName properties ∈ ancestors
      ∧ (tagName ∈ ["code"; "pre"; "script"; "style"; "svg"; "math"]
         ∨ ∃ cls, cls ∈ ["katex"; "katex-mathml"; "katex-html"; "mjx-container"]
                  ∧ PString cls ∈ classList properties).
Proof.
  induction ancestors as [|a rest IH]; simpl.
  - split; [done|]. intros (? & ? & Hin & _). by apply elem_of_nil in Hin.
  - destruct (isNonTextual a) eqn:Ha.
    + split; [intros _|done].
      apply isNonTextual_iff in Ha as (tagName & properties & -> & Hwhy).
      exists tagName, properties. split; [by left|done].
    + rewrite IH. split.
      * intros (tagName & properties & Hin & Hwhy).
        exists tagName, properties. split; [by right|done].
      * intros (tagName & properties & Hin & Hwhy).
        apply elem_of_cons in Hin as [Heq|Hin].
        { subst a. assert (isNonTextual (AElement tagName properties) = true)
            by (apply isNonTextual_iff; eauto). congruence. }
        by exists tagName, properties.
Qed.

(** A class inside a longer string is not seen. *)
Example isInNonTextualElement_joined_classes :
  isInNonTextualElement
    [ARoot;
     AElement "span"
       (Some {| className := Some (ClassSingle (PString "katex katex-display"));
                dataWordIndex := None; dataStart := None; dataEnd := None |})]
  = false.
Proof. vm_compute. reflexivity. Qed.

(** While the read of every other path throws, the cache stays. *)
Lemma runLoads_keeps disk path map paths :
  (∀ n other, other ≠ path → disk n other = ReadThrows) →
  ∀ st,
    audioMapCache st = Some map → audioMapCachePath st = Some path →
    audioMapCache (runLoads disk paths st) = Some map
    ∧ audioMapCachePath (runLoads disk paths st) = Some path
    ∧ reads (runLoads disk paths st)
      = reads st ++ List.filter (fun p => negb (bool_decide (p = path))) paths.
Proof.
  intros Hothers. induction paths as [|p paths IH]; intros st Hm Hp.
  - simpl. by rewrite app_nil_r.
  - change (runLoads disk (p :: paths) st)
      with (runLoads disk paths (loadAudioMapSync disk p st).2).
    assert (Hstep : (loadAudioMapSync disk p st).2
                    = if bool_decide (p = path) then st
                      else {| audioMapCache := audioMapCache st;
                              audioMapCachePath := audioMapCachePath st;
                              reads := reads st ++ [p] |}).
    { unfold loadAudioMapSync. rewrite Hm, Hp. cbn [isSome andb].
      destruct (decide (p = path)) as [->|Hne].
      - by rewrite !bool_decide_eq_true_2.
      - rewrite bool_decide_eq_false_2 by congruence.
        rewrite (bool_decide_eq_false_2 (p = path)) by done.
        by rewrite (Hothers _ p Hne). }
    rewrite Hstep. cbn [List.filter]. case_bool_decide; cbn [negb].
    + by apply IH.
    + destruct (IH {| audioMapCache := audioMapCache st;
                      audioMapCachePath := audioMapCachePath st;
                      reads := reads st ++ [p] |}) as (H1 & H2 & H3); [done|done|].
      rewrite H1, H2, H3. cbn [reads]. by rewrite <- app_assoc.
Qed.

(** X23.  Once an audio map is cached for a path, every load of that path
    returns the cached map without reading the file, whatever the file has
    become, as long as the read of every other path loaded in between
    throws (the file is missing, or is no JSON): the reads made are those
    of the other paths only.  A file at another path that parses, be it to
    [null], takes the place of the cached map, and the next load of the
    first path reads its file again. *)
Theorem loadAudioMapSync_cached
    (disk : Disk) (path : string) (map : Core.AudioMap) (st : MapCache) :
  audioMapCache st = Some map → audioMapCachePath st = Some path →
  (∀ paths,
     (∀ n other, other ≠ path → disk n other = ReadThrows) →
     loadAudioMapSync disk path (runLoads disk paths st)
     = (Some map, runLoads disk paths st)
     ∧ reads (runLoads disk paths st)
       = reads st ++ List.filter (fun p => negb (bool_decide (p = path))) paths)
  ∧ (∀ other parsed,
       other ≠ path →
       disk (length (reads st)) other = ReadValue parsed →
       audioMapCache (loadAudioMapSync disk other st).2 = parsed
       ∧ audioMapCachePath (loadAudioMapSync disk other st).2 = Some other
       ∧ reads (loadAudioMapSync disk path (loadAudioMapSync disk other st).2).2
         = reads st ++ [other; path]).
Proof.
  intros Hm Hp. split.
  - intros paths Hothers.
    destruct (runLoads_keeps disk path map paths Hothers st Hm Hp) as (H1 & H2 & H3).
    split; [|done]. unfold loadAudioMapSync. rewrite H1, H2. cbn [isSome andb].
    by rewrite bool_decide_eq_true_2.
  - intros other parsed Hne Hread.
    assert (Hstep : (loadAudioMapSync disk other st).2
                    = {| audioMapCache := parsed;
                         audioMapCachePath := Some other;
                         reads := reads st ++ [other] |}).
    { unfold loadAudioMapSync. rewrite Hm, Hp. cbn [isSome andb].
      rewrite bool_decide_eq_false_2 by congruence. by rewrite Hread. }
    rewrite Hstep. split; [done|]. split; [done|].
    unfold loadAudioMapSync. cbn [audioMapCache audioMapCachePath reads].
    rewrite (bool_decide_eq_false_2 (Some other = Some path)) by congruence.
    rewrite andb_false_r.
    destruct (disk _ path); cbn [snd reads]; by rewrite <- app_assoc.
Qed.

Lemma loadAudioMapSync_cached_witness :
  (∀ paths,
     (∀ n other, other ≠ ".vocasync/audio-map.json" →
                 Servers.mapFile n other = ReadThrows) →
     loadAudioMapSync Servers.mapFile ".vocasync/audio-map.json"
       (runLoads Servers.mapFile paths
          (loadAudioMapSync Servers.mapFile ".vocasync/audio-map.json"
             noMapCache).2)
     = (Some Items.emptyMap,
        runLoads Servers.mapFile paths
          (loadAudioMapSync Servers.mapFile ".vocasync/audio-map.json"
             noMapCache).2)
     ∧ reads (runLoads Servers.mapFile paths
                (loadAudioMapSync Servers.mapFile ".vocasync/audio-map.json"
                   noMapCache).2)
       = reads (loadAudioMapSync Servers.mapFile ".vocasync/audio-map.json"
                  noMapCache).2
         ++ List.filter
              (fun p => negb (bool_decide (p = ".vocasync/audio-map.json")))
              paths)
  ∧ (∀ other parsed,
       other ≠ ".vocasync/audio-map.json" →
       Servers.mapFile
         (length (reads (loadAudioMapSync Servers.mapFile
                           ".vocasync/audio-map.json" noMapCache).2))
         other
       = ReadValue parsed →
       audioMapCache
         (loadAudioMapSync Servers.mapFile other
            (loadAudioMapSync Servers.mapFile ".vocasync/audio-map.json"
               noMapCache).2).2
       = parsed
       ∧ audioMapCachePath
           (loadAudioMapSync Servers.mapFile other
              (loadAudioMapSync Servers.mapFile ".vocasync/audio-map.json"
                 noMapCache).2).2
         = Some other
       ∧ reads
           (loadAudioMapSync Servers.mapFile ".vocasync/audio-map.json"
              (loadAudioMapSync Servers.mapFile other
                 (loadAudioMapSync Servers.mapFile ".vocasync/audio-map.json"
                    noMapCache).2).2).2
         = reads (loadAudioMapSync Servers.mapFile ".vocasync/audio-map.json"
                    noMapCache).2
           ++ [other; ".vocasync/audio-map.json"]).
Proof.
  apply (loadAudioMapSync_cached Servers.mapFile ".vocasync/audio-map.json"
           Items.emptyMap).
  - reflexivity.
  - reflexivity.
Defined.

(** With the audio map cached, three more loads of its path and one of a
    path that cannot be read make one read, that of the other path. *)
Example loadAudioMapSync_reads_once :
  reads (runLoads Servers.mapFile
           [".vocasync/audio-map.json"; "audio-map.json";
            ".vocasync/audio-map.json"; ".vocasync/audio-map.json"]
           noMapCache)
  = [".vocasync/audio-map.json"; "audio-map.json"].
Proof. vm_compute. reflexivity. Qed.

(** A file that holds [null] at another path empties the cache: the audio
    map is read again. *)
Example loadAudioMapSync_null_file :
  reads (runLoads Servers.nullFile
           [".vocasync/audio-map.json"; "null.json"; ".vocasync/audio-map.json"]
           noMapCache)
  = [".vocasync/audio-map.json"; "null.json"; ".vocasync/audio-map.json"].
Proof. vm_compute. reflexivity. Qed.

End RehypeExtras.

(** ** The command line *)

Section CliExtras.
Import Cli.

Lemma substring_all (s : string) : String.substring 0 (String.length s) s = s.
Proof. induction s as [|a s IH]; [done|]. simpl. by rewrite IH. Qed.

Lemma isFlag_written key : isFlag ("--" +:+ key) = true.
Proof. unfold isFlag. simpl. by destruct key. Qed.

Lemma flagKey_written key : flagKey ("--" +:+ key) = key.
Proof.
  unfold flagKey. simpl. rewrite Nat.sub_0_r. apply substring_all.
Qed.

(** The arguments that are no flags, once the command is known, are the
    positional ones. *)
Lemma parseLoop_positional pos rest st :
  command st ≠ "" → Forall (fun p => isFlag p = false) pos →
  parseLoop (pos ++ rest) st
  = parseLoop rest {| command := command st; options := options st;
                      positional := positional st ++ pos |}.
Proof.
  intros Hcmd Hpos. revert st Hcmd.
  induction Hpos as [|p pos Hp _ IH]; intros st Hcmd.
  - simpl. rewrite app_nil_r. by destruct st.
  - cbn [app parseLoop]. rewrite Hp.
    rewrite bool_decide_eq_false_2 by done.
    rewrite IH by done. cbn [command options positional].
    by rewrite <- app_assoc.
Qed.

(** What follows a written option is the end of the line or a flag. *)
Lemma written_head written :
  flat_map writeOption written = []
  ∨ ∃ key rest, flat_map writeOption written = ("--" +:+ key) :: rest.
Proof.
  destruct written as [|[key [value|]] written]; [by left| |]; right; eauto.
Qed.

Lemma parseLoop_flag_alone key rest st :
  (rest = [] ∨ ∃ key' rest', rest = ("--" +:+ key') :: rest') →
  parseLoop (("--" +:+ key) :: rest) st
  = parseLoop rest {| command := command st;
                      options := setOption key OptTrue (options st);
                      positional := positional st |}.
Proof.
  intros [->|(key' & rest' & ->)]; cbn [parseLoop];
    rewrite isFlag_written, flagKey_written; [done|].
  by rewrite isFlag_written, andb_false_r.
Qed.

Lemma parseLoop_flag_value key value rest st :
  isValue (OptString value) = true →
  parseLoop (("--" +:+ key) :: value :: rest) st
  = parseLoop rest {| command := command st;
                      options := setOption key (OptString value) (options st);
                      positional := positional st |}.
Proof.
  intros Hvalue. cbn [parseLoop]. rewrite isFlag_written, flagKey_written.
  simpl in Hvalue. by rewrite Hvalue.
Qed.

Lemma parseLoop_written written :
  Forall (fun option => isValue option.2 = true) written →
  ∀ st,
    parseLoop (flat_map writeOption written) st
    = {| command := command st;
         options := fold_left (fun options option =>
                                 setOption option.1 option.2 options)
                              written (options st);
         positional := positional st |}.
Proof.
  intros Hvalues. induction Hvalues as [|[key value] written Hvalue _ IH];
    intros st.
  - simpl. by destruct st.
  - cbn [flat_map fold_left fst snd].
    destruct value as [value|]; unfold writeOption at 1; cbn [fst snd app].
    + rewrite parseLoop_flag_value by done. by rewrite IH.
    + rewrite parseLoop_flag_alone by apply written_head. by rewrite IH.
Qed.

Lemma storeOptions_snoc written option :
  storeOptions (written ++ [option])
  = setOption option.1 option.2 (storeOptions written).
Proof. unfold storeOptions. by rewrite fold_left_app. Qed.

Lemma lastWritten_snoc key written option :
  lastWritten key (written ++ [option])
  = if bool_decide (option.1 = key) then Some option.2
    else lastWritten key written.
Proof.
  unfold lastWritten. rewrite List.filter_app. cbn [List.filter].
  case_bool_decide; [|by rewrite app_nil_r].
  by rewrite last_snoc.
Qed.

(** What the stored options hold under each name. *)
Lemma storeOptions_lookup written key :
  storeOptions written !! key
  = if bool_decide (key = "__proto__") then None else lastWritten key written.
Proof.
  induction written as [|option written IH] using rev_ind.
  - unfold storeOptions, lastWritten. cbn. rewrite lookup_empty.
    by case_bool_decide.
  - rewrite storeOptions_snoc, lastWritten_snoc. unfold setOption.
    destruct (decide (option.1 = "__proto__")) as [Hp|Hp].
    + rewrite bool_decide_eq_true_2 by done. rewrite IH.
      case_bool_decide as Hk; [done|].
      rewrite bool_decide_eq_false_2; [done|congruence].
    + rewrite (bool_decide_eq_false_2 _ Hp).
      destruct (decide (option.1 = key)) as [<-|Hne].
      * rewrite lookup_insert_eq.
        by rewrite (bool_decide_eq_false_2 _ Hp), bool_decide_eq_true_2.
      * rewrite lookup_insert_ne by done.
        by rewrite IH, (bool_decide_eq_false_2 (option.1 = key)).
Qed.

(** X24.  A command line made of a command, positional arguments and then
    options is read back as written: [parseArgs] gives the command and the
    positional arguments in order, and the object of the options has, under
    every name but [__proto__], the value that the last option of that name
    was written with ([true] for an option written alone), and no property
    under a name that was not written.  An option named [__proto__] stores
    no property.  This needs a non-empty command, no positional argument
    that starts with two dashes, and option values that are neither empty
    nor start with two dashes. *)
Theorem parseArgs_written
    (cmd : string) (pos : list string) (written : list (string * OptionValue)) :
  cmd ≠ "" → isFlag cmd = false →
  Forall (fun p => isFlag p = false) pos →
  Forall (fun option => isValue option.2 = true) written →
  command (parseArgs (cmd :: pos ++ flat_map writeOption written)) = cmd
  ∧ positional (parseArgs (cmd :: pos ++ flat_map writeOption written)) = pos
  ∧ ∀ key,
      options (parseArgs (cmd :: pos ++ flat_map writeOption written)) !! key
      = if bool_decide (key = "__proto__") then None
        else lastWritten key written.
Proof.
  intros Hcmd Hflag Hpos Hvalues. unfold parseArgs.
  cbn [parseLoop command]. rewrite Hflag. cbn [bool_decide decide_rel].
  rewrite bool_decide_eq_true_2 by done.
  rewrite parseLoop_positional by done.
  rewrite parseLoop_written by done. cbn [command options positional app].
  split; [done|]. split; [done|]. intros key.
  apply storeOptions_lookup.
Qed.

Lemma parseArgs_written_witness :
  command (parseArgs ("sync" :: [] ++ flat_map writeOption
                                        [("only", OptString "hello-world");
                                         ("force", OptTrue);
                                         ("only", OptString "second-post")]))
  = "sync"
  ∧ positional (parseArgs ("sync" :: [] ++ flat_map writeOption
                                             [("only", OptString "hello-world");
                                              ("force", OptTrue);
                                              ("only", OptString "second-post")]))
    = []
  ∧ ∀ key,
      options (parseArgs ("sync" :: [] ++ flat_map writeOption
                                            [("only", OptString "hello-world");
                                             ("force", OptTrue);
                                             ("only", OptString "second-post")]))
        !! key
      = if bool_decide (key = "__proto__") then None
        else lastWritten key [("only", OptString "hello-world");
                              ("force", OptTrue);
                              ("only", OptString "second-post")].
Proof.
  apply (parseArgs_written "sync" []
           [("only", OptString "hello-world"); ("force", OptTrue);
            ("only", OptString "second-post")]).
  - discriminate.
  - reflexivity.
  - constructor.
  - repeat constructor.
Defined.

(** An option named [__proto__] leaves no property behind. *)
Example parseArgs_proto_option :
  options (parseArgs ["sync"; "--__proto__"; "polluted"; "--force"])
  = {[ "force" := OptTrue ]}.
Proof. vm_compute. reflexivity. Qed.

(** A word that follows an option written alone becomes its value, and is
    neither the command nor a positional argument. *)
Example parseArgs_flag_takes_word :
  parseArgs ["--force"; "sync"]
  = {| command := ""; options := {[ "force" := OptString "sync" ]};
       positional := [] |}.
Proof. vm_compute. reflexivity. Qed.

End CliExtras.
